(** * theIRS: the XML flattener and CSV row writer of parser.go

    A shallow embedding of [ParseXMLs], [generateRows] and [flatten]
    (src/parser.go) and the properties of the rows they write.

    What is modelled, and how:
    - [x.Record], a Go [map[string][]string], is a [gmap string (list string)];
    - a Go [range] over that map visits its entries in an order the language
      leaves open: the order is an input of the model ([MapRange]);
    - the [*xml.Decoder] is the stream of tokens that [decoder.Token()] still
      has to deliver, ended by [io.EOF] or by a syntax error;
    - the shared [*csv.Writer] is a buffer over a device that can start
      failing; as in [bufio.Writer] the first error sticks;
    - [flatten] calls itself and loops; the model recurses on a fuel that
      bounds the number of calls to [decoder.Token()], and the development
      proves that the fuel [generateRows] passes is always enough;
    - the goroutines of [ParseXMLs] share only the writer (under the lock
      [rw]), the counter [myInt] and the log. [generateRows] and [flatten]
      are given twice: as functions on the state of one worker, for what is
      said of one shard, and as the sequence of the atomic steps a goroutine
      takes on what is shared. A run of [ParseXMLs] interleaves the steps of
      its goroutines as a scheduler picks them, and what is said of
      [ParseXMLs] is proved for every scheduler and for every value of
      [myInt] before the call; a goroutine that runs alone does what the
      worker function does. *)

From Stdlib Require Import ZArith NArith Ascii String.
From stdpp Require Import gmap strings list fin_maps.

(** ** Go's [strings.TrimSpace] *)

Module GoStrings.

(** The table [asciiSpace] of package strings. *)
Definition asciiSpace (c : N) : bool :=
  ((c =? 9) || (c =? 10) || (c =? 11) || (c =? 12) || (c =? 13) || (c =? 32))%N.

(** Third byte of the white-space runes U+2000..U+200A, U+2028, U+2029 and
    U+202F, which all start with E2 80. *)
Definition space_E2_80 (c : N) : bool :=
  (((128 <=? c) && (c <=? 138)) || (c =? 168) || (c =? 169) || (c =? 175))%N.

(** The two-byte white-space runes U+0085 and U+00A0. *)
Definition space2 (b c : N) : bool :=
  ((b =? 194) && ((c =? 133) || (c =? 160)))%N.

(** The three-byte white-space runes: U+1680, U+2000..U+200A, U+2028,
    U+2029, U+202F, U+205F and U+3000. *)
Definition space3 (b c e : N) : bool :=
  (((b =? 225) && (c =? 154) && (e =? 128))
   || ((b =? 226) && (c =? 128) && space_E2_80 e)
   || ((b =? 226) && (c =? 129) && (e =? 159))
   || ((b =? 227) && (c =? 128) && (e =? 128)))%N.

(** Width in bytes of the white-space rune ([unicode.IsSpace]) encoded at
    the head of [bs]; 0 when the head is not white space. *)
Definition space_width (bs : list N) : nat :=
  match bs with
  | [] => 0
  | b :: r =>
      if asciiSpace b then 1
      else match r with
           | c :: r' =>
               if space2 b c then 2
               else match r' with
                    | e :: _ => if space3 b c e then 3 else 0
                    | [] => 0
                    end
           | [] => 0
           end
  end.

(** The same for the rune that ends a string, read backwards as
    [utf8.DecodeLastRuneInString] does: [rs] is the string reversed. *)
Definition space_width_last (rs : list N) : nat :=
  match rs with
  | [] => 0
  | e :: r =>
      if asciiSpace e then 1
      else match r with
           | c :: r' =>
               if space2 c e then 2
               else match r' with
                    | b :: _ => if space3 b c e then 3 else 0
                    | [] => 0
                    end
           | [] => 0
           end
  end.

Fixpoint trim_with (width : list N → nat) (fuel : nat) (bs : list N) : list N :=
  match fuel with
  | 0 => bs
  | S fuel =>
      match width bs with
      | 0 => bs
      | w => trim_with width fuel (drop w bs)
      end
  end.

Definition bytes (s : string) : list N := N_of_ascii <$> list_ascii_of_string s.
Definition of_bytes (bs : list N) : string :=
  string_of_list_ascii (ascii_of_N <$> bs).

Definition TrimSpace (s : string) : string :=
  let left := trim_with space_width (length (bytes s)) (bytes s) in
  let right := trim_with space_width_last (length left) (reverse left) in
  of_bytes (reverse right).

End GoStrings.

(** ** The decoder of encoding/xml, as [flatten] sees it *)

(** [flatten] looks at the local name of start and end elements and at the
    bytes of character data; comments, processing instructions and
    directives fall through its type switch. *)
Inductive Token :=
  | StartElement (local : string)
  | EndElement (local : string)
  | CharData (text : string)
  | OtherToken.

Inductive DecoderEnd := AtEOF | SyntaxError.

Record Decoder := mkDecoder { pending : list Token; ending : DecoderEnd }.

Inductive TokenResult := Tok (t : Token) | TokEOF | TokErr.

(** [decoder.Token()]: the next token, or the end of the stream, which is
    delivered again at every later call. *)
Definition Decoder_Token (d : Decoder) : TokenResult * Decoder :=
  match pending d with
  | t :: ts => (Tok t, mkDecoder ts (ending d))
  | [] => (match ending d with AtEOF => TokEOF | SyntaxError => TokErr end, d)
  end.

(** ** The csv writer *)

Abbreviation Row := (list string).

(** [file] holds the rows that reached the output, [buffered] those accepted
    by [Write] and not flushed yet. [device] says, call after call, whether
    the next [Write] or [Flush] succeeds on the underlying file (an empty
    list: always); once one fails, [failed] stays set. *)
Record CsvWriter := mkWriter {
  file : list Row;
  buffered : list Row;
  failed : bool;
  device : list bool
}.

Definition Writer_Write (row : Row) (w : CsvWriter) : bool * CsvWriter :=
  if failed w then (false, w)
  else match device w with
       | false :: dev => (false, mkWriter (file w) (buffered w) true dev)
       | dev => (true, mkWriter (file w) (buffered w ++ [row]) false (tail dev))
       end.

Definition Writer_Flush (w : CsvWriter) : CsvWriter :=
  if failed w then w
  else match device w with
       | false :: dev => mkWriter (file w) (buffered w) true dev
       | dev => mkWriter (file w ++ buffered w) [] false (tail dev)
       end.

Definition Writer_Error (w : CsvWriter) : bool := failed w.

(** Every row a [Write] accepted, in order. *)
Definition accepted (w : CsvWriter) : list Row := file w ++ buffered w.

(** ** Errors, log lines and the state of a worker *)

Inductive error :=
  | ErrCreateCSV        (* failed to create output CSV *)
  | ErrWriteHeader      (* failed to write CSV header *)
  | ErrFlushHeader      (* failed to flush CSV header *)
  | ErrReadDir          (* failed to read directory *)
  | ErrFinalFlush       (* failed to flush final CSV data *)
  | ErrWriteRow         (* failed to write CSV row *)
  | ErrFlushWriter      (* failed to flush CSV writer *)
  | ErrXMLParsing.      (* XML parsing error *)

Inductive LogEvent :=
  | LogReadDirError (dir : string)
  | LogProcessingError (dir : string) (e : error)
  | LogOpenError (dir file : string)
  | LogParseError (dir file : string) (e : error)
  | LogProcessed (n : Z).

(** Order of a Go [range] over a map: any enumeration of its entries. The
    first argument counts the [range] statements run so far, so that two
    loops over the same map may differ. *)
Record MapRange := mkRange {
  range_order : nat → gmap string (list string) → list (string * list string);
  range_order_perm : ∀ n m, range_order n m ≡ₚ map_to_list m
}.

(** [Rec] is [x.Record], owned by one worker; [Writer] is the [csv.Writer]
    behind [x.Writer], [myInt] the package counter, both shared; [logged]
    holds the lines of [log.Printf] and [ranges] counts the [range] loops
    run so far. *)
Record State := mkState {
  Rec : gmap string (list string);
  Writer : CsvWriter;
  myInt : Z;
  logged : list LogEvent;
  ranges : nat
}.

Definition set_Rec (r : gmap string (list string)) (s : State) : State :=
  mkState r (Writer s) (myInt s) (logged s) (ranges s).
Definition set_Writer (w : CsvWriter) (s : State) : State :=
  mkState (Rec s) w (myInt s) (logged s) (ranges s).
Definition log_Printf (e : LogEvent) (s : State) : State :=
  mkState (Rec s) (Writer s) (myInt s) (logged s ++ [e]) (ranges s).

(** [atomic.Int64.Add]: two's complement on 64 bits. *)
Definition wrap64 (z : Z) : Z := ((z + 2 ^ 63) mod 2 ^ 64 - 2 ^ 63)%Z.

(** ** Building and writing a row *)

(** The [strings.Builder] loop: the values written one after the other. *)
Definition Builder_String (data : list string) : string :=
  foldl (λ built b, built +:+ b) "" data.

(** One cell per map entry, by the number of values of the entry. *)
Definition cell (data : list string) : string :=
  let length := length data in
  if bool_decide (1 < length) then Builder_String data
  else if bool_decide (length = 1) then default "" (data !! 0)
  else "".

(** The row of the [range] loop that runs as the [n]-th one. *)
Definition build_row (ro : MapRange) (n : nat) (record : gmap string (list string)) : Row :=
  (λ entry, cell entry.2) <$> range_order ro n record.

(** The [io.EOF] branch of [flatten]: build the row, write it, flush, count.
    The result is the error [flatten] returns there, if any. *)
Definition emit_row (ro : MapRange) (s : State) : option error * State :=
  let row := build_row ro (ranges s) (Rec s) in
  let s := mkState (Rec s) (Writer s) (myInt s) (logged s) (S (ranges s)) in
  let '(ok, w) := Writer_Write row (Writer s) in
  if negb ok then (Some ErrWriteRow, set_Writer w s)
  else
    let w := Writer_Flush w in
    if Writer_Error w then (Some ErrFlushWriter, set_Writer w s)
    else
      let n := wrap64 (myInt s + 1)%Z in
      let s := mkState (Rec s) w n (logged s) (ranges s) in
      (None, if bool_decide (Z.rem n 1000 = 0)%Z then log_Printf (LogProcessed n) s else s).

(** ** [flatten] *)

(** The [xml.CharData] case: [x.Record[prefix] = append(x.Record[prefix], val)]
    for a non-empty trimmed text, then [x.Record[lastTag]] is bound to an
    empty slice unless it is bound already. *)
Definition record_text (prefix lastTag text : string)
    (record : gmap string (list string)) : gmap string (list string) :=
  let val := GoStrings.TrimSpace text in
  let record :=
    if bool_decide (val ≠ "") then <[prefix := default [] (record !! prefix) ++ [val]]> record
    else record in
  match record !! lastTag with
  | Some _ => record
  | None => <[lastTag := []]> record
  end.

(** The loop of [flatten] entered with the locals [element] (its
    [Name.Local]) and [lastTag]. [None] when the fuel runs out; otherwise the
    returned error, the decoder and the state. *)
Fixpoint flatten_loop (ro : MapRange) (fuel : nat) (element lastTag : string)
    (decoder : Decoder) (prefix : string) (s : State)
    : option (option error * Decoder * State) :=
  match fuel with
  | 0 => None
  | S fuel =>
      match Decoder_Token decoder with
      | (TokEOF, decoder) =>
          let '(err, s) := emit_row ro s in Some (err, decoder, s)
      | (TokErr, decoder) => Some (Some ErrXMLParsing, decoder, s)
      | (Tok (StartElement local), decoder) =>
          let fullTag := prefix +:+ "." +:+ local in
          (* lastTag = t.Name.Local; element = t; x.flatten(t, decoder, fullTag) *)
          match flatten_loop ro fuel local "" decoder fullTag s with
          | None => None
          | Some (Some err, decoder, s) => Some (Some err, decoder, s)
          | Some (None, decoder, s) => flatten_loop ro fuel local local decoder prefix s
          end
      | (Tok (CharData text), decoder) =>
          flatten_loop ro fuel element lastTag decoder prefix
            (set_Rec (record_text prefix lastTag text (Rec s)) s)
      | (Tok (EndElement local), decoder) =>
          if bool_decide (local = element) then Some (None, decoder, s)
          else flatten_loop ro fuel element lastTag decoder prefix s
      | (Tok OtherToken, decoder) =>
          flatten_loop ro fuel element lastTag decoder prefix s
      end
  end.

(** [x.flatten(element, decoder, prefix)]: the loop with [lastTag] empty. *)
Definition flatten (ro : MapRange) (fuel : nat) (element : string)
    (decoder : Decoder) (prefix : string) (s : State) :=
  flatten_loop ro fuel element "" decoder prefix s.

(** ** [generateRows] *)

(** A directory entry with what [os.Open] and [xml.NewDecoder] give for it:
    [None] when the file cannot be opened. *)
Record DirEntry := mkEntry {
  Name : string;
  IsDir : bool;
  opened : option Decoder
}.

Fixpoint generateRows (ro : MapRange) (root : string) (files : list DirEntry)
    (s : State) : option (option error * State) :=
  match files with
  | [] => Some (None, s)
  | f :: files =>
      if IsDir f then generateRows ro root files s
      else match opened f with
           | None => generateRows ro root files (log_Printf (LogOpenError root (Name f)) s)
           | Some decoder =>
               match flatten ro (S (length (pending decoder))) "" decoder "" s with
               | None => None
               | Some (Some err, _, s) =>
                   generateRows ro root files (log_Printf (LogParseError root (Name f) err) s)
               | Some (None, _, s) => generateRows ro root files s
               end
           end
  end.

(** ** [ParseXMLs] *)

Definition header : Row := ["FileName"; "EIN"; "OrganizationName"; "TaxYear"; "ReturnType"].

(** [regexp.MustCompile(`.zip`).Match]: some character other than a line
    feed followed by [zip], anywhere in the name. *)
Fixpoint re_Match (name : string) : bool :=
  match name with
  | EmptyString => false
  | String c rest =>
      (negb (Ascii.eqb c "010") && String.prefix "zip" rest) || re_Match rest
  end.

(** An entry of ./data/990_zips/ with what [os.ReadDir] gives for it. *)
Record Shard := mkShard {
  shard_name : string;
  shard_files : option (list DirEntry)
}.

Record FileSystem := mkFS {
  can_create : bool;                      (* os.Create("resolve.csv") *)
  output_device : list bool;              (* see [device] *)
  root_entries : option (list Shard)      (* os.ReadDir(pathway) *)
}.

(** * Packages strings and path/filepath

    [ParseXMLs] and the functions that unpack the archives build their
    paths with [filepath.Join] and test names with package strings.
    - paths are strings of bytes, with [/] as the separator (Unix);
    - of package strings, [HasPrefix], [HasSuffix] and [TrimSuffix] are as in
      Go; [ToLower] is Go's for a name of ASCII bytes, and takes what
      [unicode.ToLower] makes of any other name as an input;
    - of package path/filepath, [Ext] and [Dir] scan for the last dot and the
      last separator as in Go; [Clean] works on the elements of the path,
      by the four rules of its documentation. *)

(** ** More of package strings *)

Module GoStr.

(** [s[:n]] and [s[n:]]. *)
Fixpoint slice_to (n : nat) (s : string) : string :=
  match n, s with
  | S n, String c s => String c (slice_to n s)
  | _, _ => ""
  end.

Fixpoint slice_from (n : nat) (s : string) : string :=
  match n, s with
  | S n, String _ s => slice_from n s
  | _, _ => s
  end.

(** [len(s) >= len(prefix) && s[:len(prefix)] == prefix] *)
Definition HasPrefix (s prefix : string) : bool :=
  (String.length prefix <=? String.length s)
  && String.eqb (slice_to (String.length prefix) s) prefix.

(** [len(s) >= len(suffix) && s[len(s)-len(suffix):] == suffix] *)
Definition HasSuffix (s suffix : string) : bool :=
  (String.length suffix <=? String.length s)
  && String.eqb (slice_from (String.length s - String.length suffix) s) suffix.

Definition TrimSuffix (s suffix : string) : string :=
  if HasSuffix s suffix then slice_to (String.length s - String.length suffix) s
  else s.

(** No byte of [s] is [utf8.RuneSelf] or more. *)
Fixpoint isASCII (s : string) : bool :=
  match s with
  | "" => true
  | String c s => (N_of_ascii c <? 128)%N && isASCII s
  end.

Definition lower_byte (c : ascii) : ascii :=
  let n := N_of_ascii c in
  if ((65 <=? n) && (n <=? 90))%N then ascii_of_N (n + 32) else c.

Fixpoint lower_bytes (s : string) : string :=
  match s with
  | "" => ""
  | String c s => String (lower_byte c) (lower_bytes s)
  end.

(** [strings.ToLower]: byte by byte for a string of ASCII bytes, and
    [strings.Map(unicode.ToLower, s)], here [unicode_lower s], for any
    other. *)
Definition ToLower (unicode_lower : string → string) (s : string) : string :=
  if isASCII s then lower_bytes s else unicode_lower s.

End GoStr.

(** ** Package path/filepath, on Unix *)

Module GoFilepath.

Definition is_separator (c : ascii) : bool := Ascii.eqb c "/".

(** The elements of a path: what stands between its separators. *)
Fixpoint split (path : string) : list string :=
  match path with
  | "" => [""]
  | String c rest =>
      if is_separator c then "" :: split rest
      else match split rest with
           | elem :: elems => String c elem :: elems
           | [] => [String c ""]
           end
  end.

(** [strings.Join(elems, "/")] *)
Fixpoint join (elems : list string) : string :=
  match elems with
  | [] => ""
  | [elem] => elem
  | elem :: elems => elem +:+ "/" +:+ join elems
  end.

Definition rooted (path : string) : bool :=
  match path with
  | String c _ => is_separator c
  | "" => false
  end.

(** One element read by [Clean]; [out] holds the elements written so far,
    the last one first. An empty element and [.] are dropped; [..] takes
    back the element before it, is kept at the start of a path that is not
    rooted, and is dropped at the start of a rooted one. *)
Definition clean_step (is_rooted : bool) (out : list string) (elem : string)
    : list string :=
  if bool_decide (elem = "" ∨ elem = ".") then out
  else if bool_decide (elem = "..") then
    match out with
    | top :: below => if bool_decide (top = "..") then ".." :: out else below
    | [] => if is_rooted then [] else [".."]
    end
  else elem :: out.

Definition clean_elems (is_rooted : bool) (elems : list string) : list string :=
  reverse (foldl (clean_step is_rooted) [] elems).

(** The path of the cleaned elements: [/] before them for a rooted path,
    and [.] for no element at all otherwise. *)
Definition render (is_rooted : bool) (elems : list string) : string :=
  if is_rooted then "/" +:+ join elems
  else match elems with
       | [] => "."
       | _ => join elems
       end.

Definition Clean (path : string) : string :=
  render (rooted path) (clean_elems (rooted path) (split path)).

(** [filepath.Join(a, b)]: the elements from the first that is not empty
    on, joined by a separator and cleaned. *)
Definition Join (a b : string) : string :=
  if bool_decide (a ≠ "") then Clean (a +:+ "/" +:+ b)
  else if bool_decide (b ≠ "") then Clean b
  else "".

Fixpoint has_separator (path : string) : bool :=
  match path with
  | "" => false
  | String c rest => is_separator c || has_separator rest
  end.

(** [path[:i+1]] for the last separator [path[i]]; empty without any. *)
Fixpoint to_last_separator (path : string) : string :=
  match path with
  | "" => ""
  | String c rest =>
      if has_separator rest then String c (to_last_separator rest)
      else if is_separator c then "/" else ""
  end.

Definition Dir (path : string) : string := Clean (to_last_separator path).

(** The suffix from the last dot of the last element on; empty when that
    element has no dot. *)
Fixpoint Ext (path : string) : string :=
  match path with
  | "" => ""
  | String c rest =>
      if has_separator rest then Ext rest
      else match Ext rest with
           | "" => if Ascii.eqb c "." then path else ""
           | ext => ext
           end
  end.

End GoFilepath.

(** The directory of the archives and shards, [pathway] in [ParseXMLs] and
    in [UnzipXMLs]. *)
Definition pathway : string := "./data/990_zips/".

(** ** The goroutines of [ParseXMLs]

    [ParseXMLs] starts one goroutine for each shard, at most [MAXPROCS] at a
    time. A goroutine owns its record and its decoders; what the goroutines
    share is the [csv.Writer], the counter [myInt] and the log. The steps
    that touch what is shared are atomic: the row is built, written and
    flushed under the lock [rw]; [myInt.Add] and [myInt.Load] are atomic
    operations; [log.Printf] writes one line. Between two such steps of one
    goroutine the others may take any number of theirs. *)

Record Shared := mkShared {
  shWriter : CsvWriter;
  shInt : Z;
  shLogged : list LogEvent;
  shRanges : nat
}.

(** Lines 131-157 of [flatten], between [rw.Lock()] and [rw.Unlock()]: the
    row of the record, [Write], [Flush], and the error returned there. *)
Definition locked_write (ro : MapRange) (record : gmap string (list string))
    (sh : Shared) : option error * Shared :=
  let row := build_row ro (shRanges sh) record in
  let '(ok, w) := Writer_Write row (shWriter sh) in
  if negb ok then (Some ErrWriteRow, mkShared w (shInt sh) (shLogged sh) (S (shRanges sh)))
  else
    let w := Writer_Flush w in
    (if Writer_Error w then Some ErrFlushWriter else None,
     mkShared w (shInt sh) (shLogged sh) (S (shRanges sh))).

Definition Int64_Add (sh : Shared) : Shared :=
  mkShared (shWriter sh) (wrap64 (shInt sh + 1)) (shLogged sh) (shRanges sh).

Definition Printf (e : LogEvent) (sh : Shared) : Shared :=
  mkShared (shWriter sh) (shInt sh) (shLogged sh ++ [e]) (shRanges sh).

(** What a goroutine does, as the steps it takes on what is shared; each
    step goes on with what it is answered. *)
Inductive Prog (A : Type) :=
  | Ret (a : A)
  | DoRow (record : gmap string (list string)) (k : option error → Prog A)
  | DoAdd (k : Prog A)
  | DoLoad (k : Z → Prog A)
  | DoLog (e : LogEvent) (k : Prog A).
Arguments Ret {A} a.
Arguments DoRow {A} record k.
Arguments DoAdd {A} k.
Arguments DoLoad {A} k.
Arguments DoLog {A} e k.

Fixpoint bind {A B} (f : A → Prog B) (p : Prog A) : Prog B :=
  match p with
  | Ret a => f a
  | DoRow record k => DoRow record (λ err, bind f (k err))
  | DoAdd k => DoAdd (bind f k)
  | DoLoad k => DoLoad (λ n, bind f (k n))
  | DoLog e k => DoLog e (bind f k)
  end.

#[global] Instance Prog_ret : MRet Prog := @Ret.
#[global] Instance Prog_bind : MBind Prog := @bind.

(** One step of a goroutine on what is shared. *)
Definition prog_step {A} (ro : MapRange) (p : Prog A) (sh : Shared) : Prog A * Shared :=
  match p with
  | Ret a => (Ret a, sh)
  | DoRow record k => let '(err, sh) := locked_write ro record sh in (k err, sh)
  | DoAdd k => (k, Int64_Add sh)
  | DoLoad k => (k (shInt sh), sh)
  | DoLog e k => (k, Printf e sh)
  end.

(** The [io.EOF] branch of [flatten], step by step: the row under the lock,
    then [myInt.Add(1)], [myInt.Load()] for the test and, when the test
    holds, [myInt.Load()] again for the line that is logged. *)
Definition emit_row_prog (record : gmap string (list string)) : Prog (option error) :=
  DoRow record (λ err,
    match err with
    | Some err => Ret (Some err)
    | None =>
        DoAdd (DoLoad (λ n,
          if bool_decide (Z.rem n 1000 = 0)%Z
          then DoLoad (λ n, DoLog (LogProcessed n) (Ret None))
          else Ret None))
    end).

(** [flatten], with the record of the goroutine passed along. *)
Fixpoint flatten_loop_prog (fuel : nat) (element lastTag : string)
    (decoder : Decoder) (prefix : string) (record : gmap string (list string))
    : Prog (option (option error * Decoder * gmap string (list string))) :=
  match fuel with
  | 0 => Ret None
  | S fuel =>
      match Decoder_Token decoder with
      | (TokEOF, decoder) =>
          err ← emit_row_prog record; Ret (Some (err, decoder, record))
      | (TokErr, decoder) => Ret (Some (Some ErrXMLParsing, decoder, record))
      | (Tok (StartElement local), decoder) =>
          let fullTag := prefix +:+ "." +:+ local in
          res ← flatten_loop_prog fuel local "" decoder fullTag record;
          match res with
          | None => Ret None
          | Some (Some err, decoder, record) => Ret (Some (Some err, decoder, record))
          | Some (None, decoder, record) =>
              flatten_loop_prog fuel local local decoder prefix record
          end
      | (Tok (CharData text), decoder) =>
          flatten_loop_prog fuel element lastTag decoder prefix
            (record_text prefix lastTag text record)
      | (Tok (EndElement local), decoder) =>
          if bool_decide (local = element) then Ret (Some (None, decoder, record))
          else flatten_loop_prog fuel element lastTag decoder prefix record
      | (Tok OtherToken, decoder) =>
          flatten_loop_prog fuel element lastTag decoder prefix record
      end
  end.

Definition flatten_prog (fuel : nat) (element : string) (decoder : Decoder)
    (prefix : string) (record : gmap string (list string)) :=
  flatten_loop_prog fuel element "" decoder prefix record.

(** [generateRows], likewise. *)
Fixpoint generateRows_prog (root : string) (files : list DirEntry)
    (record : gmap string (list string))
    : Prog (option (option error * gmap string (list string))) :=
  match files with
  | [] => Ret (Some (None, record))
  | f :: files =>
      if IsDir f then generateRows_prog root files record
      else match opened f with
           | None => DoLog (LogOpenError root (Name f)) (generateRows_prog root files record)
           | Some decoder =>
               res ← flatten_prog (S (length (pending decoder))) "" decoder "" record;
               match res with
               | None => Ret None
               | Some (Some err, _, record) =>
                   DoLog (LogParseError root (Name f) err)
                     (generateRows_prog root files record)
               | Some (None, _, record) => generateRows_prog root files record
               end
           end
  end.

(** The goroutine of lines 73-86: a record of its own, [generateRows], and a
    line in the log for the error it returns. *)
Definition goroutine (path : string) (files : list DirEntry) : Prog unit :=
  res ← generateRows_prog path files ∅;
  match res with
  | Some (Some err, _) => DoLog (LogProcessingError path err) (Ret tt)
  | _ => Ret tt
  end.

Definition MAXPROCS : nat := 12.

(** [ParseXMLs] at work: the entries its loop has not reached yet, the
    goroutines started and not ended, and what they share. *)
Record Conf := mkConf {
  todo : list Shard;
  running : list (Prog unit);
  shared : Shared
}.

(** The loop of [ParseXMLs] can take its next step: an entry is left and, if
    a goroutine is to be started for it, the semaphore has room. *)
Definition main_enabled (c : Conf) : bool :=
  match todo c with
  | [] => false
  | zipper :: _ =>
      re_Match (shard_name zipper)
      || bool_decide (shard_files zipper = None)
      || bool_decide (length (running c) < MAXPROCS)
  end.

(** One turn of the loop of lines 62-89. *)
Definition main_step (c : Conf) : Conf :=
  match todo c with
  | [] => c
  | zipper :: rest =>
      if re_Match (shard_name zipper) then mkConf rest (running c) (shared c)
      else
        let dirPath := GoFilepath.Join pathway (shard_name zipper) in
        match shard_files zipper with
        | None => mkConf rest (running c) (Printf (LogReadDirError dirPath) (shared c))
        | Some files => mkConf rest (running c ++ [goroutine dirPath files]) (shared c)
        end
  end.

(** One step of the [i]-th goroutine; one that has nothing left to do ends
    and frees its place in the semaphore. *)
Definition goroutine_step (ro : MapRange) (i : nat) (c : Conf) : Conf :=
  match running c !! i with
  | None => c
  | Some (Ret _) => mkConf (todo c) (delete i (running c)) (shared c)
  | Some p =>
      let '(p, sh) := prog_step ro p (shared c) in
      mkConf (todo c) (<[i := p]> (running c)) sh
  end.

(** The scheduler picks, by [choice], one of those that can take a step:
    the loop of [ParseXMLs] if it is not waiting, or a goroutine. *)
Definition step (ro : MapRange) (choice : nat) (c : Conf) : Conf :=
  if main_enabled c then
    match choice mod S (length (running c)) with
    | 0 => main_step c
    | S i => goroutine_step ro i c
    end
  else goroutine_step ro (choice mod length (running c)) c.

(** The run up to [wg.Wait()] returning: [pick n] is the choice of the
    scheduler at the [n]-th step. *)
Fixpoint run_threads (ro : MapRange) (pick : nat → nat) (fuel n : nat) (c : Conf)
    : option Shared :=
  match todo c, running c with
  | [], [] => Some (shared c)
  | _, _ =>
      match fuel with
      | 0 => None
      | S fuel => run_threads ro pick fuel (S n) (step ro (pick n) c)
      end
  end.

(** A bound on the steps of a run: five for each row a document can get,
    one row for each start element and one more, and a line in the log. *)
Definition document_steps (decoder : Decoder) : nat :=
  5 * S (length (pending decoder)) + 1.

Fixpoint files_steps (files : list DirEntry) : nat :=
  match files with
  | [] => 0
  | f :: files =>
      (if IsDir f then 0
       else match opened f with
            | None => 1
            | Some decoder => document_steps decoder
            end)
      + files_steps files
  end.

Fixpoint entries_steps (entries : list Shard) : nat :=
  match entries with
  | [] => 0
  | zipper :: entries =>
      S (match shard_files zipper with
         | None => 0
         | Some files => files_steps files + 2
         end)
      + entries_steps entries
  end.

(** [ParseXMLs], called when [myInt] holds [n0], under the scheduler [pick].
    The second component is what the goroutines shared when it returns;
    there is none when resolve.csv could not be created. *)
Definition ParseXMLs (ro : MapRange) (fs : FileSystem) (n0 : Z) (pick : nat → nat)
    : option (option error * option Shared) :=
  if negb (can_create fs) then Some (Some ErrCreateCSV, None)
  else
    let sh := mkShared (mkWriter [] [] false (output_device fs)) n0 [] 0 in
    let '(ok, w) := Writer_Write header (shWriter sh) in
    if negb ok
    then Some (Some ErrWriteHeader, Some (mkShared w n0 [] 0))
    else
      let w := Writer_Flush w in
      let sh := mkShared w n0 [] 0 in
      if Writer_Error w then Some (Some ErrFlushHeader, Some sh)
      else
        match root_entries fs with
        | None => Some (Some ErrReadDir, Some sh)
        | Some reader =>
            match run_threads ro pick (entries_steps reader) 0 (mkConf reader [] sh) with
            | None => None
            | Some sh =>
                let w := Writer_Flush (shWriter sh) in
                Some (if Writer_Error w then Some ErrFinalFlush else None,
                      Some (mkShared w (shInt sh) (shLogged sh) (shRanges sh)))
            end
        end.

(** * Unpacking the archives: [UnzipXMLs], [unzipXMLs] and [extractZipFile]

    The rest of src/parser.go. What is modelled, and how:
    - an archive is the list of its files, each with its name, whether it
      is a directory, its mode and what [f.Open()] and reading give;
    - the calls to the file system ([os.MkdirAll], [os.OpenFile], [io.Copy]
      and the [Close]s) are recorded one after the other with their
      outcome, which is an input of the model: a function of the call and
      of all the calls before it. *)

(** ** The archives and the file system *)

(** A file of an archive ([*zip.File]): [zf_Open] is [None] when [f.Open()]
    fails, and otherwise the bytes that can be read from the file and
    whether the reading ends with [io.EOF] rather than an error. *)
Record ZipFile := mkZipFile {
  zf_Name : string;
  zf_IsDir : bool;
  zf_Mode : N;
  zf_Open : option (string * bool)
}.

(** An entry of [./data/990_zips/] as [UnzipXMLs] sees it: [zip.OpenReader]
    gives the files of the archive, or fails. *)
Record Archive := mkArchive {
  archive_name : string;
  archive_files : option (list ZipFile)
}.

(** The calls to the file system. *)
Inductive FsCall :=
  | MkdirAll (path : string)
  | OpenFile (path : string) (mode : N)
  | Copy (path : string) (data : string)
  | CloseFile (path : string)
  | CloseEntry (name : string)
  | CloseZip (src : string).

Definition call_path (c : FsCall) : option string :=
  match c with
  | MkdirAll path | OpenFile path _ | Copy path _ => Some path
  | _ => None
  end.

Inductive unzip_error :=
  | ErrReadZips
  | ErrOpenZip
  | ErrCreateDest
  | ErrOpenInZip
  | ErrZipSlip (path : string)
  | ErrCreateDir
  | ErrCreateParent
  | ErrCreateOutput
  | ErrCopy.

Inductive UnzipEvent :=
  | LogUnzipError (src : string) (e : unzip_error)
  | LogExtractError (name src : string) (e : unzip_error)
  | LogCloseZipError (src : string)
  | LogCloseEntryError (name : string)
  | LogCloseFileError (path : string).

(** The outcome of each call, given the calls made before it. *)
Definition FsOracle := list (FsCall * bool) → FsCall → bool.

Record Disk := mkDisk {
  calls : list (FsCall * bool);
  unzip_logged : list UnzipEvent
}.

Definition fs_call (ok : FsOracle) (c : FsCall) (d : Disk) : bool * Disk :=
  let r := ok (calls d) c in
  (r, mkDisk (calls d ++ [(c, r)]) (unzip_logged d)).

Definition unzip_log (e : UnzipEvent) (d : Disk) : Disk :=
  mkDisk (calls d) (unzip_logged d ++ [e]).

(** A deferred [Close]: its error is logged and nothing else. *)
Definition deferred_close (ok : FsOracle) (c : FsCall) (e : UnzipEvent) (d : Disk)
    : Disk :=
  let '(closed, d) := fs_call ok c d in
  if closed then d else unzip_log e d.

(** ** [extractZipFile] *)

(** From [os.OpenFile] on: the copy, then the deferred [outFile.Close()]. *)
Definition write_file (ok : FsOracle) (path data : string) (read_ok : bool)
    (d : Disk) : option unzip_error * Disk :=
  let '(copied, d) := fs_call ok (Copy path data) d in
  let err := if copied && read_ok then None else Some ErrCopy in
  (err, deferred_close ok (CloseFile path) (LogCloseFileError path) d).

Definition extractZipFile (ok : FsOracle) (f : ZipFile) (dest : string) (d : Disk)
    : option unzip_error * Disk :=
  match zf_Open f with
  | None => (Some ErrOpenInZip, d)
  | Some (data, read_ok) =>
      let path := GoFilepath.Join dest (zf_Name f) in
      let '(err, d) :=
        if negb (GoStr.HasPrefix path (GoFilepath.Clean dest +:+ "/"))
        then (Some (ErrZipSlip path), d)
        else if zf_IsDir f then
          let '(made, d) := fs_call ok (MkdirAll path) d in
          (if made then None else Some ErrCreateDir, d)
        else
          let '(made, d) := fs_call ok (MkdirAll (GoFilepath.Dir path)) d in
          if negb made then (Some ErrCreateParent, d)
          else
            let '(created, d) := fs_call ok (OpenFile path (zf_Mode f)) d in
            if negb created then (Some ErrCreateOutput, d)
            else write_file ok path data read_ok d in
      (err, deferred_close ok (CloseEntry (zf_Name f))
              (LogCloseEntryError (zf_Name f)) d)
  end.

(** ** [unzipXMLs] *)

(** The loop over [r.File]: an error is logged and the loop goes on. *)
Fixpoint extract_all (ok : FsOracle) (src dest : string) (files : list ZipFile)
    (d : Disk) : Disk :=
  match files with
  | [] => d
  | f :: files =>
      let '(err, d) := extractZipFile ok f dest d in
      let d := match err with
               | Some e => unzip_log (LogExtractError (zf_Name f) src e) d
               | None => d
               end in
      extract_all ok src dest files d
  end.

Definition unzipXMLs (ok : FsOracle) (src : string) (archive : option (list ZipFile))
    (dest : string) (d : Disk) : option unzip_error * Disk :=
  match archive with
  | None => (Some ErrOpenZip, d)
  | Some files =>
      let '(err, d) :=
        let '(made, d) := fs_call ok (MkdirAll dest) d in
        if negb made then (Some ErrCreateDest, d)
        else (None, extract_all ok src dest files d) in
      (err, deferred_close ok (CloseZip src) (LogCloseZipError src) d)
  end.

(** ** [UnzipXMLs] *)

Definition is_zip (unicode_lower : string → string) (name : string) : bool :=
  GoStr.HasSuffix (GoStr.ToLower unicode_lower name) ".zip".

Definition destPath (name : string) : string :=
  let srcPath := GoFilepath.Join pathway name in
  GoStr.TrimSuffix srcPath (GoFilepath.Ext srcPath).

Fixpoint unzip_each (unicode_lower : string → string) (ok : FsOracle)
    (reader : list Archive) (d : Disk) : Disk :=
  match reader with
  | [] => d
  | zipper :: reader =>
      if negb (is_zip unicode_lower (archive_name zipper))
      then unzip_each unicode_lower ok reader d
      else
        let srcPath := GoFilepath.Join pathway (archive_name zipper) in
        let '(err, d) :=
          unzipXMLs ok srcPath (archive_files zipper) (destPath (archive_name zipper)) d in
        let d := match err with
                 | Some e => unzip_log (LogUnzipError srcPath e) d
                 | None => d
                 end in
        unzip_each unicode_lower ok reader d
  end.

(** [reader] is [None] when [os.ReadDir] fails. *)
Definition UnzipXMLs (unicode_lower : string → string) (ok : FsOracle)
    (reader : option (list Archive)) (d : Disk) : option unzip_error * Disk :=
  match reader with
  | None => (Some ErrReadZips, d)
  | Some reader => (None, unzip_each unicode_lower ok reader d)
  end.

(** * The vocabulary of the properties *)

(** ** The runs of [flatten] as a relation

    [flatten_run ro element lastTag decoder prefix s res] holds when the loop
    entered with these locals returns [res]. Every result of [flatten_loop]
    is such a run, so the properties below are proved by induction on runs
    rather than on the fuel. *)
Inductive flatten_run (ro : MapRange) :
    string → string → Decoder → string → State →
    option error * Decoder * State → Prop :=
  | run_eof element lastTag d prefix s :
      pending d = [] → ending d = AtEOF →
      flatten_run ro element lastTag d prefix s
        ((emit_row ro s).1, d, (emit_row ro s).2)
  | run_err element lastTag d prefix s :
      pending d = [] → ending d = SyntaxError →
      flatten_run ro element lastTag d prefix s (Some ErrXMLParsing, d, s)
  | run_start_err element lastTag d prefix s local ts err d1 s1 :
      pending d = StartElement local :: ts →
      flatten_run ro local "" (mkDecoder ts (ending d)) (prefix +:+ "." +:+ local) s
        (Some err, d1, s1) →
      flatten_run ro element lastTag d prefix s (Some err, d1, s1)
  | run_start element lastTag d prefix s local ts d1 s1 res :
      pending d = StartElement local :: ts →
      flatten_run ro local "" (mkDecoder ts (ending d)) (prefix +:+ "." +:+ local) s
        (None, d1, s1) →
      flatten_run ro local local d1 prefix s1 res →
      flatten_run ro element lastTag d prefix s res
  | run_text element lastTag d prefix s text ts res :
      pending d = CharData text :: ts →
      flatten_run ro element lastTag (mkDecoder ts (ending d)) prefix
        (set_Rec (record_text prefix lastTag text (Rec s)) s) res →
      flatten_run ro element lastTag d prefix s res
  | run_end element lastTag d prefix s ts :
      pending d = EndElement element :: ts →
      flatten_run ro element lastTag d prefix s (None, mkDecoder ts (ending d), s)
  | run_end_other element lastTag d prefix s local ts res :
      pending d = EndElement local :: ts → local ≠ element →
      flatten_run ro element lastTag (mkDecoder ts (ending d)) prefix s res →
      flatten_run ro element lastTag d prefix s res
  | run_other element lastTag d prefix s ts res :
      pending d = OtherToken :: ts →
      flatten_run ro element lastTag (mkDecoder ts (ending d)) prefix s res →
      flatten_run ro element lastTag d prefix s res.

(** ** What a run does to the decoder, the record and the writer *)

(** The record only grows: a bound key stays bound, to its former values
    followed by the later ones. *)
Definition record_le (r1 r2 : gmap string (list string)) : Prop :=
  ∀ k vs, r1 !! k = Some vs → ∃ more, r2 !! k = Some (vs ++ more).

(** The cells of a record, in the order of [map_to_list]. *)
Definition cells (record : gmap string (list string)) : Row :=
  (λ entry, cell entry.2) <$> map_to_list record.

(** The decoder has nothing left and ended with [io.EOF]. *)
Definition at_eof (d : Decoder) : Prop := pending d = [] ∧ ending d = AtEOF.

(** The shared part of the state is as it was. *)
Definition untouched (s s' : State) : Prop :=
  Writer s' = Writer s ∧ myInt s' = myInt s ∧ logged s' = logged s ∧ ranges s' = ranges s.

(** ** Two orders of map iteration

    Runs that differ only in the order of [range] go through the same
    states up to the order of the cells inside each row. *)
Definition writer_sim (w1 w2 : CsvWriter) : Prop :=
  Forall2 (≡ₚ) (file w1) (file w2) ∧ Forall2 (≡ₚ) (buffered w1) (buffered w2)
  ∧ failed w1 = failed w2 ∧ device w1 = device w2.

Definition state_sim (s1 s2 : State) : Prop :=
  Rec s1 = Rec s2 ∧ writer_sim (Writer s1) (Writer s2)
  ∧ myInt s1 = myInt s2 ∧ logged s1 = logged s2.

Definition result_sim {A} (r1 r2 : option (option error * A * State)) : Prop :=
  match r1, r2 with
  | Some (e1, a1, s1), Some (e2, a2, s2) => e1 = e2 ∧ a1 = a2 ∧ state_sim s1 s2
  | None, None => True
  | _, _ => False
  end.

(** ** The nesting that [decoder.Token()] guarantees

    encoding/xml delivers start and end elements properly nested and
    matched. [nested open ts] is the stack of open elements after the tokens
    [ts], read with [open] on the stack; [None] if an end element does not
    match the innermost open one. *)
Fixpoint nested (open : list string) (ts : list Token) : option (list string) :=
  match ts with
  | [] => Some open
  | StartElement local :: ts => nested (local :: open) ts
  | EndElement local :: ts =>
      match open with
      | top :: open => if bool_decide (local = top) then nested open ts else None
      | [] => None
      end
  | _ :: ts => nested open ts
  end.

(** ** Keys that are not paths *)

Definition start_names (ts : list Token) : list string :=
  omap (λ t, match t with StartElement local => Some local | _ => None end) ts.

(** A key that is no path of an element: the empty string or the bare local
    name of a start element among [names]. *)
Definition bare (names : list string) (k : string) : Prop := k = "" ∨ k ∈ names.

(** No key that begins with the separator, as every path of an element
    does, is bound to an empty sequence. *)
Definition paths_nonempty (r : gmap string (list string)) : Prop :=
  ∀ k vs, r !! k = Some vs → String.prefix "." k = true → vs ≠ [].

(** ** The texts of a document by path, in the words of the specification

    Section 4.3 of the specification attributes a text to the innermost
    element open where the text stands, under the path made of the names of
    the open elements, root first, each preceded by the separator. These
    definitions follow that wording, not the code; [flatten] is compared
    with them. [open] holds the open elements, innermost first. *)
Definition spec_path (open : list string) : string :=
  foldr (λ name path, path +:+ "." +:+ name) "" open.

Fixpoint spec_texts (open : list string) (ts : list Token) : list (string * string) :=
  match ts with
  | [] => []
  | StartElement local :: ts => spec_texts (local :: open) ts
  | EndElement _ :: ts => spec_texts (tail open) ts
  | CharData text :: ts =>
      let val := GoStrings.TrimSpace text in
      (if bool_decide (val ≠ "") then [(spec_path open, val)] else [])
      ++ spec_texts open ts
  | OtherToken :: ts => spec_texts open ts
  end.

(** The values observed at [path], in document order. *)
Definition spec_values (ts : list Token) (path : string) : list string :=
  snd <$> filter (λ entry, entry.1 = path) (spec_texts [] ts).

(** ** Range orders, documents and directories used as examples *)

Definition range_sorted : MapRange :=
  mkRange (λ _ m, map_to_list m) (λ _ m, Permutation_refl (map_to_list m)).

Definition range_reversed : MapRange :=
  mkRange (λ _ m, reverse (map_to_list m)) (λ _ m, reverse_Permutation (map_to_list m)).

(** A worker about to start: empty record, nothing written, a writer over
    the device [dev]. *)
Definition empty_state (dev : list bool) : State :=
  mkState ∅ (mkWriter [] [] false dev) 0%Z [] 0.

(** [<Return><EIN>12-3456789</EIN><Filer><Name>ACME</Name></Filer></Return>] *)
Definition worked_example : Decoder :=
  mkDecoder [StartElement "Return"; StartElement "EIN"; CharData "12-3456789";
             EndElement "EIN"; StartElement "Filer"; StartElement "Name";
             CharData "ACME"; EndElement "Name"; EndElement "Filer";
             EndElement "Return"] AtEOF.

(** The record of the worked example: the two paths, and the key that the
    character-data case binds besides. *)
Definition worked_record : gmap string (list string) :=
  {[ ".Return.EIN" := ["12-3456789"]; ".Return.Filer.Name" := ["ACME"]; "" := [] ]}.

(** [<a>x</a>] *)
Definition doc_a : Decoder :=
  mkDecoder [StartElement "a"; CharData "x"; EndElement "a"] AtEOF.

(** [<b>y</b>] *)
Definition doc_b : Decoder :=
  mkDecoder [StartElement "b"; CharData "y"; EndElement "b"] AtEOF.

(** [<a>x<b>], cut before any end tag: the decoder reports "unexpected EOF". *)
Definition doc_cut : Decoder :=
  mkDecoder [StartElement "a"; CharData "x"; StartElement "b"] SyntaxError.

(** [<a><b></b> </a>]: the element [b] closes without any text. *)
Definition doc_empty_child : Decoder :=
  mkDecoder [StartElement "a"; StartElement "b"; EndElement "b"; CharData " ";
             EndElement "a"] AtEOF.

(** [<a><b>x<c>w</c></b><b>z</b></a>]: two siblings [b] with text, the
    first of which has a child element. *)
Definition doc_repeated_sibling : Decoder :=
  mkDecoder [StartElement "a"; StartElement "b"; CharData "x"; StartElement "c";
             CharData "w"; EndElement "c"; EndElement "b"; StartElement "b";
             CharData "z"; EndElement "b"; EndElement "a"] AtEOF.

(** [<a><b>x</b><b>z</b></a>]: two siblings [b] that hold text only. *)
Definition doc_leaf_siblings : Decoder :=
  mkDecoder [StartElement "a"; StartElement "b"; CharData "x"; EndElement "b";
             StartElement "b"; CharData "z"; EndElement "b"; EndElement "a"] AtEOF.

(** A root directory with one shard holding [files]. *)
Definition one_shard (dev : list bool) (files : list DirEntry) : FileSystem :=
  mkFS true dev (Some [mkShard "2024_TEOS_XML_01A" (Some files)]).

(** Two shards, holding [<a>x</a>] and [<b>y</b>]. *)
Definition two_shards (dev : list bool) : FileSystem :=
  mkFS true dev
    (Some [mkShard "2024_TEOS_XML_01A" (Some [mkEntry "a.xml" false (Some doc_a)]);
           mkShard "2024_TEOS_XML_02A" (Some [mkEntry "b.xml" false (Some doc_b)])]).

(** * More vocabulary: files passed over, the working writer, the counter *)

(** The files that [generateRows] passes over without reading them:
    directories and files that cannot be opened. *)
Definition passed_over (f : DirEntry) : Prop := IsDir f = true ∨ opened f = None.

(** The log lines for the files of a list that are no directories, when
    none of them can be opened. *)
Definition open_errors (root : string) (files : list DirEntry) : list LogEvent :=
  (λ f, LogOpenError root (Name f)) <$> filter (λ f, IsDir f = false) files.

(** The writer has not failed and its device never will. *)
Definition working (w : CsvWriter) : Prop := failed w = false ∧ device w = [].

(** Two states agree on all but the record. *)
Definition same_shared (s1 s2 : State) : Prop :=
  Writer s1 = Writer s2 ∧ myInt s1 = myInt s2 ∧ logged s1 = logged s2
  ∧ ranges s1 = ranges s2.


(** No row of the list is wider than a row that comes after it. *)
Definition widths_grow (rows : list Row) : Prop :=
  ∀ i j r1 r2, i ≤ j → rows !! i = Some r1 → rows !! j = Some r2 →
               length r1 ≤ length r2.

(** An entry of the root that gives [ParseXMLs] nothing to read: its name
    matches [.zip], or it cannot be listed, or it lists nothing but
    directories and files that cannot be opened. *)
Definition nothing_to_read (zipper : Shard) : Prop :=
  re_Match (shard_name zipper) = true
  ∨ shard_files zipper = None
  ∨ ∃ files, shard_files zipper = Some files ∧ Forall passed_over files.

(** A root with an archive, a file taken for a directory and a shard whose
    only file cannot be opened. *)
Definition idle_root : FileSystem :=
  mkFS true []
    (Some [mkShard "2024_TEOS_XML_01A.zip" None;
           mkShard "README" None;
           mkShard "2024_TEOS_XML_01A"
             (Some [mkEntry "sub" true None; mkEntry "locked.xml" false None])]).

(** * The vocabulary of the runs of [ParseXMLs] *)

(** What is shared, out of the state of a worker. *)
Definition shared_of (s : State) : Shared :=
  mkShared (Writer s) (myInt s) (logged s) (ranges s).

(** A goroutine run to its end while nothing else runs. *)
Fixpoint run_alone {A} (ro : MapRange) (p : Prog A) (sh : Shared) : A * Shared :=
  match p with
  | Ret a => (a, sh)
  | DoRow record k => let '(err, sh) := locked_write ro record sh in run_alone ro (k err) sh
  | DoAdd k => run_alone ro k (Int64_Add sh)
  | DoLoad k => run_alone ro (k (shInt sh)) sh
  | DoLog e k => run_alone ro k (Printf e sh)
  end.

(** ** What a goroutine may still do

    A property of all that a goroutine may still do is stated with a value
    [g] that follows its steps: [wp gh post p g] holds when every step of
    [p] is allowed by [gh] where it is taken, for every answer that [gh]
    takes into account, and [post] holds of the value reached and of the
    result when [p] ends. *)
Record Ghost (G : Type) := mkGhost {
  row_pre : G → gmap string (list string) → Prop;
  row_given : option error → Prop;
  row_next : G → gmap string (list string) → option error → G;
  add_pre : G → Prop;
  add_next : G → G;
  load_pre : G → Prop;
  load_next : G → G;
  log_pre : G → LogEvent → Prop;
  log_next : G → LogEvent → G
}.
Arguments mkGhost {G} _ _ _ _ _ _ _ _ _.
Arguments row_pre {G} _ _ _.
Arguments row_given {G} _ _.
Arguments row_next {G} _ _ _ _.
Arguments add_pre {G} _ _.
Arguments add_next {G} _ _.
Arguments load_pre {G} _ _.
Arguments load_next {G} _ _.
Arguments log_pre {G} _ _ _.
Arguments log_next {G} _ _ _.

Fixpoint wp {A G} (gh : Ghost G) (post : G → A → Prop) (p : Prog A) (g : G) : Prop :=
  match p with
  | Ret a => post g a
  | DoRow record k =>
      row_pre gh g record
      ∧ ∀ err, row_given gh err → wp gh post (k err) (row_next gh g record err)
  | DoAdd k => add_pre gh g ∧ wp gh post k (add_next gh g)
  | DoLoad k => load_pre gh g ∧ ∀ n, wp gh post (k n) (load_next gh g)
  | DoLog e k => log_pre gh g e ∧ wp gh post k (log_next gh g e)
  end.

(** The steps that are left: each step takes one. *)
Definition gh_steps : Ghost nat :=
  mkGhost (λ g _, 0 < g) (λ _, True) (λ g _ _, Nat.pred g)
          (λ g, 0 < g) Nat.pred (λ g, 0 < g) Nat.pred (λ g _, 0 < g) (λ g _, Nat.pred g).

Definition ends_within {A} (p : Prog A) (n : nat) : Prop := wp gh_steps (λ _ _, True) p n.

(** The calls to [myInt.Add] that are due: one after each row written and
    flushed, none otherwise. *)
Definition gh_owes : Ghost nat :=
  mkGhost (λ g _, g = 0) (λ _, True) (λ _ _ err, match err with Some _ => 0 | None => 1 end)
          (λ g, g = 1) (λ _, 0) (λ _, True) id (λ _ _, True) (λ g _, g).

(** The records whose rows a goroutine has still to write, in their order,
    as long as no row fails. *)
Definition gh_due : Ghost (list (gmap string (list string))) :=
  mkGhost (λ g record, head g = Some record) (λ err, err = None) (λ g _ _, tail g)
          (λ _, True) id (λ _, True) id (λ _ _, True) (λ g _, g).



(** Nothing but lines in the log. *)
Definition gh_logs : Ghost unit :=
  mkGhost (λ _ _, False) (λ _, True) (λ g _ _, g)
          (λ _, False) id (λ _, False) id (λ _ _, True) (λ g _, g).

(** A bound on the steps of a run that is under way. *)
Definition conf_steps (c : Conf) (m : nat) : Prop :=
  ∃ gs, Forall2 ends_within (running c) gs
        ∧ entries_steps (todo c) + sum_list gs + length gs ≤ m.

(** The output begins with the header, and nothing waits in the buffer
    unless the writer has failed. *)
Definition header_first (w : CsvWriter) : Prop :=
  (∃ rows, file w = header :: rows) ∧ (failed w = false → buffered w = []).


(** ** The rows of a run whose output does not fail *)

(** The result of a goroutine and the records whose rows it writes, when no
    row fails; each [myInt.Load()] is answered by 0. *)
Fixpoint unfailed {A} (p : Prog A) : A * list (gmap string (list string)) :=
  match p with
  | Ret a => (a, [])
  | DoRow record k => let '(a, records) := unfailed (k None) in (a, record :: records)
  | DoAdd k => unfailed k
  | DoLoad k => unfailed (k 0%Z)
  | DoLog _ k => unfailed k
  end.

(** Neither depends on what [myInt.Load()] answers. *)
Definition steady {A} (p : Prog A) : Prop :=
  ∀ rest, wp gh_due (λ g a, g = rest ∧ a = (unfailed p).1) p ((unfailed p).2 ++ rest).

(** The records of the rows of a run: those of each shard, shard by shard
    in the order of the listing. *)
Fixpoint records_of_entries (entries : list Shard) : list (gmap string (list string)) :=
  match entries with
  | [] => []
  | zipper :: entries =>
      (if re_Match (shard_name zipper) then []
       else match shard_files zipper with
            | None => []
            | Some files =>
                (unfailed (goroutine (GoFilepath.Join pathway (shard_name zipper)) files)).2
            end)
      ++ records_of_entries entries
  end.

(** The row of a record, up to the order of its cells. *)
Definition row_of (row : Row) (record : gmap string (list string)) : Prop :=
  row ≡ₚ cells record.

(** The same rows up to their order and to the order of the cells of each
    row. *)
Definition same_rows (rows1 rows2 : list Row) : Prop :=
  ∃ rows, rows ≡ₚ rows2 ∧ Forall2 (≡ₚ) rows1 rows.

(** The writer has not failed, and its device takes every write and every
    flush to come. *)
Definition unfailing (w : CsvWriter) : Prop :=
  failed w = false ∧ Forall (λ ok, ok = true) (device w).

(** While the output takes every write: the rows written, those the
    goroutines under way have still to write and those of the entries not
    reached yet are, together, the rows of the run. *)
Definition rows_kept (all : list (gmap string (list string))) (c : Conf) : Prop :=
  unfailing (shWriter (shared c)) ∧ buffered (shWriter (shared c)) = []
  ∧ ∃ rows written gs,
      file (shWriter (shared c)) = header :: rows
      ∧ Forall2 row_of rows written
      ∧ Forall2 (λ p g, wp gh_due (λ g' _, g' = []) p g) (running c) gs
      ∧ written ++ concat gs ++ records_of_entries (todo c) ≡ₚ all.

(** ** The counter and the output *)

(** The output begins with the header, [myInt] is a 64-bit value, and it
    has advanced by the rows that follow the header, less those whose
    [myInt.Add(1)] is still to come in the goroutine that wrote them. *)
Definition counter_kept (n0 : Z) (c : Conf) : Prop :=
  header_first (shWriter (shared c))
  ∧ wrap64 (shInt (shared c)) = shInt (shared c)
  ∧ ∃ gs, Forall2 (λ p g, wp gh_owes (λ g' _, g' = 0) p g) (running c) gs
          ∧ wrap64 (shInt (shared c) + Z.of_nat (sum_list gs))
            = wrap64 (n0 + Z.of_nat (length (tail (file (shWriter (shared c)))))).

(** Nothing was written or counted, and nothing will be. *)
Definition nothing_done (w : CsvWriter) (n0 : Z) (c : Conf) : Prop :=
  shWriter (shared c) = w ∧ shInt (shared c) = n0
  ∧ Forall (λ p, wp gh_logs (λ _ _, True) p tt) (running c)
  ∧ Forall nothing_to_read (todo c).

(** ** The calls of [flatten] under way, one level each

    The key that a character-data token registers is the [lastTag] of the
    call that reads the token. To say which name that is, the calls under
    way are written as a stack of levels, innermost first: a start element
    becomes the [lastTag] (and the [element]) of the level that reads it and
    opens a level above it, whose [lastTag] is empty; an end element closes
    the level that reads it when it bears the name of its [element]; a
    character-data token is recorded with the prefix and the [lastTag] of
    the innermost level. Nothing is read once the outermost level has
    closed. These definitions follow that account, not the recursion of
    [flatten]; [flatten] is compared with them. *)
Record Level := mkLevel {
  lv_element : string;
  lv_lastTag : string;
  lv_prefix : string
}.

Definition level_step (t : Token) (levels : list Level)
    (record : gmap string (list string)) : list Level * gmap string (list string) :=
  match levels with
  | [] => ([], record)
  | lv :: below =>
      match t with
      | StartElement local =>
          (mkLevel local "" (lv_prefix lv +:+ "." +:+ local)
             :: mkLevel local local (lv_prefix lv) :: below, record)
      | EndElement local =>
          if bool_decide (local = lv_element lv) then (below, record)
          else (levels, record)
      | CharData text =>
          (levels, record_text (lv_prefix lv) (lv_lastTag lv) text record)
      | OtherToken => (levels, record)
      end
  end.

Fixpoint level_run (ts : list Token) (levels : list Level)
    (record : gmap string (list string)) : list Level * gmap string (list string) :=
  match ts with
  | [] => (levels, record)
  | t :: ts => let '(levels, record) := level_step t levels record in
               level_run ts levels record
  end.

(** The paths of the elements of a document, in the words of the
    specification: one for each start element, made of the names of the
    elements open there. *)
Fixpoint spec_paths (open : list string) (ts : list Token) : list string :=
  match ts with
  | [] => []
  | StartElement local :: ts => spec_path (local :: open) :: spec_paths (local :: open) ts
  | EndElement _ :: ts => spec_paths (tail open) ts
  | _ :: ts => spec_paths open ts
  end.

(** A key bound to an empty sequence in [r] was bound to one in [r0], or is
    a bare name. *)
Definition empty_only_bare (names : list string)
    (r0 r : gmap string (list string)) : Prop :=
  ∀ k, r !! k = Some [] → r0 !! k = Some [] ∨ bare names k.

(** [<b><p:.b/> </b>]: the local name of the child is [.b], which is also
    the path of the root. *)
Definition doc_dotted : Decoder :=
  mkDecoder [StartElement "b"; StartElement ".b"; EndElement ".b"; CharData " ";
             EndElement "b"] AtEOF.

(** ** The log of a shard once the writer has failed *)

(** The line [generateRows] logs for a file when the writer has failed
    before: none for a directory, the error of [os.Open], or the error
    [flatten] returns, which is that of the row for a document read to
    [io.EOF] and that of the decoder otherwise. *)
Definition failure_line (root : string) (f : DirEntry) : list LogEvent :=
  if IsDir f then []
  else match opened f with
       | None => [LogOpenError root (Name f)]
       | Some decoder =>
           [LogParseError root (Name f)
              match ending decoder with
              | AtEOF => ErrWriteRow
              | SyntaxError => ErrXMLParsing
              end]
       end.

Definition failure_log (root : string) (files : list DirEntry) : list LogEvent :=
  files ≫= failure_line root.

(** Every document of the listing has its end elements matched, as
    encoding/xml delivers them. *)
Definition documents_nested (files : list DirEntry) : Prop :=
  Forall (λ f, ∀ decoder, opened f = Some decoder →
                          is_Some (nested [] (pending decoder))) files.

(** ** Schedules used as examples *)

(** The loop of [ParseXMLs] whenever it can take a step, then the
    goroutines one after the other in the order they were started. *)
Definition in_turn : nat → nat := λ _, 0.

(** The loop twice, then the goroutine started second before the first. *)
Definition second_first : nat → nat := λ n, if n <? 2 then 0 else 1.

(** ** The files that cannot be opened *)





(** ** The vocabulary of the properties of the unpacking *)

(** The name of a file or directory: an element of a path that is neither
    empty nor [.] nor [..]. *)
Definition name_elem (elem : string) : Prop :=
  elem ≠ "" ∧ elem ≠ "." ∧ elem ≠ ".." ∧ GoFilepath.has_separator elem = false.

(** The elements of a clean path: some [..], none for a rooted path, and
    then names only. *)
Definition cleaned (is_rooted : bool) (elems : list string) : Prop :=
  ∃ k names, elems = replicate k ".." ++ names ∧ Forall name_elem names
             ∧ (is_rooted = true → k = 0).

(** [path] is [base], a separator and one name or more: it names a file or
    directory below [base], whatever the links of the file system are. *)
Definition inside (base path : string) : Prop :=
  ∃ rel, rel ≠ [] ∧ Forall name_elem rel ∧ path = base +:+ "/" +:+ GoFilepath.join rel.

(** The clean form of [dest] ends in [..]. *)
Definition climbs (dest : string) : Prop :=
  last (GoFilepath.split (GoFilepath.Clean dest)) = Some "..".

(** Where a call to the file system may go when [base] is the directory to
    unpack to: directories are made at or below it, files are opened and
    written below it. *)
Definition call_inside (base : string) (c : FsCall) : Prop :=
  match c with
  | MkdirAll path => path = base ∨ inside base path
  | OpenFile path _ | Copy path _ => inside base path
  | CloseFile _ | CloseEntry _ | CloseZip _ => True
  end.

(** The name of an archive without its extension. *)
Definition stem (name : string) : string := GoStr.TrimSuffix name (GoFilepath.Ext name).

(** An oracle under which every call succeeds, and an empty disk. *)
Definition all_ok : FsOracle := λ _ _, true.

Definition no_calls : Disk := mkDisk [] [].

(** An archive with a file in a directory, a file that points out of the
    archive, and a directory. *)
Definition sample_files : list ZipFile :=
  [mkZipFile "a/b.xml" false 420 (Some ("<a>x</a>", true));
   mkZipFile "../evil" false 420 (Some ("x", true));
   mkZipFile "locked.xml" false 420 None;
   mkZipFile "d/" true 493 (Some ("", true))].

Definition sample_reader : list Archive :=
  [mkArchive "2024_TEOS_XML_01A.zip" (Some sample_files);
   mkArchive "notes.txt" None].

(** * Properties *)

(** Closes [l ⊆ names] when [H] says that a list around [l] is within [names]. *)
Ltac names_subset H :=
  let x := fresh "x" in let Hx := fresh "Hx" in
  intros x Hx; apply H; rewrite ?elem_of_cons, ?elem_of_app; auto.

(** ** Every result of [flatten_loop] is a run *)

Lemma flatten_loop_run ro fuel : ∀ element lastTag d prefix s res,
  flatten_loop ro fuel element lastTag d prefix s = Some res →
  flatten_run ro element lastTag d prefix s res.
Proof.
  induction fuel as [|fuel IH]; intros element lastTag d prefix s res; [done|].
  cbn [flatten_loop]. unfold Decoder_Token.
  destruct (pending d) as [|t ts] eqn:Hp.
  - destruct (ending d) eqn:He.
    + destruct (emit_row ro s) as [err s'] eqn:Hem. intros [= <-].
      replace err with (emit_row ro s).1 by by rewrite Hem.
      replace s' with (emit_row ro s).2 by by rewrite Hem.
      by apply run_eof.
    + intros [= <-]. by apply run_err.
  - destruct t as [local|local|text|].
    + destruct (flatten_loop ro fuel local "" _ _ s) as [[[[err|] d1] s1]|] eqn:Hin;
        [|intros Hrest|done].
      * intros [= <-]. eapply run_start_err; eauto.
      * eapply run_start; eauto.
    + case_bool_decide as Hl.
      * subst local. intros [= <-]. by apply run_end.
      * intros Hrest. eapply run_end_other; eauto.
    + intros Hrest. eapply run_text; eauto.
    + intros Hrest. eapply run_other; eauto.
Qed.

(** ** Enough fuel *)

Lemma flatten_loop_total ro fuel : ∀ element lastTag d prefix s,
  length (pending d) < fuel →
  ∃ err d' s', flatten_loop ro fuel element lastTag d prefix s = Some (err, d', s')
               ∧ length (pending d') ≤ length (pending d).
Proof.
  induction fuel as [|fuel IH]; intros element lastTag d prefix s Hlt; [lia|].
  cbn [flatten_loop]. unfold Decoder_Token.
  destruct (pending d) as [|t ts] eqn:Hp.
  - destruct (ending d); [destruct (emit_row ro s) as [err s']|];
      eexists _, _, _; (split; [done|]); rewrite Hp; done.
  - cbn [length] in Hlt.
    destruct t as [local|local|text|].
    + destruct (IH local "" (mkDecoder ts (ending d)) (prefix +:+ "." +:+ local) s)
        as (err & d1 & s1 & -> & Hle); [simpl; lia|]. simpl in Hle.
      destruct err as [err|].
      * eexists _, _, _. split; [done|]. simpl. lia.
      * destruct (IH local local d1 prefix s1) as (err & d2 & s2 & -> & Hle2); [lia|].
        eexists _, _, _. split; [done|]. simpl. lia.
    + case_bool_decide.
      * eexists _, _, _. split; [done|]. simpl. lia.
      * destruct (IH element lastTag (mkDecoder ts (ending d)) prefix s)
          as (err & d1 & s1 & -> & Hle); [simpl; lia|].
        eexists _, _, _. split; [done|]. simpl in *. lia.
    + destruct (IH element lastTag (mkDecoder ts (ending d)) prefix
                  (set_Rec (record_text prefix lastTag text (Rec s)) s))
        as (err & d1 & s1 & -> & Hle); [simpl; lia|].
      eexists _, _, _. split; [done|]. simpl in *. lia.
    + destruct (IH element lastTag (mkDecoder ts (ending d)) prefix s)
        as (err & d1 & s1 & -> & Hle); [simpl; lia|].
      eexists _, _, _. split; [done|]. simpl in *. lia.
Qed.

(** More fuel does not change a result. *)
Lemma flatten_loop_more_fuel ro fuel : ∀ fuel' element lastTag d prefix s res,
  flatten_loop ro fuel element lastTag d prefix s = Some res → fuel ≤ fuel' →
  flatten_loop ro fuel' element lastTag d prefix s = Some res.
Proof.
  induction fuel as [|fuel IH]; intros fuel' element lastTag d prefix s res; [done|].
  intros Hrun Hle. destruct fuel' as [|fuel']; [lia|].
  revert Hrun. cbn [flatten_loop].
  destruct (Decoder_Token d) as [[[local|local|text|]| |] d0]; try done.
  - destruct (flatten_loop ro fuel local "" _ _ s) as [[[[err|] d1] s1]|] eqn:Hin; [| |done].
    + intros [= <-]. by rewrite (IH fuel' _ _ _ _ _ _ Hin) by lia.
    + intros Hrest. rewrite (IH fuel' _ _ _ _ _ _ Hin) by lia. apply IH; [done|lia].
  - case_bool_decide; [done|]. intros Hrest. apply IH; [done|lia].
  - intros Hrest. apply IH; [done|lia].
  - intros Hrest. apply IH; [done|lia].
Qed.

Lemma flatten_total ro element d prefix s :
  ∃ res, flatten ro (S (length (pending d))) element d prefix s = Some res.
Proof.
  destruct (flatten_loop_total ro (S (length (pending d))) element "" d prefix s)
    as (err & d' & s' & H & _); [lia|]. by eexists.
Qed.

(** ** The record grows, the rows are cells of the record *)

Lemma record_le_refl r : record_le r r.
Proof. intros k vs ?. exists []. by rewrite app_nil_r. Qed.

Lemma record_le_trans r1 r2 r3 : record_le r1 r2 → record_le r2 r3 → record_le r1 r3.
Proof.
  intros H12 H23 k vs Hk.
  destruct (H12 k vs Hk) as [m1 H1]. destruct (H23 k _ H1) as [m2 H2].
  exists (m1 ++ m2). by rewrite app_assoc.
Qed.

Lemma record_text_le prefix lastTag text r :
  record_le r (record_text prefix lastTag text r).
Proof.
  unfold record_text.
  set (r1 := if bool_decide _ then _ else r).
  assert (record_le r r1) as H1.
  { subst r1. case_bool_decide; [|apply record_le_refl].
    intros k vs Hk. destruct (decide (prefix = k)) as [->|Hne].
    - rewrite lookup_insert_eq, Hk. by eexists.
    - rewrite lookup_insert_ne by done. exists []. by rewrite app_nil_r. }
  destruct (r1 !! lastTag) eqn:Hl; [done|].
  eapply record_le_trans; [exact H1|].
  intros k vs Hk. exists []. rewrite app_nil_r.
  rewrite lookup_insert_ne; [done|]. intros ->. congruence.
Qed.

Lemma build_row_cells ro n r : build_row ro n r ≡ₚ cells r.
Proof. unfold build_row, cells. by rewrite (range_order_perm ro). Qed.

Lemma cells_length r : length (cells r) = size r.
Proof. unfold cells. by rewrite length_fmap, length_map_to_list. Qed.

Lemma emit_row_Rec ro s : Rec (emit_row ro s).2 = Rec s.
Proof.
  unfold emit_row, Writer_Write, Writer_Flush, Writer_Error.
  destruct s as [r [f b [] dev] n l k]; simpl; [done|].
  destruct dev as [|[] [|[] dev]]; simpl; try done; by case_bool_decide.
Qed.

(** The row of the [io.EOF] branch is accepted by the writer, or nothing is. *)
Lemma emit_row_accepted ro s :
  ∃ rows, accepted (Writer (emit_row ro s).2) = accepted (Writer s) ++ rows
          ∧ (rows = [] ∨ rows = [build_row ro (ranges s) (Rec s)])
          ∧ ((emit_row ro s).1 = None → rows = [build_row ro (ranges s) (Rec s)]).
Proof.
  unfold emit_row, Writer_Write, Writer_Flush, Writer_Error, accepted.
  destruct s as [r [f b [] dev] n l k]; simpl.
  { exists []. rewrite app_nil_r. naive_solver. }
  destruct dev as [|[] [|[] dev]]; simpl;
    first [ by exists []; rewrite app_nil_r; naive_solver
          | eexists [_]; rewrite ?app_nil_r, ?app_assoc;
            try case_bool_decide; simpl; rewrite ?app_nil_r; naive_solver ].
Qed.

Lemma flatten_run_at_eof ro element lastTag d prefix s res :
  flatten_run ro element lastTag d prefix s res → at_eof d →
  res = ((emit_row ro s).1, d, (emit_row ro s).2).
Proof. intros Hrun [Hp He]. inversion Hrun; subst; congruence. Qed.

Lemma flatten_run_decoder ro element lastTag d prefix s res :
  flatten_run ro element lastTag d prefix s res →
  ending res.1.2 = ending d ∧ pending res.1.2 `suffix_of` pending d.
Proof.
  induction 1; simpl in *; destruct_and?;
    repeat match goal with H : pending _ = _ :: _ |- _ => rewrite H end;
    (split; [congruence|]); try done;
    apply suffix_cons_r; try done; by etrans.
Qed.

Lemma flatten_run_record_le ro element lastTag d prefix s res :
  flatten_run ro element lastTag d prefix s res → record_le (Rec s) (Rec res.2).
Proof.
  induction 1; simpl in *; eauto using record_le_refl, record_le_trans.
  - rewrite emit_row_Rec. apply record_le_refl.
  - eapply record_le_trans; [|eassumption]. apply record_text_le.
Qed.

(** A run touches the writer only once the decoder has reached [io.EOF]. *)
Lemma flatten_run_quiet ro element lastTag d prefix s res :
  flatten_run ro element lastTag d prefix s res →
  untouched s res.2 ∨ at_eof res.1.2.
Proof.
  induction 1 as [| | | ??????????? Hin IHin Hrest IHrest | | | |];
    simpl in *; try done; try (by left); try (by right).
  destruct IHrest as [Hu2|?]; [|by right].
  destruct IHin as [Hu1|Heof].
  - left. destruct Hu1 as (?&?&?&?), Hu2 as (?&?&?&?). repeat split; congruence.
  - right. by rewrite (flatten_run_at_eof _ _ _ _ _ _ _ Hrest Heof).
Qed.

(** The rows a run hands to the writer: each is an enumeration of the cells
    of the record the run ends with. *)
Lemma flatten_run_rows ro element lastTag d prefix s res :
  flatten_run ro element lastTag d prefix s res →
  ∃ rows, accepted (Writer res.2) = accepted (Writer s) ++ rows
          ∧ Forall (λ row, row ≡ₚ cells (Rec res.2)) rows.
Proof.
  induction 1 as [????? Hp He| | | ??????????? Hin IHin Hrest IHrest | | | |];
    simpl in *; try done; try (exists []; by rewrite app_nil_r).
  - destruct (emit_row_accepted ro s) as (rows & -> & [->| ->] & _);
      eexists; (split; [done|]); [done|].
    constructor; [|done]. rewrite emit_row_Rec. apply build_row_cells.
  - destruct IHin as (rows1 & Hacc1 & Hrows1), IHrest as (rows2 & Hacc2 & Hrows2).
    exists (rows1 ++ rows2). split; [by rewrite Hacc2, Hacc1, app_assoc|].
    apply Forall_app. split; [|done].
    destruct (flatten_run_quiet _ _ _ _ _ _ _ Hin) as [(Hw&_)|Heof]; simpl in *.
    + rewrite Hw in Hacc1. rewrite <-(app_nil_r (accepted (Writer s))) in Hacc1 at 1.
      apply app_inv_head in Hacc1. by subst rows1.
    + rewrite (flatten_run_at_eof _ _ _ _ _ _ _ Hrest Heof). simpl.
      by rewrite emit_row_Rec.
Qed.

(** ** [generateRows] always completes, without an error *)

Lemma generateRows_total ro root files : ∀ s,
  ∃ s', generateRows ro root files s = Some (None, s').
Proof.
  induction files as [|f files IH]; intros s; simpl; [by eexists|].
  destruct (IsDir f); [done|]. destruct (opened f) as [decoder|]; [|done].
  destruct (flatten_total ro "" decoder "" s) as [[[[err|] d'] s'] ->]; done.
Qed.

Lemma generateRows_app ro root files1 files2 s :
  generateRows ro root (files1 ++ files2) s =
  match generateRows ro root files1 s with
  | Some (_, s1) => generateRows ro root files2 s1
  | None => None
  end.
Proof.
  revert s. induction files1 as [|f files1 IH]; intros s; simpl; [done|].
  destruct (IsDir f); [done|]. destruct (opened f) as [decoder|]; [|done].
  destruct (flatten ro _ "" decoder "" s) as [[[[err|] d'] s']|]; done.
Qed.

Lemma generateRows_record_le ro root files : ∀ s res,
  generateRows ro root files s = Some res → record_le (Rec s) (Rec res.2).
Proof.
  induction files as [|f files IH]; intros s res; simpl.
  { intros [= <-]. apply record_le_refl. }
  destruct (IsDir f); [by apply IH|].
  destruct (opened f) as [decoder|]; [|by intros ? % IH].
  destruct (flatten ro _ "" decoder "" s) as [[[err d'] s']|] eqn:Hfl; [|done].
  apply flatten_loop_run, flatten_run_record_le in Hfl. simpl in Hfl.
  destruct err; intros ? % IH; by eapply record_le_trans.
Qed.

(** ** The writer's error sticks *)

Lemma emit_row_failed ro s :
  failed (Writer s) = true → failed (Writer (emit_row ro s).2) = true.
Proof.
  unfold emit_row, Writer_Write. destruct s as [r [f b fl dev] n l k]; simpl.
  by intros ->.
Qed.


Lemma flatten_run_failed ro element lastTag d prefix s res :
  flatten_run ro element lastTag d prefix s res →
  failed (Writer s) = true → failed (Writer res.2) = true.
Proof. induction 1; simpl in *; eauto using emit_row_failed. Qed.

Lemma generateRows_failed ro root files : ∀ s res,
  generateRows ro root files s = Some res →
  failed (Writer s) = true → failed (Writer res.2) = true.
Proof.
  induction files as [|f files IH]; intros s res; simpl.
  { by intros [= <-]. }
  destruct (IsDir f); [by apply IH|].
  destruct (opened f) as [decoder|];
    [|intros Hgen Hfail; by apply (IH _ _ Hgen)].
  destruct (flatten ro _ "" decoder "" s) as [[[err d'] s']|] eqn:Hfl; [|done].
  apply flatten_loop_run in Hfl. intros Hgen Hfail.
  apply (flatten_run_failed _ _ _ _ _ _ _ Hfl) in Hfail. simpl in Hfail.
  destruct err; by apply IH in Hgen.
Qed.

(** ** Runs under two orders of map iteration *)

Lemma state_sim_refl s : state_sim s s.
Proof. by repeat split. Qed.

Lemma state_sim_set_Rec r s1 s2 :
  state_sim s1 s2 → state_sim (set_Rec r s1) (set_Rec r s2).
Proof. intros (?&?&?&?). by split. Qed.

Lemma state_sim_log e s1 s2 :
  state_sim s1 s2 → state_sim (log_Printf e s1) (log_Printf e s2).
Proof.
  intros (?&?&?&Hl). split; [done|]. split; [done|]. split; [done|].
  simpl. by rewrite Hl.
Qed.

Lemma writer_sim_accepted w1 w2 :
  writer_sim w1 w2 → Forall2 (≡ₚ) (accepted w1) (accepted w2).
Proof. intros (?&?&_). by apply Forall2_app. Qed.

Lemma Writer_Write_sim row1 row2 w1 w2 :
  row1 ≡ₚ row2 → writer_sim w1 w2 →
  (Writer_Write row1 w1).1 = (Writer_Write row2 w2).1
  ∧ writer_sim (Writer_Write row1 w1).2 (Writer_Write row2 w2).2.
Proof.
  intros Hrow Hw. pose proof Hw as (Hf & Hb & Hfl & Hdev).
  unfold Writer_Write. rewrite Hfl, Hdev.
  destruct (failed w2); [by split|].
  destruct (device w2) as [|[] dev]; simpl; (split; [done|]);
    repeat split; simpl; try done; apply Forall2_app; auto.
Qed.

Lemma Writer_Flush_sim w1 w2 :
  writer_sim w1 w2 → writer_sim (Writer_Flush w1) (Writer_Flush w2).
Proof.
  intros Hw. pose proof Hw as (Hf & Hb & Hfl & Hdev).
  unfold Writer_Flush. rewrite Hfl, Hdev.
  destruct (failed w2); [done|].
  destruct (device w2) as [|[] dev]; simpl;
    repeat split; simpl; try done; apply Forall2_app; auto.
Qed.

Lemma emit_row_sim ro1 ro2 s1 s2 :
  state_sim s1 s2 →
  (emit_row ro1 s1).1 = (emit_row ro2 s2).1
  ∧ state_sim (emit_row ro1 s1).2 (emit_row ro2 s2).2.
Proof.
  intros (Hrec & Hw & Hn & Hl). unfold emit_row. simpl.
  assert (build_row ro1 (ranges s1) (Rec s1) ≡ₚ build_row ro2 (ranges s2) (Rec s2)) as Hrow.
  { by rewrite !build_row_cells, Hrec. }
  destruct (Writer_Write_sim _ _ _ _ Hrow Hw) as [Hok Hw'].
  destruct (Writer_Write _ (Writer s1)) as [ok1 w1], (Writer_Write _ (Writer s2)) as [ok2 w2].
  simpl in *. subst ok2. destruct ok1; simpl; [|by repeat (split; [done|])].
  pose proof (Writer_Flush_sim _ _ Hw') as Hfl.
  unfold Writer_Error. pose proof Hfl as (_&_&Hfailed&_). rewrite Hfailed.
  destruct (failed (Writer_Flush w2)); simpl; [by repeat (split; [done|])|].
  rewrite Hn. case_bool_decide; (split; [done|]); repeat (split; [done|]);
    simpl; by rewrite ?Hl.
Qed.

Lemma flatten_loop_sim ro1 ro2 fuel : ∀ element lastTag d prefix s1 s2,
  state_sim s1 s2 →
  result_sim (flatten_loop ro1 fuel element lastTag d prefix s1)
             (flatten_loop ro2 fuel element lastTag d prefix s2).
Proof.
  induction fuel as [|fuel IH]; intros element lastTag d prefix s1 s2 Hsim; [done|].
  cbn [flatten_loop].
  destruct (Decoder_Token d) as [[[local|local|text|]| |] d0].
  - specialize (IH local "" d0 (prefix +:+ "." +:+ local) s1 s2 Hsim) as Hin.
    destruct (flatten_loop ro1 fuel local "" _ _ s1) as [[[[e1|] d1] s1']|],
             (flatten_loop ro2 fuel local "" _ _ s2) as [[[[e2|] d2] s2']|];
      simpl in Hin; try done; try (by destruct Hin as ([=]&_)).
    destruct Hin as (_ & -> & Hsim'). by apply IH.
  - case_bool_decide; [done|]. by apply IH.
  - apply IH. destruct Hsim as (Hrec&?). rewrite Hrec.
    apply state_sim_set_Rec. by split.
  - by apply IH.
  - destruct (emit_row_sim ro1 ro2 _ _ Hsim) as [He Hs].
    destruct (emit_row ro1 s1), (emit_row ro2 s2). by simpl in *.
  - done.
Qed.

Lemma generateRows_sim ro1 ro2 root files : ∀ s1 s2,
  state_sim s1 s2 →
  match generateRows ro1 root files s1, generateRows ro2 root files s2 with
  | Some (e1, s1'), Some (e2, s2') => e1 = e2 ∧ state_sim s1' s2'
  | None, None => True
  | _, _ => False
  end.
Proof.
  induction files as [|f files IH]; intros s1 s2 Hsim; simpl; [done|].
  destruct (IsDir f); [by apply IH|].
  destruct (opened f) as [decoder|]; [|by apply IH, state_sim_log].
  pose proof (flatten_loop_sim ro1 ro2 (S (length (pending decoder))) "" ""
                decoder "" s1 s2 Hsim) as Hfl.
  unfold flatten.
  destruct (flatten_loop ro1 _ "" "" decoder "" s1) as [[[[e1|] d1] s1']|],
           (flatten_loop ro2 _ "" "" decoder "" s2) as [[[[e2|] d2] s2']|];
    simpl in Hfl; try done; try (by destruct Hfl as ([=]&_)).
  - destruct Hfl as ([= ->] & _ & Hsim'). by apply IH, state_sim_log.
  - destruct Hfl as (_ & _ & Hsim'). by apply IH.
Qed.

(** Whatever the device does, two runs of a worker from the same state that
    differ in the order of [range] hand the same rows to the writer, up to
    the order of the cells of each row, and leave the same record. *)
Lemma generateRows_cells ro1 ro2 root files s :
  ∃ s1 s2, generateRows ro1 root files s = Some (None, s1)
           ∧ generateRows ro2 root files s = Some (None, s2)
           ∧ Rec s1 = Rec s2
           ∧ Forall2 (≡ₚ) (accepted (Writer s1)) (accepted (Writer s2)).
Proof.
  destruct (generateRows_total ro1 root files s) as [s1 H1].
  destruct (generateRows_total ro2 root files s) as [s2 H2].
  pose proof (generateRows_sim ro1 ro2 root files s s (state_sim_refl s)) as Hsim.
  rewrite H1, H2 in Hsim. destruct Hsim as (_ & Hrec & Hw & _).
  exists s1, s2. repeat split; try done. by apply writer_sim_accepted.
Qed.

(** ** Properly nested streams are read to their end *)

Lemma nested_app ts1 : ∀ open ts2,
  nested open (ts1 ++ ts2) =
  match nested open ts1 with Some open' => nested open' ts2 | None => None end.
Proof.
  induction ts1 as [|[local|local|text|] ts1 IH]; intros open ts2; simpl; try done.
  destruct open as [|top open]; [done|]. by case_bool_decide.
Qed.

(** A frame that returns nil before the end of the stream has closed at
    least one of the elements that were open when it started reading. *)
Lemma flatten_run_closes ro element lastTag d prefix s res :
  flatten_run ro element lastTag d prefix s res →
  ∀ open, is_Some (nested open (pending d)) → res.1.1 = None →
  at_eof res.1.2
  ∨ ∃ consumed open', pending d = consumed ++ pending res.1.2
                      ∧ nested open consumed = Some open'
                      ∧ length open' < length open.
Proof.
  induction 1 as [????? Hp He|
                  |?????????? Hp Hin IHin
                  |?????????? Hp Hin IHin Hrest IHrest
                  |???????? Hp Hrest IHrest
                  |?????? Hp
                  |???????? Hp Hne Hrest IHrest
                  |??????? Hp Hrest IHrest];
    simpl in *; intros open Hnest Hnil; try done.
  - by left.
  - rewrite Hp in Hnest. simpl in Hnest.
    destruct (IHin (local :: open) Hnest eq_refl)
      as [Heof|(c1 & o1 & Hc1 & Hn1 & Hl1)].
    { left. by rewrite (flatten_run_at_eof _ _ _ _ _ _ _ Hrest Heof). }
    rewrite Hc1, nested_app, Hn1 in Hnest.
    destruct (IHrest o1 Hnest Hnil) as [Heof|(c2 & o2 & Hc2 & Hn2 & Hl2)]; [by left|].
    right. exists (StartElement local :: c1 ++ c2), o2.
    rewrite Hp, Hc1, Hc2. split; [simpl; by rewrite <-app_assoc|].
    split; [|simpl in Hl1; lia]. simpl. by rewrite nested_app, Hn1.
  - rewrite Hp in Hnest. simpl in Hnest.
    destruct (IHrest open Hnest Hnil) as [Heof|(c & o & Hc & Hn & Hl)]; [by left|].
    right. exists (CharData text :: c), o. rewrite Hp, Hc. by repeat split.
  - rewrite Hp in Hnest. simpl in Hnest.
    destruct open as [|top open]; [by destruct Hnest|].
    case_bool_decide; [subst top|by destruct Hnest].
    right. exists [EndElement element], open. rewrite Hp. simpl.
    rewrite bool_decide_true by done. repeat split; lia.
  - rewrite Hp in Hnest. simpl in Hnest.
    destruct open as [|top open]; [by destruct Hnest|].
    case_bool_decide; [subst top|by destruct Hnest].
    destruct (IHrest open Hnest Hnil) as [Heof|(c & o & Hc & Hn & Hl)]; [by left|].
    right. exists (EndElement local :: c), o. rewrite Hp, Hc. simpl.
    rewrite bool_decide_true by done. repeat split; [done|lia].
  - rewrite Hp in Hnest. simpl in Hnest.
    destruct (IHrest open Hnest Hnil) as [Heof|(c & o & Hc & Hn & Hl)]; [by left|].
    right. exists (OtherToken :: c), o. rewrite Hp, Hc. by repeat split.
Qed.

(** An error is returned only when the stream has been read to its end. *)
Lemma flatten_run_error_at_end ro element lastTag d prefix s res :
  flatten_run ro element lastTag d prefix s res →
  is_Some res.1.1 → pending res.1.2 = [].
Proof. induction 1; simpl in *; auto. by intros [? [=]]. Qed.

(** The outermost call reads a properly nested stream to its end. *)
Lemma flatten_run_reads_all ro element lastTag d prefix s res :
  flatten_run ro element lastTag d prefix s res →
  is_Some (nested [] (pending d)) →
  pending res.1.2 = [] ∧ (res.1.1 = None → ending d = AtEOF).
Proof.
  intros Hrun Hnest. destruct (res.1.1) as [err|] eqn:Herr.
  { split; [|done]. eapply flatten_run_error_at_end; [done|]. by rewrite Herr. }
  destruct (flatten_run_closes _ _ _ _ _ _ _ Hrun [] Hnest Herr)
    as [[Hp He]|(?&?&?&?&Hl)]; [|simpl in Hl; lia].
  split; [done|]. intros _. by rewrite <-(proj1 (flatten_run_decoder _ _ _ _ _ _ _ Hrun)).
Qed.

(** On a stream that ends with a syntax error no row is built and the only
    error is the XML one. *)
Lemma flatten_run_syntax_error ro element lastTag d prefix s res :
  flatten_run ro element lastTag d prefix s res → ending d = SyntaxError →
  untouched s res.2 ∧ (res.1.1 = None ∨ res.1.1 = Some ErrXMLParsing).
Proof.
  intros Hrun He. split.
  - destruct (flatten_run_quiet _ _ _ _ _ _ _ Hrun) as [|[_ He']]; [done|].
    rewrite (proj1 (flatten_run_decoder _ _ _ _ _ _ _ Hrun)) in He'. congruence.
  - induction Hrun as [| | |?????????? Hp Hin IHin Hrest IHrest| | | |];
      simpl in *; auto; try congruence.
    apply IHrest.
    pose proof (flatten_run_decoder _ _ _ _ _ _ _ Hin) as [He1 _].
    simpl in He1. congruence.
Qed.

(** ** The cells *)

Lemma append_empty_r (a : string) : a +:+ "" = a.
Proof.
  induction a as [|c a IH]; [done|].
  change (String c (a +:+ "") = String c a). by rewrite IH.
Qed.

Lemma append_assoc (a b c : string) : (a +:+ b) +:+ c = a +:+ (b +:+ c).
Proof.
  induction a as [|x a IH]; [done|].
  change (String x ((a +:+ b) +:+ c) = String x (a +:+ (b +:+ c))). by rewrite IH.
Qed.

Lemma Builder_String_from (data : list string) : ∀ built,
  foldl (λ built b, built +:+ b) built data = built +:+ foldr String.append "" data.
Proof.
  induction data as [|b data IH]; intros built; simpl.
  - by rewrite append_empty_r.
  - by rewrite IH, append_assoc.
Qed.

(** [TrimSpace] on ASCII white space, on a no-break space (C2 A0) and on a
    text that keeps its inner and nearby bytes. *)
Example TrimSpace_examples :
  GoStrings.TrimSpace "  a b
 " = "a b"
  ∧ GoStrings.TrimSpace (String (ascii_of_nat 194) (String (ascii_of_nat 160) "x y")) = "x y"
  ∧ GoStrings.TrimSpace " bx" = "bx"
  ∧ GoStrings.TrimSpace "
  " = "".
Proof. by vm_compute. Qed.

(** The two values [AB], [C] and the single value [ABC] give the same cell. *)
Example cell_join_ambiguous : cell ["AB"; "C"] = cell ["ABC"].
Proof. reflexivity. Qed.

(** ** The key [lastTag] of the character-data case *)

(** After a character-data token the key [lastTag] is bound; if it was not
    bound before and the text was not appended under that same key, it is
    bound to the empty slice. *)
Lemma record_text_lastTag prefix lastTag text r :
  is_Some (record_text prefix lastTag text r !! lastTag)
  ∧ (r !! lastTag = None → lastTag ≠ prefix ∨ GoStrings.TrimSpace text = "" →
     record_text prefix lastTag text r !! lastTag = Some []).
Proof.
  unfold record_text.
  set (r1 := if bool_decide _ then _ else r).
  split.
  - destruct (r1 !! lastTag) eqn:Hl; [by rewrite Hl|]. by rewrite lookup_insert_eq.
  - intros Hnone Hcase.
    assert (r1 !! lastTag = None) as ->; [|by rewrite lookup_insert_eq].
    subst r1. case_bool_decide as Hval; [|done].
    destruct Hcase as [Hne|Hempty]; [|done]. by rewrite lookup_insert_ne.
Qed.

(** What does hold for repeated texts: a text read under a prefix is added
    after the values the prefix has, and no later step removes or reorders
    what a key is bound to. *)
Lemma record_text_appends prefix lastTag text r :
  GoStrings.TrimSpace text ≠ "" →
  record_text prefix lastTag text r !! prefix
  = Some (default [] (r !! prefix) ++ [GoStrings.TrimSpace text]).
Proof.
  intros Hval. unfold record_text. rewrite bool_decide_true by done.
  set (r1 := <[prefix := _]> r).
  assert (r1 !! prefix = Some (default [] (r !! prefix) ++ [GoStrings.TrimSpace text]))
    as H1 by apply lookup_insert_eq.
  destruct (r1 !! lastTag) eqn:Hl; [done|].
  rewrite lookup_insert_ne; [done|]. intros ->. congruence.
Qed.

Lemma start_names_app ts1 ts2 :
  start_names (ts1 ++ ts2) = start_names ts1 ++ start_names ts2.
Proof. apply omap_app. Qed.

Lemma flatten_run_bare_key ro element lastTag d prefix s res :
  flatten_run ro element lastTag d prefix s res →
  ∃ consumed, pending d = consumed ++ pending res.1.2
    ∧ ∀ names, bare names lastTag → start_names consumed ⊆ names →
        (∃ text, CharData text ∈ consumed) ∨ (∃ k, bare names k ∧ is_Some (Rec s !! k)) →
        ∃ k, bare names k ∧ is_Some (Rec res.2 !! k).
Proof.
  induction 1 as [????? Hp He| ????? Hp He
                  |?????????? Hp Hin IHin
                  |?????????? Hp Hin IHin Hrest IHrest
                  |???????? Hp Hrest IHrest
                  |?????? Hp
                  |???????? Hp Hne Hrest IHrest
                  |??????? Hp Hrest IHrest]; simpl in *.
  - exists []. split; [done|].
    intros names _ _ [[? Hmem]|Hk]; [by apply elem_of_nil in Hmem|].
    by rewrite emit_row_Rec.
  - exists []. split; [done|]. by intros names _ _ [[? Hmem%elem_of_nil]|Hk].
  - destruct IHin as (c1 & Hc1 & IH1). exists (StartElement local :: c1).
    rewrite Hp, Hc1. split; [done|]. intros names _ Hnames Hcase.
    simpl in Hnames. apply IH1; [by left|by names_subset Hnames|].
    destruct Hcase as [[text Hmem]|?]; [left|by right].
    exists text. by apply elem_of_cons in Hmem as [[=]|].
  - destruct IHin as (c1 & Hc1 & IH1), IHrest as (c2 & Hc2 & IH2).
    exists (StartElement local :: c1 ++ c2).
    rewrite Hp, Hc1, Hc2. split; [simpl; by rewrite <-app_assoc|].
    intros names _ Hnames Hcase. simpl in Hnames. rewrite start_names_app in Hnames.
    apply IH2; [right; apply Hnames; by left|by names_subset Hnames|].
    destruct Hcase as [[text Hmem]|Hk].
    + apply elem_of_cons in Hmem as [[=]|Hmem]. apply elem_of_app in Hmem as [Hmem|Hmem].
      * right. apply IH1; [by left|by names_subset Hnames|]. left. by exists text.
      * left. by exists text.
    + right. apply IH1; [by left|by names_subset Hnames|by right].
  - destruct IHrest as (c & Hc & IH). exists (CharData text :: c).
    rewrite Hp, Hc. split; [done|]. intros names Hlast Hnames _.
    apply IH; [done|done|]. right. exists lastTag. split; [done|].
    apply record_text_lastTag.
  - exists [EndElement element]. rewrite Hp. split; [done|].
    intros names _ _ [[text Hmem]|Hk]; [|done].
    by apply elem_of_cons in Hmem as [[=]|Hmem%elem_of_nil].
  - destruct IHrest as (c & Hc & IH). exists (EndElement local :: c).
    rewrite Hp, Hc. split; [done|]. intros names Hlast Hnames Hcase.
    apply IH; [done|done|]. destruct Hcase as [[text Hmem]|?]; [left|by right].
    exists text. by apply elem_of_cons in Hmem as [[=]|].
  - destruct IHrest as (c & Hc & IH). exists (OtherToken :: c).
    rewrite Hp, Hc. split; [done|]. intros names Hlast Hnames Hcase.
    apply IH; [done|done|]. destruct Hcase as [[text Hmem]|?]; [left|by right].
    exists text. by apply elem_of_cons in Hmem as [[=]|].
Qed.

Lemma elem_of_start_names local ts :
  local ∈ start_names ts ↔ StartElement local ∈ ts.
Proof.
  unfold start_names. rewrite list_elem_of_omap. split.
  - intros ([]&?&[=]). by subst.
  - intros ?. by exists (StartElement local).
Qed.

(** Repeated siblings that hold text only: both values are kept, in order,
    as the specification has it. *)
Example leaf_siblings_kept_in_order :
  spec_values (pending doc_leaf_siblings) ".a.b" = ["x"; "z"]
  ∧ ∃ res, flatten range_sorted 9 "" doc_leaf_siblings "" (empty_state []) = Some res
           ∧ Rec res.2 !! ".a.b" = Some ["x"; "z"].
Proof.
  split; [by vm_compute|].
  eexists. split; [vm_compute; reflexivity|]. by vm_compute.
Qed.

(** ** Paths are bound by texts only *)

Lemma record_text_paths_nonempty prefix lastTag text r :
  String.prefix "." lastTag = false → paths_nonempty r →
  paths_nonempty (record_text prefix lastTag text r).
Proof.
  intros Hlast Hr. unfold record_text.
  set (r1 := if bool_decide _ then _ else r).
  assert (paths_nonempty r1) as H1.
  { subst r1. case_bool_decide; [|done]. intros k vs Hk Hdot.
    destruct (decide (prefix = k)) as [->|Hne].
    - rewrite lookup_insert_eq in Hk. injection Hk as <-.
      by intros [_ [=]]%app_eq_nil.
    - rewrite lookup_insert_ne in Hk by done. by eapply Hr. }
  destruct (r1 !! lastTag) eqn:Hl; [done|].
  intros k vs Hk Hdot. destruct (decide (lastTag = k)) as [->|Hne]; [congruence|].
  rewrite lookup_insert_ne in Hk by done. by eapply H1.
Qed.

Lemma flatten_run_paths_nonempty ro element lastTag d prefix s res :
  flatten_run ro element lastTag d prefix s res →
  String.prefix "." lastTag = false →
  (∀ local, StartElement local ∈ pending d → String.prefix "." local = false) →
  paths_nonempty (Rec s) → paths_nonempty (Rec res.2).
Proof.
  induction 1 as [????? Hp He| ????? Hp He
                  |?????????? Hp Hin IHin
                  |?????????? Hp Hin IHin Hrest IHrest
                  |???????? Hp Hrest IHrest
                  |?????? Hp
                  |???????? Hp Hne Hrest IHrest
                  |??????? Hp Hrest IHrest];
    simpl in *; intros Hlast Hnames Hinv; try done.
  - by rewrite emit_row_Rec.
  - apply IHin; [done| |done]. intros l Hl. apply Hnames. rewrite Hp. by right.
  - pose proof (flatten_run_decoder _ _ _ _ _ _ _ Hin) as [_ [c Hc]]. simpl in Hc.
    apply IHrest.
    + apply Hnames. rewrite Hp. by left.
    + intros l Hl. apply Hnames. rewrite Hp, Hc. right. apply elem_of_app. by right.
    + apply IHin; [done| |done]. intros l Hl. apply Hnames. rewrite Hp. by right.
  - apply IHrest; [done| |by apply record_text_paths_nonempty].
    intros l Hl. apply Hnames. rewrite Hp. by right.
  - apply IHrest; [done| |done]. intros l Hl. apply Hnames. rewrite Hp. by right.
  - apply IHrest; [done| |done]. intros l Hl. apply Hnames. rewrite Hp. by right.
Qed.

(** ** The worked example *)

Lemma worked_example_sorted :
  flatten_loop range_sorted 11 "" "" worked_example "" (empty_state [])
  = Some (None, mkDecoder [] AtEOF,
          mkState worked_record
            (mkWriter (replicate 3 ["12-3456789"; "ACME"; ""]) [] false []) 3 [] 3).
Proof. vm_compute. reflexivity. Qed.

Lemma worked_record_paths k :
  is_Some (worked_record !! k) → String.prefix "." k = true →
  k = ".Return.EIN" ∨ k = ".Return.Filer.Name".
Proof.
  intros [v Hk] Hdot. apply elem_of_map_to_list in Hk.
  assert (map_to_list worked_record
          = [(".Return.EIN", ["12-3456789"]); (".Return.Filer.Name", ["ACME"]); ("", [])])
    as E by (vm_compute; reflexivity).
  rewrite E, !elem_of_cons, elem_of_nil in Hk.
  destruct Hk as [[= -> _]|[[= -> _]|[[= -> _]|[]]]];
    [by left|by right|discriminate Hdot].
Qed.

(** * Properties of the goroutines *)

(** ** The steps of a goroutine run alone are those of the worker *)

Lemma bind_eq {A B} (f : A → Prog B) (p : Prog A) : (x ← p; f x) = bind f p.
Proof. done. Qed.

Lemma run_alone_bind {A B} ro (f : A → Prog B) (p : Prog A) : ∀ sh,
  run_alone ro (bind f p) sh = run_alone ro (f (run_alone ro p sh).1) (run_alone ro p sh).2.
Proof.
  induction p as [a|record k IH|k IH|k IH|e k IH]; intros sh; simpl; try done.
  destruct (locked_write ro record sh) as [err sh']. apply IH.
Qed.

Lemma run_alone_emit_row ro s :
  run_alone ro (emit_row_prog (Rec s)) (shared_of s)
  = ((emit_row ro s).1, shared_of (emit_row ro s).2).
Proof.
  unfold emit_row, emit_row_prog, locked_write, Writer_Write, Writer_Flush, Writer_Error.
  destruct s as [r [f b fl dev] n l k]; simpl. destruct fl; simpl; [done|].
  destruct dev as [|[] [|[] dev]]; simpl; try done.
  all: unfold Int64_Add, Printf; simpl; by case_bool_decide.
Qed.

Lemma run_alone_flatten ro fuel : ∀ element lastTag d prefix s err d' s',
  flatten_loop ro fuel element lastTag d prefix s = Some (err, d', s') →
  run_alone ro (flatten_loop_prog fuel element lastTag d prefix (Rec s)) (shared_of s)
  = (Some (err, d', Rec s'), shared_of s').
Proof.
  induction fuel as [|fuel IH]; intros element lastTag d prefix s err d' s'; [done|].
  cbn [flatten_loop flatten_loop_prog].
  destruct (Decoder_Token d) as [[[local|local|text|]| |] d1].
  - rewrite bind_eq, run_alone_bind.
    destruct (flatten_loop ro fuel local "" d1 _ s) as [[[[err1|] d2] s2]|] eqn:Hin; [| |done].
    + intros [= <- <- <-]. by rewrite (IH _ _ _ _ _ _ _ _ Hin).
    + intros Hrest. rewrite (IH _ _ _ _ _ _ _ _ Hin). simpl. by apply IH.
  - case_bool_decide; [by intros [= <- <- <-]|apply IH].
  - intros Hrest. apply (IH _ _ _ _ _ _ _ _ Hrest).
  - apply IH.
  - rewrite bind_eq, run_alone_bind, run_alone_emit_row. simpl.
    destruct (emit_row ro s) as [err1 s1] eqn:Hemit. intros [= <- <- <-].
    simpl. f_equal. f_equal. f_equal.
    pose proof (emit_row_Rec ro s) as Hrec. by rewrite Hemit in Hrec.
  - by intros [= <- <- <-].
Qed.

Lemma run_alone_generateRows ro root files : ∀ s err s',
  generateRows ro root files s = Some (err, s') →
  run_alone ro (generateRows_prog root files (Rec s)) (shared_of s)
  = (Some (err, Rec s'), shared_of s').
Proof.
  induction files as [|f files IH]; intros s err s'; simpl.
  { by intros [= <- <-]. }
  destruct (IsDir f); [apply IH|].
  destruct (opened f) as [decoder|]; [|intros Hgen; exact (IH _ _ _ Hgen)].
  rewrite bind_eq, run_alone_bind. unfold flatten, flatten_prog.
  destruct (flatten_loop ro _ "" "" decoder "" s) as [[[[err1|] d1] s1]|] eqn:Hfl; [| |done].
  - rewrite (run_alone_flatten _ _ _ _ _ _ _ _ _ _ Hfl). simpl.
    intros Hgen. exact (IH _ _ _ Hgen).
  - rewrite (run_alone_flatten _ _ _ _ _ _ _ _ _ _ Hfl). simpl. apply IH.
Qed.

(** ** What a goroutine may still do *)

Lemma wp_mono {A G} (gh : Ghost G) (post post' : G → A → Prop) (p : Prog A) : ∀ g,
  (∀ g a, post g a → post' g a) → wp gh post p g → wp gh post' p g.
Proof.
  induction p as [a|record k IH|k IH|k IH|e k IH]; intros g Hpost; simpl.
  - apply Hpost.
  - intros [Hpre Hk]. split; [done|]. intros err Herr. by apply IH, Hk.
  - intros [Hpre Hk]. split; [done|]. by apply IH.
  - intros [Hpre Hk]. split; [done|]. intros n. by apply IH.
  - intros [Hpre Hk]. split; [done|]. by apply IH.
Qed.

Lemma wp_bind {A B G} (gh : Ghost G) (post : G → B → Prop) (f : A → Prog B)
    (p : Prog A) : ∀ g,
  wp gh (λ g a, wp gh post (f a) g) p g → wp gh post (bind f p) g.
Proof.
  induction p as [a|record k IH|k IH|k IH|e k IH]; intros g; simpl; [done|..].
  - intros [Hpre Hk]. split; [done|]. intros err Herr. by apply IH, Hk.
  - intros [Hpre Hk]. split; [done|]. by apply IH.
  - intros [Hpre Hk]. split; [done|]. intros n. by apply IH.
  - intros [Hpre Hk]. split; [done|]. by apply IH.
Qed.

(** ** Every run of [ParseXMLs] ends *)

Lemma steps_emit_row (post : nat → option error → Prop) record g :
  5 ≤ g → (∀ g' err, g ≤ g' + 5 → post g' err) →
  wp gh_steps post (emit_row_prog record) g.
Proof.
  intros Hg Hpost. simpl. split; [lia|]. intros [err|] _; simpl.
  { apply Hpost. lia. }
  split; [lia|]. split; [lia|]. intros n. case_bool_decide; simpl.
  - split; [lia|]. intros n'. split; [lia|]. apply Hpost. lia.
  - apply Hpost. lia.
Qed.

Lemma steps_flatten fuel : ∀ element lastTag d prefix record budget,
  5 * S (length (pending d)) ≤ budget →
  wp gh_steps
     (λ g res, match res with
               | Some (_, d', _) =>
                   budget + 5 * length (pending d') ≤ g + 5 * S (length (pending d))
               | None => budget ≤ g + 5 * S (length (pending d))
               end)
     (flatten_loop_prog fuel element lastTag d prefix record) budget.
Proof.
  induction fuel as [|fuel IH]; intros element lastTag d prefix record budget Hb;
    [simpl; lia|].
  cbn [flatten_loop_prog]. unfold Decoder_Token.
  destruct (pending d) as [|t ts] eqn:Hp.
  - destruct (ending d); [|simpl; rewrite Hp; simpl; lia].
    rewrite bind_eq. apply wp_bind. apply steps_emit_row; [simpl in Hb; lia|].
    intros g' err Hg'. simpl. rewrite Hp. simpl. lia.
  - simpl in Hb. destruct t as [local|local|text|].
    + rewrite bind_eq. apply wp_bind.
      eapply wp_mono; [|apply (IH local "" (mkDecoder ts (ending d)) _ record budget);
                        simpl; lia].
      intros g [[[[err|] d1] r1]|]; simpl; [lia| |lia].
      intros Hg. eapply wp_mono; [|apply (IH local local d1 prefix r1 g); lia].
      intros g2 [[[err2 d2] r2]|]; simpl; lia.
    + case_bool_decide; [simpl; lia|].
      eapply wp_mono; [|apply (IH element lastTag (mkDecoder ts (ending d)) prefix record
                                 budget); simpl; lia].
      intros g [[[err2 d2] r2]|]; simpl; lia.
    + eapply wp_mono; [|apply (IH element lastTag (mkDecoder ts (ending d)) prefix
                                 (record_text prefix lastTag text record) budget);
                        simpl; lia].
      intros g [[[err2 d2] r2]|]; simpl; lia.
    + eapply wp_mono; [|apply (IH element lastTag (mkDecoder ts (ending d)) prefix record
                                 budget); simpl; lia].
      intros g [[[err2 d2] r2]|]; simpl; lia.
Qed.

Lemma steps_generateRows root files : ∀ record budget,
  files_steps files ≤ budget →
  wp gh_steps (λ g _, budget ≤ g + files_steps files)
     (generateRows_prog root files record) budget.
Proof.
  induction files as [|f files IH]; intros record budget Hb; simpl in *; [lia|].
  destruct (IsDir f).
  { eapply wp_mono; [|apply (IH record budget); lia]. simpl. intros; lia. }
  destruct (opened f) as [decoder|].
  2:{ simpl. split; [lia|].
      eapply wp_mono; [|apply (IH record (Nat.pred budget)); lia]. simpl. intros; lia. }
  unfold document_steps, flatten_prog in *. rewrite bind_eq. apply wp_bind.
  eapply wp_mono; [|apply (steps_flatten _ "" "" decoder "" record budget); lia].
  intros g [[[[err|] d1] r1]|]; simpl; [| |lia].
  - intros Hg. split; [lia|].
    eapply wp_mono; [|apply (IH r1 (Nat.pred g)); lia]. simpl. intros; lia.
  - intros Hg. eapply wp_mono; [|apply (IH r1 g); lia]. simpl. intros; lia.
Qed.

Lemma steps_goroutine path files : ends_within (goroutine path files) (files_steps files + 1).
Proof.
  unfold ends_within, goroutine. rewrite bind_eq. apply wp_bind.
  eapply wp_mono; [|apply (steps_generateRows path files ∅ (files_steps files + 1)); lia].
  intros g [[[err|] r]|] Hg; simpl; try done. lia.
Qed.

Lemma sum_list_insert (l : list nat) i x y :
  l !! i = Some x → sum_list (<[i := y]> l) + x = sum_list l + y.
Proof.
  revert i. induction l as [|z l IH]; intros [|i]; simpl; try done.
  - intros [= ->]. lia.
  - intros Hi. specialize (IH i Hi). lia.
Qed.

Lemma sum_list_delete (l : list nat) i x :
  l !! i = Some x → sum_list (delete i l) + x = sum_list l.
Proof.
  revert i. induction l as [|z l IH]; intros [|i]; simpl; try done.
  - intros [= ->]. lia.
  - intros Hi. specialize (IH i Hi). lia.
Qed.

Lemma ends_within_step {A} ro (p : Prog A) sh g :
  ends_within p g →
  match p with
  | Ret _ => True
  | _ => 0 < g ∧ ends_within (prog_step ro p sh).1 (Nat.pred g)
  end.
Proof.
  unfold ends_within. destruct p as [a|record k|k|k|e k]; simpl; try done.
  - intros [Hg Hk]. split; [done|]. destruct (locked_write ro record sh) as [err sh'].
    by apply Hk.
  - intros [Hg Hk]. split; [done|]. apply Hk.
Qed.

Lemma goroutine_step_conf_steps ro i c m :
  i < length (running c) → conf_steps c m →
  ∃ m', m = S m' ∧ conf_steps (goroutine_step ro i c) m'.
Proof.
  intros Hi (gs & Hall & Hm). unfold goroutine_step.
  destruct (lookup_lt_is_Some_2 _ _ Hi) as [p Hp]. rewrite Hp.
  destruct (Forall2_lookup_l _ _ _ _ _ Hall Hp) as (g & Hg & Hends).
  pose proof (Forall2_length _ _ _ Hall) as Hlen.
  pose proof (ends_within_step ro p (shared c) g Hends) as Hstep.
  assert (0 < length gs) as Hpos by lia.
  destruct p as [a|record k|k|k|e k].
  - exists (Nat.pred m). split; [lia|]. exists (delete i gs). simpl.
    split; [by apply Forall2_delete|].
    pose proof (sum_list_delete _ _ _ Hg). rewrite length_delete by by eexists. lia.
  - destruct Hstep as [Hpos' Hnext]. simpl in *.
    destruct (locked_write ro record (shared c)) as [err sh'].
    exists (Nat.pred m). split; [lia|]. exists (<[i := Nat.pred g]> gs). simpl.
    split; [by apply Forall2_insert|].
    pose proof (sum_list_insert _ _ _ (Nat.pred g) Hg). rewrite length_insert. lia.
  - destruct Hstep as [Hpos' Hnext]. simpl in *.
    exists (Nat.pred m). split; [lia|]. exists (<[i := Nat.pred g]> gs). simpl.
    split; [by apply Forall2_insert|].
    pose proof (sum_list_insert _ _ _ (Nat.pred g) Hg). rewrite length_insert. lia.
  - destruct Hstep as [Hpos' Hnext]. simpl in *.
    exists (Nat.pred m). split; [lia|]. exists (<[i := Nat.pred g]> gs). simpl.
    split; [by apply Forall2_insert|].
    pose proof (sum_list_insert _ _ _ (Nat.pred g) Hg). rewrite length_insert. lia.
  - destruct Hstep as [Hpos' Hnext]. simpl in *.
    exists (Nat.pred m). split; [lia|]. exists (<[i := Nat.pred g]> gs). simpl.
    split; [by apply Forall2_insert|].
    pose proof (sum_list_insert _ _ _ (Nat.pred g) Hg). rewrite length_insert. lia.
Qed.

Lemma main_step_conf_steps c m :
  todo c ≠ [] → conf_steps c m → ∃ m', m = S m' ∧ conf_steps (main_step c) m'.
Proof.
  intros Htodo (gs & Hall & Hm). unfold main_step.
  destruct (todo c) as [|zipper rest] eqn:Ht; [done|]. simpl in Hm.
  exists (Nat.pred m). split; [lia|].
  destruct (re_Match (shard_name zipper)).
  { exists gs. simpl. split; [done|]. lia. }
  destruct (shard_files zipper) as [files|].
  - exists (gs ++ [files_steps files + 1]). simpl. split.
    + apply Forall2_app; [done|]. apply Forall2_cons. split; [|done].
      apply steps_goroutine.
    + rewrite sum_list_with_app, length_app. simpl. lia.
  - exists gs. simpl. split; [done|]. lia.
Qed.

(** As long as the run is not over, someone can take a step, and the step
    taken brings the end nearer. *)
Lemma step_conf_steps ro choice c m :
  todo c ≠ [] ∨ running c ≠ [] → conf_steps c m →
  ∃ m', m = S m' ∧ conf_steps (step ro choice c) m'.
Proof.
  intros Hnot Hm. unfold step. destruct (main_enabled c) eqn:Hen.
  - destruct (choice mod S (length (running c))) as [|i] eqn:Hmod.
    + apply main_step_conf_steps; [|done]. unfold main_enabled in Hen.
      by destruct (todo c).
    + apply goroutine_step_conf_steps; [|done].
      pose proof (Nat.mod_upper_bound choice (S (length (running c)))). lia.
  - apply goroutine_step_conf_steps; [|done].
    apply Nat.mod_upper_bound. intros Hlen. unfold main_enabled in Hen.
    destruct (running c); [|done].
    destruct Hnot as [Htodo|]; [|done]. destruct (todo c) as [|zipper rest]; [done|].
    simpl in Hen. by rewrite !orb_true_r in Hen.
Qed.

Lemma run_threads_total ro pick fuel : ∀ n c m,
  conf_steps c m → m ≤ fuel → ∃ sh, run_threads ro pick fuel n c = Some sh.
Proof.
  induction fuel as [|fuel IH]; intros n c m Hm Hfuel.
  - assert (todo c = [] ∧ running c = []) as [Ht Hr].
    { destruct (todo c) eqn:Ht, (running c) eqn:Hr; [done|..].
      all: destruct (step_conf_steps ro 0 c m) as (m' & -> & _);
        [rewrite ?Ht, ?Hr; auto|done|lia]. }
    simpl. rewrite Ht, Hr. by eexists.
  - simpl. destruct (todo c) eqn:Ht, (running c) eqn:Hr; [by eexists|..].
    all: destruct (step_conf_steps ro (pick n) c m) as (m' & -> & Hm');
      [rewrite ?Ht, ?Hr; auto|done|].
    all: apply (IH _ _ m'); [done|lia].
Qed.

Lemma conf_steps_start reader sh : conf_steps (mkConf reader [] sh) (entries_steps reader).
Proof. exists []. simpl. split; [done|lia]. Qed.

(** What holds before the run and is kept by every step holds when
    [wg.Wait()] returns. *)
Lemma run_threads_inv ro pick (I : Conf → Prop) :
  (∀ c, I c → I (main_step c)) → (∀ i c, I c → I (goroutine_step ro i c)) →
  ∀ fuel n c sh, I c → run_threads ro pick fuel n c = Some sh →
  ∃ c', I c' ∧ todo c' = [] ∧ running c' = [] ∧ shared c' = sh.
Proof.
  intros Hmain Hgo. induction fuel as [|fuel IH]; intros n c sh Hc; simpl.
  - destruct (todo c) eqn:Ht, (running c) eqn:Hr; try done.
    intros [= <-]. by exists c.
  - destruct (todo c) eqn:Ht, (running c) eqn:Hr.
    { intros [= <-]. by exists c. }
    all: apply IH; unfold step; destruct (main_enabled c); try destruct (_ mod _); auto.
Qed.

Lemma ParseXMLs_total ro fs n0 pick : ∃ err out, ParseXMLs ro fs n0 pick = Some (err, out).
Proof.
  unfold ParseXMLs. destruct (can_create fs); simpl; [|by eexists _, _].
  destruct (Writer_Write header _) as [ok w]. destruct ok; simpl; [|by eexists _, _].
  destruct (Writer_Error (Writer_Flush w)); [by eexists _, _|].
  destruct (root_entries fs) as [reader|]; [|by eexists _, _].
  destruct (run_threads_total ro pick (entries_steps reader) 0
              (mkConf reader [] (mkShared (Writer_Flush w) n0 [] 0)) (entries_steps reader)
              (conf_steps_start _ _) (le_n _)) as [sh ->].
  by eexists _, _.
Qed.

(** ** The steps of a run *)

(** What the step under the lock does to the writer. *)
Lemma locked_write_spec ro record sh :
  shInt (locked_write ro record sh).2 = shInt sh
  ∧ shLogged (locked_write ro record sh).2 = shLogged sh
  ∧ ((locked_write ro record sh).1 = None
     ↔ failed (shWriter (locked_write ro record sh).2) = false)
  ∧ (failed (shWriter sh) = true → (locked_write ro record sh).2
       = mkShared (shWriter sh) (shInt sh) (shLogged sh) (S (shRanges sh)))
  ∧ (is_Some (locked_write ro record sh).1 →
     file (shWriter (locked_write ro record sh).2) = file (shWriter sh))
  ∧ ((locked_write ro record sh).1 = None →
     file (shWriter (locked_write ro record sh).2)
     = file (shWriter sh) ++ buffered (shWriter sh)
       ++ [build_row ro (shRanges sh) record]
     ∧ buffered (shWriter (locked_write ro record sh).2) = []).
Proof.
  unfold locked_write, Writer_Write, Writer_Flush, Writer_Error.
  destruct sh as [[f b fl dev] n l k]; simpl.
  destruct fl; [|destruct dev as [|[] [|[] dev]]]; simpl;
    (split; [done|]); (split; [done|]); (split; [by split|]);
    (split; [done|]); (split; [try done; by intros [? [=]]|]);
    try done; intros _; by rewrite <-?app_assoc.
Qed.

Lemma locked_write_working ro record sh :
  working (shWriter sh) →
  (locked_write ro record sh).1 = None
  ∧ working (shWriter (locked_write ro record sh).2).
Proof.
  unfold working, locked_write, Writer_Write, Writer_Flush, Writer_Error.
  destruct sh as [[f b fl dev] n l k]; simpl. by intros [-> ->].
Qed.

Lemma prog_step_DoRow {A} ro record (k : option error → Prog A) sh :
  prog_step ro (DoRow record k) sh
  = (k (locked_write ro record sh).1, (locked_write ro record sh).2).
Proof. simpl. by destruct (locked_write ro record sh). Qed.

(** A step of a goroutine: nothing for a goroutine that is not there, the
    end of one that has nothing left to do, or one step on what is shared. *)
Lemma goroutine_step_cases ro i c :
  goroutine_step ro i c = c
  ∨ (∃ a, running c !! i = Some (Ret a)
          ∧ goroutine_step ro i c = mkConf (todo c) (delete i (running c)) (shared c))
  ∨ (∃ p, running c !! i = Some p
          ∧ goroutine_step ro i c
            = mkConf (todo c) (<[i := (prog_step ro p (shared c)).1]> (running c))
                (prog_step ro p (shared c)).2).
Proof.
  unfold goroutine_step. destruct (running c !! i) as [p|] eqn:Hp; [|by left].
  destruct p as [a|record k|k|k|e k]; [right; left; by exists a|..];
    right; right; eexists; (split; [done|]); simpl; try done.
  by destruct (locked_write ro record (shared c)).
Qed.

(** What every step on what is shared keeps holds when [wg.Wait()]
    returns. *)
Lemma run_threads_shared_inv ro pick (J : Shared → Prop) :
  (∀ record sh, J sh → J (locked_write ro record sh).2) →
  (∀ sh, J sh → J (Int64_Add sh)) →
  (∀ e sh, J sh → J (Printf e sh)) →
  ∀ fuel n c sh, J (shared c) → run_threads ro pick fuel n c = Some sh → J sh.
Proof.
  intros Hrow Hadd Hlog fuel n c sh Hc Hrun.
  destruct (run_threads_inv ro pick (λ c, J (shared c))) with (4:=Hrun)
    as (c' & Hc' & _ & _ & <-); try done.
  - intros c0 H0. unfold main_step. destruct (todo c0); [done|].
    destruct (re_Match _); [done|]. destruct (shard_files _); simpl; auto.
  - intros i c0 H0.
    destruct (goroutine_step_cases ro i c0) as [->|[(a & _ & ->)|(p & _ & ->)]];
      try done.
    simpl. destruct p as [a|record k|k|k|e k]; simpl; auto.
    specialize (Hrow record _ H0). by destruct (locked_write ro record (shared c0)).
Qed.

(** ** A failure of the writer is not lost *)








(** ** The rows of a run whose output does not fail *)

Lemma unfailed_bind {A B} (f : A → Prog B) (p : Prog A) :
  unfailed (bind f p)
  = ((unfailed (f (unfailed p).1)).1, (unfailed p).2 ++ (unfailed (f (unfailed p).1)).2).
Proof.
  induction p as [a|record k IH|k IH|k IH|e k IH]; simpl; try done.
  - by destruct (unfailed (f a)).
  - rewrite IH. by destruct (unfailed (k None)).
Qed.

Lemma steady_Ret {A} (a : A) : steady (Ret a).
Proof. by intros rest. Qed.

Lemma steady_DoLog {A} e (k : Prog A) : steady k → steady (DoLog e k).
Proof. intros Hk rest. simpl. split; [done|]. apply Hk. Qed.

Lemma steady_bind {A B} (f : A → Prog B) (p : Prog A) :
  steady p → (∀ a, steady (f a)) → steady (bind f p).
Proof.
  intros Hp Hf rest. rewrite unfailed_bind. cbn [fst snd].
  apply wp_bind. rewrite <-app_assoc. eapply wp_mono; [|apply Hp].
  intros g a [-> ->]. apply Hf.
Qed.

Lemma steady_emit_row record : steady (emit_row_prog record).
Proof.
  intros rest. simpl. split; [done|]. intros err ->. simpl.
  repeat (split; [done|]). intros n. case_bool_decide; simpl; [|done].
  split; [done|]. intros n'. by split.
Qed.

Lemma steady_flatten fuel : ∀ element lastTag d prefix record,
  steady (flatten_loop_prog fuel element lastTag d prefix record).
Proof.
  induction fuel as [|fuel IH]; intros element lastTag d prefix record;
    [apply steady_Ret|].
  cbn [flatten_loop_prog].
  destruct (Decoder_Token d) as [[[local|local|text|]| |] d1].
  - rewrite bind_eq. apply steady_bind; [apply IH|].
    intros [[[[err|] d2] r2]|]; [apply steady_Ret|apply IH|apply steady_Ret].
  - case_bool_decide; [apply steady_Ret|apply IH].
  - apply IH.
  - apply IH.
  - rewrite bind_eq. apply steady_bind; [apply steady_emit_row|].
    intros err. apply steady_Ret.
  - apply steady_Ret.
Qed.

Lemma steady_generateRows root files : ∀ record,
  steady (generateRows_prog root files record).
Proof.
  induction files as [|f files IH]; intros record; simpl; [apply steady_Ret|].
  destruct (IsDir f); [apply IH|].
  destruct (opened f) as [decoder|]; [|apply steady_DoLog, IH].
  rewrite bind_eq. apply steady_bind; [apply steady_flatten|].
  intros [[[[err|] d1] r1]|]; [apply steady_DoLog, IH|apply IH|apply steady_Ret].
Qed.

Lemma steady_goroutine path files : steady (goroutine path files).
Proof.
  unfold goroutine. rewrite bind_eq. apply steady_bind; [apply steady_generateRows|].
  intros [[[err|] r]|]; [apply steady_DoLog| |]; apply steady_Ret.
Qed.

Lemma concat_delete_nil {A} (gs : list (list A)) : ∀ i,
  gs !! i = Some [] → concat (delete i gs) = concat gs.
Proof.
  induction gs as [|g gs IH]; intros [|i]; simpl; try done.
  - by intros [= ->].
  - intros Hi. by rewrite IH.
Qed.

Lemma concat_insert_tail {A} (gs : list (list A)) : ∀ i x g,
  gs !! i = Some (x :: g) → concat gs ≡ₚ x :: concat (<[i := g]> gs).
Proof.
  induction gs as [|g0 gs IH]; intros [|i] x g; simpl; try done.
  - by intros [= ->].
  - intros Hi. rewrite (IH _ _ _ Hi). by rewrite Permutation_middle.
Qed.

Lemma Forall2_permute {A B} (P : A → B → Prop) k k' :
  k ≡ₚ k' → ∀ l, Forall2 P l k → ∃ l', l' ≡ₚ l ∧ Forall2 P l' k'.
Proof.
  induction 1 as [|x k k' _ IH|x y k|k k' k'' _ IH1 _ IH2]; intros l Hl.
  - by exists l.
  - apply Forall2_cons_inv_r in Hl as (a & l0 & Ha & Hl0 & ->).
    destruct (IH _ Hl0) as (l' & Hperm & Hl'). exists (a :: l').
    split; [by rewrite Hperm|by constructor].
  - apply Forall2_cons_inv_r in Hl as (a & l0 & Ha & Hl0 & ->).
    apply Forall2_cons_inv_r in Hl0 as (b & l1 & Hb & Hl1 & ->).
    exists (b :: a :: l1). split; [apply perm_swap|by repeat constructor].
  - destruct (IH1 _ Hl) as (l' & Hperm' & Hl').
    destruct (IH2 _ Hl') as (l'' & Hperm'' & Hl'').
    exists l''. split; [by rewrite Hperm''|done].
Qed.

(** Rows of the same records, taken in any order, are the same rows. *)
Lemma same_rows_of rows1 rows2 written1 written2 :
  Forall2 row_of rows1 written1 → Forall2 row_of rows2 written2 →
  written1 ≡ₚ written2 → same_rows rows1 rows2.
Proof.
  intros H1 H2 Hperm. symmetry in Hperm.
  destruct (Forall2_permute _ _ _ Hperm _ H2) as (rows & Hrows & Hof).
  exists rows. split; [done|].
  eapply Forall2_trans; [|exact H1|apply Forall2_flip, Hof].
  intros row1 record row2 Hr1 Hr2. unfold row_of, flip in *. by rewrite Hr1, Hr2.
Qed.

Lemma locked_write_steady ro record sh :
  unfailing (shWriter sh) → buffered (shWriter sh) = [] →
  (locked_write ro record sh).1 = None
  ∧ unfailing (shWriter (locked_write ro record sh).2)
  ∧ buffered (shWriter (locked_write ro record sh).2) = []
  ∧ file (shWriter (locked_write ro record sh).2)
    = file (shWriter sh) ++ [build_row ro (shRanges sh) record].
Proof.
  unfold unfailing, locked_write, Writer_Write, Writer_Flush, Writer_Error.
  destruct sh as [[f b fl dev] n l k]; simpl. intros [-> Hdev] ->.
  destruct dev as [|ok1 dev]; simpl; [done|].
  apply Forall_cons in Hdev as [-> Hdev]. simpl.
  destruct dev as [|ok2 dev]; simpl; [done|].
  by apply Forall_cons in Hdev as [-> Hdev].
Qed.

Lemma rows_kept_main_step all c : rows_kept all c → rows_kept all (main_step c).
Proof.
  unfold main_step. destruct (todo c) as [|zipper rest] eqn:Ht; [done|].
  unfold rows_kept. rewrite Ht. cbn [records_of_entries].
  intros (Hw & Hb & rows & written & gs & Hf & Hrows & Hrun & Hall).
  destruct (re_Match _).
  { cbn [todo running shared]. repeat (split; [done|]). by exists rows, written, gs. }
  destruct (shard_files zipper) as [files|]; cbn [todo running shared].
  - repeat (split; [done|]).
    exists rows, written, (gs ++ [(unfailed (goroutine
      (GoFilepath.Join pathway (shard_name zipper)) files)).2]).
    split; [done|]. split; [done|]. split.
    + apply Forall2_app; [done|]. constructor; [|constructor].
      pose proof (steady_goroutine (GoFilepath.Join pathway (shard_name zipper))
                    files []) as Hs.
      rewrite app_nil_r in Hs. eapply wp_mono; [|exact Hs]. by intros g a [-> _].
    + rewrite concat_app. simpl. rewrite app_nil_r. by rewrite <-!app_assoc in *.
  - repeat (split; [done|]). by exists rows, written, gs.
Qed.

Lemma rows_kept_goroutine_step ro all i c :
  rows_kept all c → rows_kept all (goroutine_step ro i c).
Proof.
  intros Hc.
  destruct (goroutine_step_cases ro i c) as [->|[(a & Hi & ->)|(p & Hi & ->)]]; [done|..];
    destruct Hc as (Hw & Hb & rows & written & gs & Hf & Hrows & Hrun & Hall);
    unfold rows_kept; cbn [todo running shared];
    destruct (Forall2_lookup_l _ _ _ _ _ Hrun Hi) as (g & Hg & Hp).
  - repeat (split; [done|]). exists rows, written, (delete i gs).
    repeat (split; [done|]). split; [by apply Forall2_delete|].
    simpl in Hp. subst g. by rewrite concat_delete_nil.
  - destruct p as [a|record k|k|k|e k].
    + simpl. rewrite list_insert_id by done. repeat (split; [done|]).
      by exists rows, written, gs.
    + rewrite prog_step_DoRow. cbn [fst snd].
      destruct (locked_write_steady ro record (shared c) Hw Hb) as (-> & Hw' & Hb' & Hf').
      repeat (split; [done|]). destruct Hp as [Hhead Hp].
      destruct g as [|record' g]; [done|]. injection Hhead as ->.
      exists (rows ++ [build_row ro (shRanges (shared c)) record]),
        (written ++ [record]), (<[i := g]> gs).
      split; [by rewrite Hf', Hf|]. split.
      { apply Forall2_app; [done|]. constructor; [|constructor].
        apply build_row_cells. }
      split; [apply Forall2_insert; [done|by apply Hp]|].
      rewrite <-Hall, (concat_insert_tail gs i record g Hg), <-!app_assoc. simpl.
      by rewrite <-Permutation_middle.
    + simpl in *. repeat (split; [done|]). exists rows, written, gs.
      repeat (split; [done|]). split; [|done].
      rewrite <-(list_insert_id gs i g Hg). apply Forall2_insert; [done|apply Hp].
    + simpl in *. repeat (split; [done|]). exists rows, written, gs.
      repeat (split; [done|]). split; [|done].
      rewrite <-(list_insert_id gs i g Hg). apply Forall2_insert; [done|apply Hp].
    + simpl in *. repeat (split; [done|]). exists rows, written, gs.
      repeat (split; [done|]). split; [|done].
      rewrite <-(list_insert_id gs i g Hg). apply Forall2_insert; [done|apply Hp].
Qed.

Lemma ParseXMLs_working ro fs n0 pick reader :
  output_device fs = [] → can_create fs = true → root_entries fs = Some reader →
  ParseXMLs ro fs n0 pick
  = match run_threads ro pick (entries_steps reader) 0
            (mkConf reader [] (mkShared (mkWriter [header] [] false []) n0 [] 0)) with
    | None => None
    | Some sh =>
        let w := Writer_Flush (shWriter sh) in
        Some (if Writer_Error w then Some ErrFinalFlush else None,
              Some (mkShared w (shInt sh) (shLogged sh) (shRanges sh)))
    end.
Proof. intros Hdev Hcreate Hroot. unfold ParseXMLs. by rewrite Hcreate, Hroot, Hdev. Qed.

Lemma Writer_Flush_unfailing w :
  unfailing w → buffered w = [] →
  Writer_Error (Writer_Flush w) = false ∧ file (Writer_Flush w) = file w.
Proof.
  unfold unfailing, Writer_Flush, Writer_Error. destruct w as [f b fl dev]; simpl.
  intros [-> Hdev] ->. destruct dev as [|ok dev]; simpl; [by rewrite app_nil_r|].
  apply Forall_cons in Hdev as [-> Hdev]. simpl. by rewrite app_nil_r.
Qed.

(** With an output that takes every write, the header is written and the
    goroutines start with a writer that does not fail. *)
Lemma ParseXMLs_unfailing ro fs n0 pick :
  Forall (λ ok, ok = true) (output_device fs) → can_create fs = true →
  ∃ w, unfailing w ∧ buffered w = [] ∧ file w = [header]
       ∧ ParseXMLs ro fs n0 pick
         = match root_entries fs with
           | None => Some (Some ErrReadDir, Some (mkShared w n0 [] 0))
           | Some reader =>
               match run_threads ro pick (entries_steps reader) 0
                       (mkConf reader [] (mkShared w n0 [] 0)) with
               | None => None
               | Some sh =>
                   let w := Writer_Flush (shWriter sh) in
                   Some (if Writer_Error w then Some ErrFinalFlush else None,
                         Some (mkShared w (shInt sh) (shLogged sh) (shRanges sh)))
               end
           end.
Proof.
  intros Hdev Hcreate. unfold ParseXMLs. rewrite Hcreate.
  unfold Writer_Write, Writer_Flush, Writer_Error. simpl.
  destruct (output_device fs) as [|ok1 dev]; simpl.
  { exists (mkWriter [header] [] false []). by repeat split. }
  apply Forall_cons in Hdev as [-> Hdev]. simpl.
  destruct dev as [|ok2 dev]; simpl.
  { exists (mkWriter [header] [] false []). by repeat split. }
  apply Forall_cons in Hdev as [-> Hdev]. simpl.
  exists (mkWriter [header] [] false dev). by repeat split.
Qed.

(** With an output that takes every write, under every schedule, every
    order of the [range] loops and every value of [myInt] before the call,
    the rows that follow the header are those of the records of the run, up
    to their order and the order of their cells. *)
Lemma ParseXMLs_rows ro fs n0 pick reader :
  Forall (λ ok, ok = true) (output_device fs) → can_create fs = true →
  root_entries fs = Some reader →
  ∃ sh rows written,
    ParseXMLs ro fs n0 pick = Some (None, Some sh)
    ∧ file (shWriter sh) = header :: rows
    ∧ Forall2 row_of rows written
    ∧ written ≡ₚ records_of_entries reader.
Proof.
  intros Hdev Hcreate Hroot.
  destruct (ParseXMLs_unfailing ro fs n0 pick Hdev Hcreate) as (w & Hw & Hb & Hf & ->).
  rewrite Hroot.
  destruct (run_threads_total ro pick (entries_steps reader) 0
              (mkConf reader [] (mkShared w n0 [] 0))
              (entries_steps reader) (conf_steps_start _ _) (le_n _)) as [sh Hrun].
  rewrite Hrun.
  destruct (run_threads_inv ro pick (rows_kept (records_of_entries reader)))
    with (4:=Hrun) as (c' & Hc' & Ht & Hr & <-).
  - apply rows_kept_main_step.
  - apply rows_kept_goroutine_step.
  - split; [done|]. split; [done|]. exists [], [], []. by repeat split.
  - destruct Hc' as (Hw' & Hb' & rows & written & gs & Hf' & Hrows & Hrun' & Hall).
    rewrite Hr in Hrun'. apply Forall2_nil_inv_l in Hrun' as ->.
    rewrite Ht in Hall. simpl in Hall. rewrite app_nil_r in Hall.
    destruct (Writer_Flush_unfailing _ Hw' Hb') as [Herr Hfile].
    exists (mkShared (Writer_Flush (shWriter (shared c'))) (shInt (shared c'))
              (shLogged (shared c')) (shRanges (shared c'))), rows, written.
    cbn zeta. rewrite Herr. simpl. rewrite Hfile. by repeat split.
Qed.

(** ** The key of a character-data token *)

Lemma level_run_app ts1 : ∀ ts2 levels record,
  level_run (ts1 ++ ts2) levels record
  = level_run ts2 (level_run ts1 levels record).1 (level_run ts1 levels record).2.
Proof.
  induction ts1 as [|t ts1 IH]; intros ts2 levels record; simpl; [done|].
  destruct (level_step t levels record) as [levels1 record1]. apply IH.
Qed.

Lemma level_run_closed ts : ∀ record, level_run ts [] record = ([], record).
Proof. induction ts as [|t ts IH]; intros record; simpl; [done|apply IH]. Qed.

(** A call of [flatten] does to the record what its level does, and a call
    that returns before the end of the stream has closed its level. *)
Lemma flatten_run_levels ro element lastTag d prefix s res :
  flatten_run ro element lastTag d prefix s res →
  ∀ below, ∃ consumed levels,
    pending d = consumed ++ pending res.1.2
    ∧ level_run consumed (mkLevel element lastTag prefix :: below) (Rec s)
      = (levels, Rec res.2)
    ∧ (pending res.1.2 ≠ [] → levels = below).
Proof.
  induction 1 as [element lastTag d prefix s Hp He
                  |element lastTag d prefix s Hp He
                  |element lastTag d prefix s local ts err d1 s1 Hp Hin IHin
                  |element lastTag d prefix s local ts d1 s1 res Hp Hin IHin Hrest IHrest
                  |element lastTag d prefix s text ts res Hp Hrest IHrest
                  |element lastTag d prefix s ts Hp
                  |element lastTag d prefix s local ts res Hp Hne Hrest IHrest
                  |element lastTag d prefix s ts res Hp Hrest IHrest];
    simpl in *; intros below.
  - exists [], (mkLevel element lastTag prefix :: below).
    rewrite emit_row_Rec. by repeat split.
  - exists [], (mkLevel element lastTag prefix :: below). by repeat split.
  - destruct (IHin (mkLevel local local prefix :: below)) as (c1 & l1 & Hc1 & Hl1 & _).
    exists (StartElement local :: c1), l1. rewrite Hp, Hc1. split; [done|].
    split; [done|]. intros Hne.
    assert (pending d1 = []) as Hd1; [|done].
    apply (flatten_run_error_at_end _ _ _ _ _ _ _ Hin). by eexists.
  - destruct (IHin (mkLevel local local prefix :: below)) as (c1 & l1 & Hc1 & Hl1 & Hb1).
    destruct (IHrest below) as (c2 & l2 & Hc2 & Hl2 & Hb2).
    destruct (pending d1) as [|t1 ts1] eqn:Hp1.
    + symmetry in Hc2. apply app_eq_nil in Hc2 as [-> Hres]. simpl in Hl2.
      injection Hl2 as _ Hrec. exists (StartElement local :: c1), l1.
      rewrite Hp, Hc1, Hres, !app_nil_r. split; [done|]. simpl.
      split; [by rewrite Hl1, <-Hrec|done].
    + rewrite Hb1 in Hl1 by done. exists (StartElement local :: c1 ++ c2), l2.
      rewrite Hp, Hc1, Hc2. split; [simpl; by rewrite <-app_assoc|]. simpl.
      rewrite level_run_app, Hl1. by split.
  - destruct (IHrest below) as (c & l & Hc & Hl & Hb).
    exists (CharData text :: c), l. rewrite Hp, Hc. by repeat split.
  - exists [EndElement element], below. rewrite Hp. simpl.
    rewrite bool_decide_true by done. by repeat split.
  - destruct (IHrest below) as (c & l & Hc & Hl & Hb).
    exists (EndElement local :: c), l. rewrite Hp, Hc. simpl.
    rewrite bool_decide_false by done. by repeat split.
  - destruct (IHrest below) as (c & l & Hc & Hl & Hb).
    exists (OtherToken :: c), l. rewrite Hp, Hc. by repeat split.
Qed.

(** The record [flatten] leaves is the record of the levels, for every
    stream of tokens. *)
Lemma flatten_levels ro fuel element d prefix s res :
  flatten ro fuel element d prefix s = Some res →
  Rec res.2 = (level_run (pending d) [mkLevel element "" prefix] (Rec s)).2.
Proof.
  intros Hfl. apply flatten_loop_run in Hfl.
  destruct (flatten_run_levels _ _ _ _ _ _ _ Hfl []) as (c & l & Hc & Hl & Hb).
  rewrite Hc, level_run_app, Hl. simpl.
  destruct (pending res.1.2) as [|t ts] eqn:Hp; [done|].
  rewrite Hb by done. by rewrite level_run_closed.
Qed.

(** Every path of an element begins with the separator. *)
Lemma prefix_dot_app a b : String.prefix "." a = true → String.prefix "." (a +:+ b) = true.
Proof.
  destruct a as [|c a]; [done|].
  change (String.prefix "." (String c a +:+ b))
    with (if ascii_dec "." c then String.prefix "" (a +:+ b) else false).
  change (String.prefix "." (String c a))
    with (if ascii_dec "." c then String.prefix "" a else false).
  destruct (ascii_dec "." c); [|done]. intros _. by destruct (a +:+ b).
Qed.

Lemma spec_path_dot local open : String.prefix "." (spec_path (local :: open)) = true.
Proof.
  revert local. induction open as [|top open IH]; intros local; [by destruct local|].
  change (spec_path (local :: top :: open))
    with (spec_path (top :: open) +:+ "." +:+ local).
  apply prefix_dot_app, IH.
Qed.

Lemma spec_paths_dot ts : ∀ open k, k ∈ spec_paths open ts → String.prefix "." k = true.
Proof.
  induction ts as [|[local|local|text|] ts IH]; intros open k; simpl.
  - by intros ?%elem_of_nil.
  - intros [->|Hk]%elem_of_cons; [apply spec_path_dot|by eapply IH].
  - apply IH.
  - apply IH.
  - apply IH.
Qed.

(** ** Empty sequences stand at bare names only *)

Lemma record_text_empty_bare names r0 prefix lastTag text r :
  bare names lastTag → empty_only_bare names r0 r →
  empty_only_bare names r0 (record_text prefix lastTag text r).
Proof.
  intros Hlast Hr. unfold record_text.
  set (r1 := if bool_decide _ then _ else r).
  assert (empty_only_bare names r0 r1) as H1.
  { subst r1. case_bool_decide; [|done]. intros k Hk.
    destruct (decide (prefix = k)) as [->|Hne].
    - rewrite lookup_insert_eq in Hk. injection Hk as Hk.
      by apply app_eq_nil in Hk as [_ [=]].
    - rewrite lookup_insert_ne in Hk by done. by apply Hr. }
  destruct (r1 !! lastTag) eqn:Hl; [done|].
  intros k Hk. destruct (decide (lastTag = k)) as [->|Hne]; [by right|].
  rewrite lookup_insert_ne in Hk by done. by apply H1.
Qed.

Lemma flatten_run_empty_bare ro element lastTag d prefix s res :
  flatten_run ro element lastTag d prefix s res →
  ∀ names r0, bare names lastTag → start_names (pending d) ⊆ names →
  empty_only_bare names r0 (Rec s) → empty_only_bare names r0 (Rec res.2).
Proof.
  induction 1 as [????? Hp He| ????? Hp He
                  |?????????? Hp Hin IHin
                  |?????????? Hp Hin IHin Hrest IHrest
                  |???????? Hp Hrest IHrest
                  |?????? Hp
                  |???????? Hp Hne Hrest IHrest
                  |??????? Hp Hrest IHrest];
    simpl in *; intros names r0 Hlast Hnames Hinv; try done.
  - by rewrite emit_row_Rec.
  - rewrite Hp in Hnames. simpl in Hnames.
    apply (IHin names r0); [by left|by names_subset Hnames|done].
  - rewrite Hp in Hnames. simpl in Hnames.
    pose proof (flatten_run_decoder _ _ _ _ _ _ _ Hin) as [_ [c Hc]]. simpl in Hc.
    apply (IHrest names r0).
    + right. apply Hnames. by left.
    + rewrite Hc, start_names_app in Hnames. by names_subset Hnames.
    + apply (IHin names r0); [by left|by names_subset Hnames|done].
  - rewrite Hp in Hnames. simpl in Hnames.
    apply (IHrest names r0); [done|done|]. by apply record_text_empty_bare.
  - rewrite Hp in Hnames. simpl in Hnames. by apply (IHrest names r0).
  - rewrite Hp in Hnames. simpl in Hnames. by apply (IHrest names r0).
Qed.

(** ** A row that fails *)




(** ** The rows of a complete document *)

Lemma emit_row_working ro s :
  working (Writer s) →
  (emit_row ro s).1 = None
  ∧ working (Writer (emit_row ro s).2)
  ∧ accepted (Writer (emit_row ro s).2)
    = accepted (Writer s) ++ [build_row ro (ranges s) (Rec s)].
Proof.
  unfold working, emit_row, Writer_Write, Writer_Flush, Writer_Error, accepted.
  destruct s as [r [f b fl dev] n l k]; simpl. intros [-> ->]. simpl.
  case_bool_decide; simpl; by rewrite app_nil_r, app_assoc.
Qed.

(** With a working writer, a frame over a properly nested stream that ends
    with [io.EOF] returns nil, and either it has written a row or it has
    closed one of the elements that were open when it started reading. *)
Lemma flatten_run_working ro element lastTag d prefix s res :
  flatten_run ro element lastTag d prefix s res →
  ending d = AtEOF → working (Writer s) →
  ∀ open, is_Some (nested open (pending d)) →
  res.1.1 = None ∧ working (Writer res.2)
  ∧ ((∃ row rows, accepted (Writer res.2) = accepted (Writer s) ++ row :: rows)
     ∨ (accepted (Writer res.2) = accepted (Writer s)
        ∧ ∃ consumed open', pending d = consumed ++ pending res.1.2
                            ∧ nested open consumed = Some open'
                            ∧ length open' < length open)).
Proof.
  induction 1 as [????? Hp He| ????? Hp He
                  |?????????? Hp Hin IHin
                  |?????????? Hp Hin IHin Hrest IHrest
                  |???????? Hp Hrest IHrest
                  |?????? Hp
                  |???????? Hp Hne Hrest IHrest
                  |??????? Hp Hrest IHrest];
    simpl in *; intros Hend Hw open Hnest.
  - destruct (emit_row_working ro s Hw) as (?&?&Hacc).
    split; [done|]. split; [done|]. left. by exists (build_row ro (ranges s) (Rec s)), [].
  - congruence.
  - rewrite Hp in Hnest. by destruct (IHin Hend Hw (local :: open) Hnest) as [[=] _].
  - rewrite Hp in Hnest. simpl in Hnest.
    destruct (IHin Hend Hw (local :: open) Hnest) as (_ & Hw1 & Hcase1).
    pose proof (flatten_run_decoder _ _ _ _ _ _ _ Hin) as [He1 _]. simpl in He1.
    rewrite Hend in He1.
    destruct Hcase1 as [(row1 & rows1 & Hacc1)|(Hacc1 & c1 & o1 & Hc1 & Hn1 & Hl1)].
    + destruct (flatten_run_quiet _ _ _ _ _ _ _ Hin) as [[Hu _]|Heof]; simpl in *.
      { rewrite Hu in Hacc1. rewrite <-(app_nil_r (accepted (Writer s))) in Hacc1 at 1.
        by apply app_inv_head in Hacc1. }
      destruct (IHrest He1 Hw1 [] ) as (Hnone & Hw2 & Hcase2).
      { destruct Heof as [-> _]. by eexists. }
      split; [done|]. split; [done|]. left.
      destruct Hcase2 as [(row2 & rows2 & Hacc2)|(Hacc2 & _)].
      * exists row1, (rows1 ++ row2 :: rows2).
        by rewrite Hacc2, Hacc1, <-app_assoc.
      * exists row1, rows1. by rewrite Hacc2.
    + rewrite Hc1, nested_app, Hn1 in Hnest.
      destruct (IHrest He1 Hw1 o1 Hnest) as (Hnone & Hw2 & Hcase2).
      split; [done|]. split; [done|].
      destruct Hcase2 as [(row2 & rows2 & Hacc2)|(Hacc2 & c2 & o2 & Hc2 & Hn2 & Hl2)].
      * left. exists row2, rows2. by rewrite Hacc2, Hacc1.
      * right. split; [by rewrite Hacc2|].
        exists (StartElement local :: c1 ++ c2), o2.
        rewrite Hp, Hc1, Hc2. split; [simpl; by rewrite <-app_assoc|].
        split; [|simpl in Hl1; lia]. simpl. by rewrite nested_app, Hn1.
  - rewrite Hp in Hnest. simpl in Hnest.
    destruct (IHrest Hend Hw open Hnest) as (Hnone & Hw2 & Hcase).
    split; [done|]. split; [done|].
    destruct Hcase as [?|(Hacc & c & o & Hc & Hn & Hl)]; [by left|].
    right. split; [done|]. exists (CharData text :: c), o. rewrite Hp, Hc. by repeat split.
  - rewrite Hp in Hnest. simpl in Hnest.
    destruct open as [|top open]; [by destruct Hnest|].
    case_bool_decide; [subst top|by destruct Hnest].
    split; [done|]. split; [done|]. right. split; [done|].
    exists [EndElement element], open. rewrite Hp. simpl.
    rewrite bool_decide_true by done. repeat split; lia.
  - rewrite Hp in Hnest. simpl in Hnest.
    destruct open as [|top open]; [by destruct Hnest|].
    case_bool_decide; [subst top|by destruct Hnest].
    destruct (IHrest Hend Hw open Hnest) as (Hnone & Hw2 & Hcase).
    split; [done|]. split; [done|].
    destruct Hcase as [?|(Hacc & c & o & Hc & Hn & Hl)]; [by left|].
    right. split; [done|]. exists (EndElement local :: c), o. rewrite Hp, Hc. simpl.
    rewrite bool_decide_true by done. repeat split; [done|lia].
  - rewrite Hp in Hnest. simpl in Hnest.
    destruct (IHrest Hend Hw open Hnest) as (Hnone & Hw2 & Hcase).
    split; [done|]. split; [done|].
    destruct Hcase as [?|(Hacc & c & o & Hc & Hn & Hl)]; [by left|].
    right. split; [done|]. exists (OtherToken :: c), o. rewrite Hp, Hc. by repeat split.
Qed.

(** ** No file is left out *)










(** * The claims *)

(** C1, as stated, fails: with the fixed header of 5 columns, the run over a
    single document [<a>x</a>] writes a data row of 2 cells. *)
Lemma C1_row_width_counterexample :
  ∃ sh, ParseXMLs range_sorted (one_shard [] [mkEntry "a.xml" false (Some doc_a)])
          0 in_turn = Some (None, Some sh)
        ∧ file (shWriter sh) = [header; ["x"; ""]]
        ∧ length header = 5 ∧ length ["x"; ""] = 2.
Proof. eexists. split; [vm_compute; reflexivity|]. by vm_compute. Qed.

(** C1, amended: a call of [flatten] returns, and every row that it hands
    to the writer has exactly as many cells as the worker's record has keys
    when the call returns; the header is not consulted. *)
Theorem C1_row_width_is_record_size ro fuel element decoder prefix s :
  length (pending decoder) < fuel →
  ∃ res, flatten ro fuel element decoder prefix s = Some res
         ∧ ∃ rows, accepted (Writer res.2) = accepted (Writer s) ++ rows
                   ∧ Forall (λ row, length row = size (Rec res.2)) rows.
Proof.
  intros Hfuel.
  destruct (flatten_loop_total ro fuel element "" decoder prefix s Hfuel)
    as (err & d' & s' & Hfl & _).
  exists (err, d', s'). split; [done|].
  apply flatten_loop_run, flatten_run_rows in Hfl as (rows & Hacc & Hrows).
  exists rows. split; [done|].
  eapply Forall_impl; [exact Hrows|]. intros row Hperm. simpl in Hperm.
  by rewrite Hperm, cells_length.
Qed.

Lemma C1_row_width_is_record_size_witness :
  length (pending worked_example) < 11
  ∧ ∃ res, flatten range_sorted 11 "" worked_example "" (empty_state []) = Some res
           ∧ ∃ rows, accepted (Writer res.2) = accepted (Writer (empty_state [])) ++ rows
                     ∧ Forall (λ row, length row = size (Rec res.2)) rows.
Proof.
  split; [simpl; lia|].
  apply (C1_row_width_is_record_size range_sorted 11 "" worked_example "" (empty_state [])).
  simpl; lia.
Defined.

(** C2, as stated, fails: in a shard holding [<a>x</a>] then [<b>y</b>], the
    row written for the second document carries the value [x] of the first,
    because the record still binds [.a]; alone, the second document gives
    the row [y], (empty). *)
Lemma C2_record_not_fresh_counterexample :
  ∃ s s', generateRows range_sorted "2024_TEOS_XML_01A"
            [mkEntry "a.xml" false (Some doc_a); mkEntry "b.xml" false (Some doc_b)]
            (empty_state []) = Some (None, s)
          ∧ generateRows range_sorted "2024_TEOS_XML_01A"
              [mkEntry "b.xml" false (Some doc_b)] (empty_state []) = Some (None, s')
          ∧ file (Writer s) = [["x"; ""]; ["x"; "y"; ""]]
          ∧ file (Writer s') = [["y"; ""]]
          ∧ Rec s !! ".a" = Some ["x"].
Proof.
  eexists _, _. split; [vm_compute; reflexivity|].
  split; [vm_compute; reflexivity|]. by vm_compute.
Qed.

(** C2, amended: the record belongs to the worker of a shard and is kept
    from one document to the next: the documents that follow any point of
    the shard are processed from the state the earlier ones left, and in
    that state every key bound before is still bound, to its former values
    followed by the later ones. *)
Theorem C2_record_kept_across_documents ro root files1 files2 s :
  ∃ s1, generateRows ro root files1 s = Some (None, s1)
        ∧ record_le (Rec s) (Rec s1)
        ∧ generateRows ro root (files1 ++ files2) s = generateRows ro root files2 s1.
Proof.
  destruct (generateRows_total ro root files1 s) as [s1 H1].
  exists s1. split; [done|]. split.
  - by apply (generateRows_record_le _ _ _ _ _ H1).
  - by rewrite generateRows_app, H1.
Qed.



(** C4, as stated, fails: the record of the worked example has a third key,
    the empty string, and so differs from the record of the claim; its rows
    have three cells where the header has five, in the order of the [range]
    and not laid out on the header: under the second column, [EIN], stands
    [ACME]. *)
Lemma C4_worked_example_counterexample :
  ∃ res, flatten range_sorted 11 "" worked_example "" (empty_state []) = Some res
         ∧ Rec res.2 !! "" = Some []
         ∧ Rec res.2 ≠ {[ ".Return.EIN" := ["12-3456789"];
                          ".Return.Filer.Name" := ["ACME"] ]}
         ∧ file (Writer res.2) ≠ []
         ∧ Forall (λ row, row = ["12-3456789"; "ACME"; ""]) (file (Writer res.2))
         ∧ header !! 1 = Some "EIN"
         ∧ Forall (λ row, row !! 1 = Some "ACME") (file (Writer res.2)).
Proof.
  eexists. split; [vm_compute; reflexivity|]. simpl.
  split; [by vm_compute|]. split; [|by repeat constructor].
  intros Heq. apply (f_equal (λ m, m !! "")) in Heq. by vm_compute in Heq.
Qed.

(** C4, amended: whatever the order of map iteration, flattening the worked
    example gives the record that binds [.Return.EIN] to [12-3456789] and
    [.Return.Filer.Name] to [ACME], with one more key, the empty string,
    bound to the empty sequence by the character-data case, and no other
    key; at least one row is written for the document, and every row
    written has one cell per key of that record - [12-3456789], [ACME] and
    an empty cell - in the order of the [range] over the record; no header
    column is consulted. *)
Theorem C4_worked_example ro :
  ∃ d' s', flatten ro 11 "" worked_example "" (empty_state []) = Some (None, d', s')
           ∧ Rec s' = {[ ".Return.EIN" := ["12-3456789"];
                         ".Return.Filer.Name" := ["ACME"];
                         "" := [] ]}
           ∧ (∀ k, is_Some (Rec s' !! k) → String.prefix "." k = true →
                   k = ".Return.EIN" ∨ k = ".Return.Filer.Name")
           ∧ accepted (Writer s') ≠ []
           ∧ Forall (λ row, row ≡ₚ ["12-3456789"; "ACME"; ""]) (accepted (Writer s')).
Proof.
  pose proof (flatten_loop_sim range_sorted ro 11 "" "" worked_example ""
                (empty_state []) (empty_state []) (state_sim_refl _)) as Hsim.
  rewrite worked_example_sorted in Hsim. unfold flatten.
  destruct (flatten_loop ro 11 "" "" worked_example "" (empty_state []))
    as [[[err d'] s']|]; [|done].
  destruct Hsim as (<- & _ & Hrec & Hw & _). simpl in Hrec.
  apply writer_sim_accepted in Hw. unfold accepted at 1 in Hw. simpl in Hw.
  exists d', s'. rewrite <-Hrec. split; [done|]. split; [done|].
  split; [apply worked_record_paths|]. split.
  - intros Hnil. rewrite Hnil in Hw. by apply Forall2_nil_inv_r in Hw.
  - eapply Forall2_Forall_r; [exact Hw|].
    apply Forall_forall. intros row Hrow row' Hperm. rewrite <-Hperm.
    rewrite !elem_of_cons, elem_of_nil in Hrow.
    by destruct Hrow as [->|[->|[->|[]]]].
Qed.

(** C5, as stated, fails: [<a>x<b>] is cut short and gives no row, but what
    it bound stays in the record, so the row of the next document
    [<b>y</b>] carries [x]; processed alone that document gives [y], (empty). *)
Lemma C5_partial_record_kept_counterexample :
  ∃ s s', generateRows range_sorted "2024_TEOS_XML_01A"
            [mkEntry "cut.xml" false (Some doc_cut); mkEntry "b.xml" false (Some doc_b)]
            (empty_state []) = Some (None, s)
          ∧ generateRows range_sorted "2024_TEOS_XML_01A"
              [mkEntry "b.xml" false (Some doc_b)] (empty_state []) = Some (None, s')
          ∧ file (Writer s) = [["x"; "y"; ""]]
          ∧ file (Writer s') = [["y"; ""]]
          ∧ Rec s !! ".a" = Some ["x"].
Proof.
  eexists _, _. split; [vm_compute; reflexivity|].
  split; [vm_compute; reflexivity|]. by vm_compute.
Qed.

(** C5, amended: when the decoder fails in the middle of a document,
    [flatten] returns the XML error without handing any row to the writer,
    and [generateRows] logs the error and goes on with the remaining files
    of the shard. The record is not discarded: the remaining files are
    processed from the record as the failed document left it, which still
    binds every key bound before. *)
Theorem C5_decoder_error_skips_document ro root f files decoder s :
  IsDir f = false → opened f = Some decoder →
  ending decoder = SyntaxError → is_Some (nested [] (pending decoder)) →
  ∃ d' s1, flatten ro (S (length (pending decoder))) "" decoder "" s
             = Some (Some ErrXMLParsing, d', s1)
           ∧ untouched s s1
           ∧ record_le (Rec s) (Rec s1)
           ∧ generateRows ro root (f :: files) s
             = generateRows ro root files
                 (log_Printf (LogParseError root (Name f) ErrXMLParsing) s1).
Proof.
  intros Hdir Hopen Hend Hnest.
  destruct (flatten_total ro "" decoder "" s) as [[[err d'] s1] Hfl].
  pose proof (flatten_loop_run _ _ _ _ _ _ _ _ Hfl) as Hrun.
  destruct (flatten_run_syntax_error _ _ _ _ _ _ _ Hrun Hend) as [Hun Herr].
  destruct (flatten_run_reads_all _ _ _ _ _ _ _ Hrun Hnest) as [_ Heof].
  simpl in *. destruct Herr as [->| ->]; [specialize (Heof eq_refl); congruence|].
  exists d', s1. split; [done|]. split; [done|].
  split; [by apply (flatten_run_record_le _ _ _ _ _ _ _ Hrun)|].
  by rewrite Hdir, Hopen, Hfl.
Qed.

Lemma C5_decoder_error_skips_document_witness :
  ∃ d' s1, flatten range_sorted (S (length (pending doc_cut))) "" doc_cut "" (empty_state [])
             = Some (Some ErrXMLParsing, d', s1)
           ∧ untouched (empty_state []) s1
           ∧ record_le (Rec (empty_state [])) (Rec s1)
           ∧ generateRows range_sorted "2024_TEOS_XML_01A"
               (mkEntry "cut.xml" false (Some doc_cut)
                :: [mkEntry "b.xml" false (Some doc_b)]) (empty_state [])
             = generateRows range_sorted "2024_TEOS_XML_01A"
                 [mkEntry "b.xml" false (Some doc_b)]
                 (log_Printf (LogParseError "2024_TEOS_XML_01A"
                                (Name (mkEntry "cut.xml" false (Some doc_cut)))
                                ErrXMLParsing) s1).
Proof.
  apply (C5_decoder_error_skips_document range_sorted "2024_TEOS_XML_01A"
           (mkEntry "cut.xml" false (Some doc_cut))
           [mkEntry "b.xml" false (Some doc_b)] doc_cut (empty_state []));
    [reflexivity|reflexivity|reflexivity|by eexists].
Defined.

(** C6, as stated, fails: the element [b] of [<a><b></b> </a>] closes
    without text, and its path [.a.b] is not bound. The white space that
    follows binds the bare name [b], and that is the only key of the
    record. *)
Lemma C6_empty_element_counterexample :
  ∃ res, flatten range_sorted 6 "" doc_empty_child "" (empty_state []) = Some res
         ∧ Rec res.2 !! ".a.b" = None
         ∧ Rec res.2 = {[ "b" := [] ]}.
Proof. eexists. split; [vm_compute; reflexivity|]. by vm_compute. Qed.

(** C6, amended. Nothing is registered when an element closes, so an
    element without text brings no path into the record. A key bound to an
    empty sequence after a document was bound to one before it, or is what a
    character-data token registers: the bare name held in [lastTag], which
    is the empty string or the local name of a start element of the
    document (see C10). As long as no local name begins with the separator,
    such a name is not a path: if every key of the worker's record that
    begins with the separator holds a value before a document, so does
    every such key after it. *)
Theorem C6_paths_never_bound_to_empty ro fuel decoder s :
  length (pending decoder) < fuel →
  ∃ res, flatten ro fuel "" decoder "" s = Some res
    ∧ (∀ k, Rec res.2 !! k = Some [] →
            Rec s !! k = Some [] ∨ k = "" ∨ StartElement k ∈ pending decoder)
    ∧ ((∀ local, StartElement local ∈ pending decoder → String.prefix "." local = false) →
       paths_nonempty (Rec s) → paths_nonempty (Rec res.2)).
Proof.
  intros Hfuel.
  destruct (flatten_loop_total ro fuel "" "" decoder "" s Hfuel)
    as (err & d' & s' & Hfl & _).
  exists (err, d', s'). split; [done|]. apply flatten_loop_run in Hfl. split.
  - intros k Hk.
    destruct (flatten_run_empty_bare _ _ _ _ _ _ _ Hfl (start_names (pending decoder))
                (Rec s)) with (k:=k) as [?|[?|?%elem_of_start_names]]; auto.
    + by left.
    + intros k' ?. by left.
  - intros Hnames Hinv.
    by apply (flatten_run_paths_nonempty _ _ _ _ _ _ _ Hfl).
Qed.

Lemma C6_paths_never_bound_to_empty_witness :
  length (pending doc_empty_child) < 6
  ∧ ∃ res, flatten range_sorted 6 "" doc_empty_child "" (empty_state []) = Some res
    ∧ (∀ k, Rec res.2 !! k = Some [] →
            Rec (empty_state []) !! k = Some [] ∨ k = ""
            ∨ StartElement k ∈ pending doc_empty_child)
    ∧ ((∀ local, StartElement local ∈ pending doc_empty_child →
                 String.prefix "." local = false) →
       paths_nonempty (Rec (empty_state [])) → paths_nonempty (Rec res.2)).
Proof.
  split; [simpl; lia|].
  apply (C6_paths_never_bound_to_empty range_sorted 6 doc_empty_child (empty_state [])).
  simpl; lia.
Defined.

(** C7, as stated, fails: two runs over the same tree, holding the single
    document [<a>x</a>], that differ in the order in which [range] visits
    the record, write the rows [x], (empty) and (empty), [x]. *)
Lemma C7_row_content_counterexample :
  ∃ sh1 sh2,
    ParseXMLs range_sorted (one_shard [] [mkEntry "a.xml" false (Some doc_a)]) 0 in_turn
      = Some (None, Some sh1)
    ∧ ParseXMLs range_reversed (one_shard [] [mkEntry "a.xml" false (Some doc_a)])
        0 in_turn = Some (None, Some sh2)
    ∧ file (shWriter sh1) = [header; ["x"; ""]]
    ∧ file (shWriter sh2) = [header; [""; "x"]]
    ∧ ¬ file (shWriter sh1) ≡ₚ file (shWriter sh2).
Proof.
  eexists _, _. split; [vm_compute; reflexivity|].
  split; [vm_compute; reflexivity|]. simpl.
  split; [done|]. split; [done|].
  intros Hperm. assert ([""; "x"] ∈ [header; ["x"; ""]]) as Hin.
  { rewrite Hperm. apply elem_of_cons. right. by apply elem_of_cons; left. }
  rewrite !elem_of_cons, elem_of_nil in Hin. by destruct Hin as [|[|]].
Qed.

(** C7, amended: two runs over an unchanged input tree, with an output that
    takes every write and every flush, yield the same multiset of rows up
    to the order of the cells within each row. Whatever the schedules of
    the goroutines, the orders of the [range] loops and the values of
    [myInt] before the two calls, both calls return the same result, and
    the rows that follow the header in the two outputs are the same up to
    their order and to the order of the cells of each row. *)
Theorem C7_rows_equal_up_to_cell_order ro1 ro2 fs n1 n2 pick1 pick2 :
  Forall (λ ok, ok = true) (output_device fs) →
  ∃ err out1 out2,
    ParseXMLs ro1 fs n1 pick1 = Some (err, out1)
    ∧ ParseXMLs ro2 fs n2 pick2 = Some (err, out2)
    ∧ (can_create fs = true → is_Some (root_entries fs) → err = None)
    ∧ (out1 = None ↔ out2 = None)
    ∧ ∀ sh1 sh2, out1 = Some sh1 → out2 = Some sh2 →
        ∃ rows1 rows2, file (shWriter sh1) = header :: rows1
                       ∧ file (shWriter sh2) = header :: rows2
                       ∧ same_rows rows1 rows2.
Proof.
  intros Hdev. destruct (can_create fs) eqn:Hcreate.
  2:{ exists (Some ErrCreateCSV), None, None. unfold ParseXMLs. rewrite Hcreate.
      by repeat split. }
  destruct (root_entries fs) as [reader|] eqn:Hroot.
  - destruct (ParseXMLs_rows ro1 fs n1 pick1 reader Hdev Hcreate Hroot)
      as (sh1 & rows1 & written1 & -> & Hf1 & Hrows1 & Hperm1).
    destruct (ParseXMLs_rows ro2 fs n2 pick2 reader Hdev Hcreate Hroot)
      as (sh2 & rows2 & written2 & -> & Hf2 & Hrows2 & Hperm2).
    exists None, (Some sh1), (Some sh2).
    split; [done|]. split; [done|]. split; [done|]. split; [by split|].
    intros ?? [= <-] [= <-]. exists rows1, rows2. split; [done|]. split; [done|].
    apply (same_rows_of _ _ written1 written2); [done|done|].
    by rewrite Hperm1, Hperm2.
  - destruct (ParseXMLs_unfailing ro1 fs n1 pick1 Hdev Hcreate) as (w1 & _ & _ & Hf1 & ->).
    destruct (ParseXMLs_unfailing ro2 fs n2 pick2 Hdev Hcreate) as (w2 & _ & _ & Hf2 & ->).
    rewrite Hroot. eexists (Some ErrReadDir), (Some _), (Some _).
    split; [reflexivity|]. split; [reflexivity|].
    split; [by intros _ [? [=]]|]. split; [by split|].
    intros ?? [= <-] [= <-]. exists [], []. split; [done|]. split; [done|].
    exists []. by split.
Qed.

Lemma C7_rows_equal_up_to_cell_order_witness :
  Forall (λ ok, ok = true) (output_device (two_shards [true; true; true]))
  ∧ ∃ err out1 out2,
      ParseXMLs range_sorted (two_shards [true; true; true]) 0 in_turn = Some (err, out1)
      ∧ ParseXMLs range_reversed (two_shards [true; true; true]) 999 second_first
        = Some (err, out2)
      ∧ (can_create (two_shards [true; true; true]) = true →
         is_Some (root_entries (two_shards [true; true; true])) → err = None)
      ∧ (out1 = None ↔ out2 = None)
      ∧ ∀ sh1 sh2, out1 = Some sh1 → out2 = Some sh2 →
          ∃ rows1 rows2, file (shWriter sh1) = header :: rows1
                         ∧ file (shWriter sh2) = header :: rows2
                         ∧ same_rows rows1 rows2.
Proof.
  assert (Forall (λ ok, ok = true) (output_device (two_shards [true; true; true])))
    as Hdev by (simpl; by repeat constructor).
  split; [exact Hdev|].
  apply (C7_rows_equal_up_to_cell_order range_sorted range_reversed
           (two_shards [true; true; true]) 0 999 in_turn second_first).
  exact Hdev.
Defined.

(** Two such runs over two shards: the goroutines write in either order,
    and the cells of each row come in either order. *)
Example rows_of_two_schedules :
  ∃ sh1 sh2,
    ParseXMLs range_sorted (two_shards []) 0 in_turn = Some (None, Some sh1)
    ∧ ParseXMLs range_reversed (two_shards []) 999 second_first = Some (None, Some sh2)
    ∧ file (shWriter sh1) = [header; ["x"; ""]; ["y"; ""]]
    ∧ file (shWriter sh2) = [header; [""; "y"]; [""; "x"]]
    ∧ shLogged sh1 = [] ∧ shLogged sh2 = [LogProcessed 1000].
Proof.
  eexists _, _. split; [vm_compute; reflexivity|].
  split; [vm_compute; reflexivity|]. by vm_compute.
Qed.

(** Why the output must take every write: when the device refuses the
    write of the second row, the row that reached the output is the one of
    the shard whose goroutine wrote first, so two schedules leave different
    rows. *)
Example rows_depend_on_schedule_when_output_fails :
  ∃ sh1 sh2,
    ParseXMLs range_sorted (two_shards [true; true; true; true; false]) 0 in_turn
      = Some (Some ErrFinalFlush, Some sh1)
    ∧ ParseXMLs range_sorted (two_shards [true; true; true; true; false]) 0 second_first
        = Some (Some ErrFinalFlush, Some sh2)
    ∧ file (shWriter sh1) = [header; ["x"; ""]]
    ∧ file (shWriter sh2) = [header; ["y"; ""]]
    ∧ ¬ same_rows (tail (file (shWriter sh1))) (tail (file (shWriter sh2))).
Proof.
  eexists _, _. split; [vm_compute; reflexivity|].
  split; [vm_compute; reflexivity|]. simpl.
  split; [done|]. split; [done|].
  intros (rows & Hperm & Hrows). apply Permutation_singleton_r in Hperm as ->.
  apply Forall2_cons_1 in Hrows as [Hrow _].
  assert ("x" ∈ ["y"; ""]) as Hin by (rewrite <-Hrow; by apply elem_of_cons; left).
  rewrite !elem_of_cons, elem_of_nil in Hin. by destruct Hin as [|[|]].
Qed.

(** C8: the code at the failing input. In [<a><b>x<c>w</c></b><b>z</b></a>]
    the path [.a.b] is visited twice and the texts observed at it are [x]
    and [z], in that order. The call of [flatten] for the first [b] has
    replaced its [element] by [c], so it does not return at the end tag of
    [b]; it reads the second [b] as a child of the first: [z] is bound under
    [.a.b.b], and [.a.b] keeps [x] alone. *)
Theorem C8_repeated_sibling_after_child :
  spec_values (pending doc_repeated_sibling) ".a.b" = ["x"; "z"]
  ∧ ∃ res, flatten range_sorted 12 "" doc_repeated_sibling "" (empty_state []) = Some res
           ∧ Rec res.2 !! ".a.b" = Some ["x"]
           ∧ Rec res.2 !! ".a.b.b" = Some ["z"].
Proof.
  split; [by vm_compute|].
  eexists. split; [vm_compute; reflexivity|]. by vm_compute.
Qed.

(** C9: the cell of a key by the number of its values: none gives the empty
    string, one gives the value itself, several give the values written one
    after the other in their order, with nothing between them; and a row is
    made of these cells, one per entry in the order of the [range]. *)
Theorem C9_cell_by_number_of_values :
  cell [] = ""
  ∧ (∀ v, cell [v] = v)
  ∧ (∀ v1 v2 vs, cell (v1 :: v2 :: vs) = foldr String.append "" (v1 :: v2 :: vs))
  ∧ (∀ ro n record,
       build_row ro n record = (λ entry, cell entry.2) <$> range_order ro n record).
Proof.
  split; [done|]. split; [done|]. split; [|done].
  intros v1 v2 vs. unfold cell, Builder_String.
  rewrite bool_decide_true by (simpl; lia).
  by rewrite Builder_String_from.
Qed.

(** C10, as stated, fails: [<b><p:.b/> </b>] is properly nested and holds
    character data, yet the only key of its record is [.b], which is the
    path of its root element: the white space is read by the call for [b],
    whose [lastTag] is the local name [.b] of the child started last. *)
Lemma C10_every_key_a_path_counterexample :
  is_Some (nested [] (pending doc_dotted))
  ∧ CharData " " ∈ pending doc_dotted
  ∧ spec_paths [] (pending doc_dotted) = [".b"; ".b..b"]
  ∧ ∃ res, flatten range_sorted 6 "" doc_dotted "" (empty_state []) = Some res
           ∧ Rec res.2 = {[ ".b" := [] ]}
           ∧ ∀ k, is_Some (Rec res.2 !! k) → k ∈ spec_paths [] (pending doc_dotted).
Proof.
  split; [by eexists|]. split; [simpl; rewrite !elem_of_cons; auto 10|].
  split; [reflexivity|].
  exists (@None error, mkDecoder [] AtEOF,
          mkState {[ ".b" := [] ]} (mkWriter [[""]; [""]] [] false []) 2 [] 2).
  split; [vm_compute; reflexivity|]. simpl. split; [done|].
  intros k [v Hk]. apply lookup_singleton_Some in Hk as [<- _].
  apply elem_of_cons. by left.
Qed.

(** C10, amended. A character-data token makes [flatten] bind the key
    [lastTag] of the call that reads it, to an empty slice when it was
    unbound and is not the key the text went to; [lastTag] is empty when a
    call starts and is the local name of the start element the call read
    last afterwards: the record [flatten] leaves is the record of the
    levels. So, for a properly nested stream that holds character data,
    [flatten] returns and the record ends up with a key that is the empty
    string or the bare local name of a start element of the stream; as long
    as no local name begins with the separator, this key is not a path of
    an element. Every row handed to the writer has a cell for it, and there
    is such a row when the writer works and the stream ends with
    [io.EOF]. *)
Theorem C10_text_registers_bare_key ro fuel decoder s :
  length (pending decoder) < fuel →
  is_Some (nested [] (pending decoder)) →
  (∃ text, CharData text ∈ pending decoder) →
  (∀ prefix lastTag text r,
     is_Some (record_text prefix lastTag text r !! lastTag)
     ∧ (r !! lastTag = None → lastTag ≠ prefix ∨ GoStrings.TrimSpace text = "" →
        record_text prefix lastTag text r !! lastTag = Some []))
  ∧ ∃ res, flatten ro fuel "" decoder "" s = Some res
      ∧ Rec res.2 = (level_run (pending decoder) [mkLevel "" "" ""] (Rec s)).2
      ∧ ∃ k v, (k = "" ∨ StartElement k ∈ pending decoder)
               ∧ Rec res.2 !! k = Some v
               ∧ ((∀ local, StartElement local ∈ pending decoder →
                            String.prefix "." local = false) →
                  String.prefix "." k = false ∧ k ∉ spec_paths [] (pending decoder))
               ∧ ∃ rows, accepted (Writer res.2) = accepted (Writer s) ++ rows
                         ∧ Forall (λ row, length row = size (Rec res.2) ∧ cell v ∈ row) rows
                         ∧ (working (Writer s) → ending decoder = AtEOF → rows ≠ []).
Proof.
  intros Hfuel Hnest Htext.
  split; [apply record_text_lastTag|].
  destruct (flatten_loop_total ro fuel "" "" decoder "" s Hfuel)
    as (err & d' & s' & Hfl & _).
  exists (err, d', s'). split; [done|].
  split; [by apply (flatten_levels _ _ _ _ _ _ _ Hfl)|].
  apply flatten_loop_run in Hfl.
  destruct (flatten_run_reads_all _ _ _ _ _ _ _ Hfl Hnest) as [Hall _].
  destruct (flatten_run_bare_key _ _ _ _ _ _ _ Hfl) as (consumed & Hc & Hkey).
  rewrite Hall, app_nil_r in Hc. subst consumed.
  destruct (Hkey (start_names (pending decoder))) as (k & Hk & [v Hv]);
    [by left|done|by left|].
  exists k, v. split; [|split; [done|split]].
  - destruct Hk as [?|?%elem_of_start_names]; auto.
  - intros Hnames.
    assert (String.prefix "." k = false) as Hdot
      by (destruct Hk as [->|?%elem_of_start_names]; auto).
    split; [done|]. intros Hpath%spec_paths_dot. congruence.
  - destruct (flatten_run_rows _ _ _ _ _ _ _ Hfl) as (rows & Hacc & Hrows).
    exists rows. split; [done|]. split.
    + eapply Forall_impl; [exact Hrows|].
      intros row Hperm. simpl in Hperm. rewrite Hperm, cells_length. split; [done|].
      unfold cells. apply list_elem_of_fmap. exists (k, v). split; [done|].
      by apply elem_of_map_to_list.
    + intros Hw Hend ->. rewrite app_nil_r in Hacc.
      destruct (flatten_run_working _ _ _ _ _ _ _ Hfl Hend Hw [] Hnest)
        as (_ & _ & [(row & more & Hacc')|(_ & ? & ? & _ & _ & Hl)]);
        [|simpl in Hl; lia].
      simpl in *. rewrite Hacc in Hacc'.
      rewrite <-(app_nil_r (accepted (Writer s))) in Hacc' at 1.
      by apply app_inv_head in Hacc'.
Qed.

Lemma C10_text_registers_bare_key_witness :
  length (pending worked_example) < 11
  ∧ is_Some (nested [] (pending worked_example))
  ∧ (∃ text, CharData text ∈ pending worked_example)
  ∧ (∀ prefix lastTag text r,
       is_Some (record_text prefix lastTag text r !! lastTag)
       ∧ (r !! lastTag = None → lastTag ≠ prefix ∨ GoStrings.TrimSpace text = "" →
          record_text prefix lastTag text r !! lastTag = Some []))
  ∧ ∃ res, flatten range_sorted 11 "" worked_example "" (empty_state []) = Some res
      ∧ Rec res.2
        = (level_run (pending worked_example) [mkLevel "" "" ""] (Rec (empty_state []))).2
      ∧ ∃ k v, (k = "" ∨ StartElement k ∈ pending worked_example)
               ∧ Rec res.2 !! k = Some v
               ∧ ((∀ local, StartElement local ∈ pending worked_example →
                            String.prefix "." local = false) →
                  String.prefix "." k = false
                  ∧ k ∉ spec_paths [] (pending worked_example))
               ∧ ∃ rows, accepted (Writer res.2) = accepted (Writer (empty_state [])) ++ rows
                         ∧ Forall (λ row, length row = size (Rec res.2) ∧ cell v ∈ row) rows
                         ∧ (working (Writer (empty_state [])) →
                            ending worked_example = AtEOF → rows ≠ []).
Proof.
  assert (∃ text, CharData text ∈ pending worked_example) as Htext.
  { exists "ACME". simpl. rewrite !elem_of_cons. auto 10. }
  split; [simpl; lia|]. split; [by eexists|]. split; [done|].
  apply (C10_text_registers_bare_key range_sorted 11 worked_example (empty_state []));
    [simpl; lia|by eexists|done].
Defined.

(** The mark of the levels: in [<a><b><c/></b> </a>] the end tag of [b]
    does not close the call for [b], whose [element] has become [c]; that
    call reads the white space, and its [lastTag] is [c]. *)
Example text_after_inner_child :
  ∃ res, flatten range_sorted 8 ""
           (mkDecoder [StartElement "a"; StartElement "b"; StartElement "c";
                       EndElement "c"; EndElement "b"; CharData " ";
                       EndElement "a"] AtEOF) "" (empty_state []) = Some res
         ∧ Rec res.2 = {[ "c" := [] ]}.
Proof. eexists. split; [vm_compute; reflexivity|]. by vm_compute. Qed.

(** * Further properties of parser.go *)

(** ** The entries that [ParseXMLs] skips *)

Lemma prefix_cons a s1 b s2 :
  String.prefix (String a s1) (String b s2) = true ↔ a = b ∧ String.prefix s1 s2 = true.
Proof.
  simpl. destruct (ascii_dec a b) as [->|Hne]; split; try done.
  - by intros [_ ?].
  - by intros [? _].
Qed.

Lemma prefix_zip rest :
  String.prefix "zip" rest = true ↔ ∃ post, rest = "zip" +:+ post.
Proof.
  split.
  - destruct rest as [|c1 [|c2 [|c3 post]]]; try done.
    + rewrite prefix_cons. by intros [_ ?].
    + rewrite !prefix_cons. by intros (_&_&?).
    + rewrite !prefix_cons. intros (<-&<-&<-&_). by exists post.
  - intros [post ->]. change (String.prefix "zip" (String "z" (String "i" (String "p" post))) = true).
    rewrite !prefix_cons. repeat split. by destruct post.
Qed.

Lemma re_Match_iff name :
  re_Match name = true
  ↔ ∃ pre c post, name = pre +:+ String c ("zip" +:+ post) ∧ c ≠ "010"%char.
Proof.
  induction name as [|c rest IH].
  - split; [done|]. intros (pre & c & post & Heq & _). by destruct pre.
  - cbn [re_Match].
    rewrite orb_true_iff, andb_true_iff, negb_true_iff, IH, prefix_zip. split.
    + intros [[Hc [post ->]]|(pre & c' & post & -> & Hc')].
      * exists "", c, post. split; [done|]. intros ->. by rewrite Ascii.eqb_refl in Hc.
      * by exists (String c pre), c', post.
    + intros (pre & c' & post & Heq & Hc'). destruct pre as [|p pre].
      * injection Heq as -> ->. left. split; [|by exists post].
        by apply Ascii.eqb_neq.
      * injection Heq as -> ->. right. by exists pre, c', post.
Qed.

(** X1: [ParseXMLs] skips an entry of the root exactly when its name holds,
    anywhere, a character other than a line feed followed by [zip]: the
    archives [x.zip], but also a directory named [unzipped]. *)
Theorem X1_re_Match_spec name :
  re_Match name = true
  ↔ ∃ pre c post, name = pre +:+ String c ("zip" +:+ post) ∧ c ≠ "010"%char.
Proof. apply re_Match_iff. Qed.

(** ** What [ParseXMLs] leaves in the output *)

Lemma wrap64_succ a : wrap64 (wrap64 a + 1) = wrap64 (a + 1).
Proof.
  unfold wrap64. f_equal.
  replace ((a + 2 ^ 63) mod 2 ^ 64 - 2 ^ 63 + 1 + 2 ^ 63)%Z
    with ((a + 2 ^ 63) mod 2 ^ 64 + 1)%Z by lia.
  rewrite Z.add_mod_idemp_l by lia. f_equal. lia.
Qed.

Lemma wrap64_small a : (- 2 ^ 63 ≤ a < 2 ^ 63)%Z → wrap64 a = a.
Proof. intros Ha. unfold wrap64. rewrite Z.mod_small; lia. Qed.

Lemma wrap64_add_l a b : wrap64 (wrap64 a + b) = wrap64 (a + b).
Proof.
  unfold wrap64. f_equal.
  replace ((a + 2 ^ 63) mod 2 ^ 64 - 2 ^ 63 + b + 2 ^ 63)%Z
    with ((a + 2 ^ 63) mod 2 ^ 64 + b)%Z by lia.
  rewrite Z.add_mod_idemp_l by lia. f_equal. lia.
Qed.

Lemma wrap64_idemp a : wrap64 (wrap64 a) = wrap64 a.
Proof.
  transitivity (wrap64 (wrap64 a + 0)); [by rewrite Z.add_0_r|].
  by rewrite wrap64_add_l, Z.add_0_r.
Qed.

Lemma locked_write_header_first ro record sh :
  header_first (shWriter sh) → header_first (shWriter (locked_write ro record sh).2).
Proof.
  intros [[rows Hf] Hb].
  destruct (locked_write_spec ro record sh) as (_ & _ & Herr & _ & Hsome & Hnone).
  destruct ((locked_write ro record sh).1) as [err|] eqn:Hres.
  - split; [exists rows; by rewrite Hsome|].
    intros Hfail. apply Herr in Hfail. done.
  - destruct (Hnone eq_refl) as [Hf' Hb']. split; [|done].
    rewrite Hf', Hf. by eexists.
Qed.

(** Under every schedule, when [wg.Wait()] returns the output begins with
    the header and no row waits in the buffer of a writer that has not
    failed. *)
Lemma run_threads_header_first ro pick fuel n c sh :
  header_first (shWriter (shared c)) → run_threads ro pick fuel n c = Some sh →
  header_first (shWriter sh).
Proof.
  apply (run_threads_shared_inv ro pick (λ sh, header_first (shWriter sh))); try done.
  intros record sh0. apply locked_write_header_first.
Qed.

Lemma Writer_Flush_header_first w :
  header_first w →
  (∃ rows, file (Writer_Flush w) = header :: rows)
  ∧ (failed (Writer_Flush w) = false → buffered (Writer_Flush w) = [])
  ∧ file (Writer_Flush w) = file w.
Proof.
  intros [[rows Hf] Hb]. unfold Writer_Flush. destruct (failed w) eqn:Hfail.
  { split; [by exists rows|]. split; [|done]. by rewrite Hfail. }
  rewrite (Hb eq_refl). destruct (device w) as [|[] dev]; simpl;
    rewrite ?app_nil_r; by (split; [by exists rows|]).
Qed.

(** X2: under every schedule of the goroutines, from every value of [myInt],
    [ParseXMLs] returns. It leaves no output exactly when resolve.csv could
    not be created; an output it leaves is empty or begins with the header
    row; and when it returns nil, the output begins with the header, no row
    is left in the buffer and the writer has not failed. *)
Theorem X2_output_begins_with_header ro fs n0 pick :
  ∃ err out, ParseXMLs ro fs n0 pick = Some (err, out)
    ∧ (out = None ↔ can_create fs = false)
    ∧ (∀ sh, out = Some sh →
         file (shWriter sh) = [] ∨ ∃ rows, file (shWriter sh) = header :: rows)
    ∧ (err = None →
       ∃ sh rows, out = Some sh ∧ file (shWriter sh) = header :: rows
                  ∧ buffered (shWriter sh) = [] ∧ failed (shWriter sh) = false).
Proof.
  unfold ParseXMLs. destruct (can_create fs); simpl.
  2:{ eexists _, _. split; [done|]. by repeat split. }
  unfold Writer_Write at 1. simpl.
  destruct (output_device fs) as [|[] dev]; simpl.
  3:{ eexists _, _. split; [done|]. split; [by split|]. split; [|done].
      intros sh [= <-]. by left. }
  all: unfold Writer_Flush at 1, Writer_Error at 1; simpl.
  all: match goal with
       | |- context [match ?d with [] => _ | _ => _ end] => destruct d as [|[] dev']; simpl
       | _ => idtac
       end.
  all: try (eexists _, _; split; [done|]; split; [by split|]; split; [|done];
            intros sh [= <-]; by left).
  all: destruct (root_entries fs) as [reader|];
    [|eexists _, _; split; [done|]; split; [by split|]; split; [|done];
      intros sh [= <-]; right; by eexists].
  all: match goal with |- context [run_threads _ _ ?f 0 ?c0] =>
         destruct (run_threads_total ro pick f 0 c0 f (conf_steps_start _ _) (le_n _))
           as [sh Hrun];
         rewrite Hrun;
         assert (header_first (shWriter sh)) as Hh
           by (eapply run_threads_header_first; [|exact Hrun];
               split; [by exists []|done])
       end.
  all: destruct (Writer_Flush_header_first _ Hh) as ([rows Hf] & Hb & _).
  all: eexists _, _; split; [done|]; split; [by split|]; split;
    [intros sh' [= <-]; right; by exists rows|].
  all: unfold Writer_Error; destruct (failed (Writer_Flush (shWriter sh))) eqn:Hfail;
    [done|]; intros _; eexists _, rows; split; [done|]; simpl; by rewrite Hb.
Qed.

(** ** The counter *)

Lemma owes_bind {A B} (f : A → Prog B) (p : Prog A) :
  wp gh_owes (λ g _, g = 0) p 0 → (∀ a, wp gh_owes (λ g _, g = 0) (f a) 0) →
  wp gh_owes (λ g _, g = 0) (bind f p) 0.
Proof.
  intros Hp Hf. apply wp_bind. eapply wp_mono; [|exact Hp]. intros g a ->. apply Hf.
Qed.

Lemma owes_emit_row record : wp gh_owes (λ g _, g = 0) (emit_row_prog record) 0.
Proof.
  simpl. split; [done|]. intros [err|] _; simpl; [done|].
  repeat (split; [done|]). intros n. case_bool_decide; simpl; [|done].
  split; [done|]. intros n'. by split.
Qed.

Lemma owes_flatten fuel : ∀ element lastTag d prefix record,
  wp gh_owes (λ g _, g = 0) (flatten_loop_prog fuel element lastTag d prefix record) 0.
Proof.
  induction fuel as [|fuel IH]; intros element lastTag d prefix record; [done|].
  cbn [flatten_loop_prog].
  destruct (Decoder_Token d) as [[[local|local|text|]| |] d1].
  - rewrite bind_eq. apply owes_bind; [apply IH|].
    intros [[[[err|] d2] r2]|]; [done|apply IH|done].
  - case_bool_decide; [done|apply IH].
  - apply IH.
  - apply IH.
  - rewrite bind_eq. apply owes_bind; [apply owes_emit_row|done].
  - done.
Qed.

Lemma owes_generateRows root files : ∀ record,
  wp gh_owes (λ g _, g = 0) (generateRows_prog root files record) 0.
Proof.
  induction files as [|f files IH]; intros record; simpl; [done|].
  destruct (IsDir f); [apply IH|].
  destruct (opened f) as [decoder|]; [|simpl; split; [done|apply IH]].
  rewrite bind_eq. apply owes_bind; [apply owes_flatten|].
  intros [[[[err|] d1] r1]|]; simpl; [split; [done|apply IH]|apply IH|done].
Qed.

Lemma owes_goroutine path files : wp gh_owes (λ g _, g = 0) (goroutine path files) 0.
Proof.
  unfold goroutine. rewrite bind_eq. apply owes_bind; [apply owes_generateRows|].
  by intros [[[err|] r]|].
Qed.

Lemma counter_kept_main_step n0 c : counter_kept n0 c → counter_kept n0 (main_step c).
Proof.
  unfold main_step. destruct (todo c) as [|zipper rest]; [done|].
  destruct (re_Match _); [done|]. unfold counter_kept.
  destruct (shard_files zipper) as [files|]; cbn [todo running shared]; [|done].
  intros (Hh & Hn & gs & Hrun & Hsum). repeat (split; [done|]).
  exists (gs ++ [0]). split.
  - apply Forall2_app; [done|]. constructor; [apply owes_goroutine|constructor].
  - rewrite sum_list_with_app. simpl. by rewrite !Nat.add_0_r.
Qed.

Lemma counter_kept_goroutine_step ro n0 i c :
  counter_kept n0 c → counter_kept n0 (goroutine_step ro i c).
Proof.
  intros Hc.
  destruct (goroutine_step_cases ro i c) as [->|[(a & Hi & ->)|(p & Hi & ->)]]; [done|..];
    destruct Hc as (Hh & Hn & gs & Hrun & Hsum);
    unfold counter_kept; cbn [todo running shared];
    destruct (Forall2_lookup_l _ _ _ _ _ Hrun Hi) as (g & Hg & Hp).
  - repeat (split; [done|]). exists (delete i gs). split; [by apply Forall2_delete|].
    simpl in Hp. subst g. pose proof (sum_list_delete _ _ _ Hg) as Hs.
    rewrite Nat.add_0_r in Hs. by rewrite Hs.
  - destruct p as [a|record k|k|k|e k].
    + simpl. rewrite list_insert_id by done. repeat (split; [done|]). by exists gs.
    + rewrite prog_step_DoRow. cbn [fst snd].
      destruct Hp as [Hzero Hp]. simpl in Hzero. subst g.
      split; [by apply locked_write_header_first|].
      destruct (locked_write_spec ro record (shared c))
        as (Hint & _ & Herr & Hfailed & Hsome & Hnone).
      rewrite Hint. split; [done|].
      destruct ((locked_write ro record (shared c)).1) as [err|] eqn:Hres.
      * exists (<[i := 0]> gs). split; [apply Forall2_insert; [done|by apply Hp]|].
        rewrite list_insert_id by done. by rewrite Hsome.
      * exists (<[i := 1]> gs). split; [apply Forall2_insert; [done|by apply Hp]|].
        pose proof (sum_list_insert _ _ _ 1 Hg) as Hs. rewrite Nat.add_0_r in Hs.
        rewrite Hs. destruct (Hnone eq_refl) as [Hf' _].
        assert (failed (shWriter (shared c)) = false) as Hfail.
        { destruct (failed (shWriter (shared c))) eqn:Hfail; [|done].
          rewrite (Hfailed eq_refl) in Herr. simpl in Herr. rewrite Hfail in Herr.
          by destruct Herr as [Herr _]; specialize (Herr eq_refl). }
        destruct Hh as [[rows Hf] Hb]. rewrite Hf', (Hb Hfail), Hf in *. simpl in *.
        rewrite length_app, !Nat2Z.inj_add. simpl.
        rewrite !Z.add_assoc, <-(wrap64_succ (_ + Z.of_nat (sum_list gs))), Hsum.
        by rewrite wrap64_succ.
    + simpl in *. destruct Hp as [-> Hp]. split; [done|].
      split; [apply wrap64_idemp|]. exists (<[i := 0]> gs).
      split; [apply Forall2_insert; [done|apply Hp]|].
      pose proof (sum_list_insert _ _ _ 0 Hg) as Hs. rewrite wrap64_add_l, <-Hsum.
      f_equal. lia.
    + simpl in *. repeat (split; [done|]). exists gs. split; [|done].
      rewrite <-(list_insert_id gs i g Hg). apply Forall2_insert; [done|apply Hp].
    + simpl in *. repeat (split; [done|]). exists gs. split; [|done].
      rewrite <-(list_insert_id gs i g Hg). apply Forall2_insert; [done|apply Hp].
Qed.

(** X3: under every schedule of the goroutines, when [ParseXMLs] returns
    with an output, [myInt] has advanced by the number of rows that follow
    the header in the output, counted on 64 bits: by one for each row
    written and flushed, not by one for each file. *)
Theorem X3_counter_is_number_of_rows ro fs n0 pick :
  (- 2 ^ 63 ≤ n0 < 2 ^ 63)%Z →
  ∃ err out, ParseXMLs ro fs n0 pick = Some (err, out)
    ∧ ∀ sh, out = Some sh →
        shInt sh = wrap64 (n0 + Z.of_nat (length (tail (file (shWriter sh)))))
        ∧ ((n0 + Z.of_nat (length (tail (file (shWriter sh)))) < 2 ^ 63)%Z →
           shInt sh = (n0 + Z.of_nat (length (tail (file (shWriter sh)))))%Z).
Proof.
  intros Hn0.
  assert (∀ (sh : Shared),
            shInt sh = wrap64 (n0 + Z.of_nat (length (tail (file (shWriter sh))))) →
            shInt sh = wrap64 (n0 + Z.of_nat (length (tail (file (shWriter sh)))))
            ∧ ((n0 + Z.of_nat (length (tail (file (shWriter sh)))) < 2 ^ 63)%Z →
               shInt sh = (n0 + Z.of_nat (length (tail (file (shWriter sh)))))%Z))
    as Hboth.
  { intros sh Hsh. split; [done|]. intros Hlt. rewrite Hsh. apply wrap64_small. lia. }
  assert (∀ dev, wrap64 (n0 + Z.of_nat (length (tail (file (mkWriter [] [] true dev))))) = n0)
    as Hstart by (intros dev; simpl; rewrite Z.add_0_r; by apply wrap64_small).
  unfold ParseXMLs. destruct (can_create fs); simpl; [|by eexists _, _].
  unfold Writer_Write at 1. simpl.
  destruct (output_device fs) as [|[] dev]; simpl.
  3:{ eexists _, _. split; [done|]. intros sh [= <-]. apply Hboth. simpl.
      rewrite Z.add_0_r. symmetry. by apply wrap64_small. }
  all: unfold Writer_Flush at 1, Writer_Error at 1; simpl.
  all: match goal with
       | |- context [match ?d with [] => _ | _ => _ end] => destruct d as [|[] dev']; simpl
       | _ => idtac
       end.
  all: try (eexists _, _; split; [done|]; intros sh [= <-]; apply Hboth; simpl;
            rewrite Z.add_0_r; symmetry; by apply wrap64_small).
  all: destruct (root_entries fs) as [reader|];
    [|eexists _, _; split; [done|]; intros sh [= <-]; apply Hboth; simpl;
      rewrite Z.add_0_r; symmetry; by apply wrap64_small].
  all: match goal with |- context [run_threads _ _ ?f 0 ?c0] =>
         destruct (run_threads_total ro pick f 0 c0 f (conf_steps_start _ _) (le_n _))
           as [sh Hrun];
         rewrite Hrun;
         destruct (run_threads_inv ro pick (counter_kept n0)) with (4:=Hrun)
           as (c' & (Hh & Hn & gs & Hgs & Hsum) & _ & Hr & <-);
         [apply counter_kept_main_step|apply counter_kept_goroutine_step| |]
       end.
  all: try (split; [by split; [by exists []|]|]; split; [by apply wrap64_small|];
            exists []; by split).
  all: rewrite Hr in Hgs; apply Forall2_nil_inv_l in Hgs as ->; simpl in Hsum;
    rewrite Z.add_0_r, Hn in Hsum.
  all: destruct (Writer_Flush_header_first _ Hh) as (_ & _ & Hf).
  all: eexists _, _; split; [done|]; intros sh' [= <-]; apply Hboth; simpl;
    by rewrite Hf.
Qed.

Lemma X3_counter_is_number_of_rows_witness :
  (- 2 ^ 63 ≤ 5 < 2 ^ 63)%Z
  ∧ ∃ err out, ParseXMLs range_sorted (two_shards []) 5 (λ n, n) = Some (err, out)
    ∧ ∀ sh, out = Some sh →
        shInt sh = wrap64 (5 + Z.of_nat (length (tail (file (shWriter sh)))))
        ∧ ((5 + Z.of_nat (length (tail (file (shWriter sh)))) < 2 ^ 63)%Z →
           shInt sh = (5 + Z.of_nat (length (tail (file (shWriter sh)))))%Z).
Proof.
  split; [lia|].
  apply (X3_counter_is_number_of_rows range_sorted (two_shards []) 5 (λ n, n)). lia.
Defined.

(** ** Files that are not read *)

Lemma generateRows_passed_over ro root files : ∀ s,
  Forall passed_over files →
  generateRows ro root files s
  = Some (None, mkState (Rec s) (Writer s) (myInt s)
                  (logged s ++ open_errors root files) (ranges s)).
Proof.
  induction files as [|f files IH]; intros s Hall.
  - simpl. unfold open_errors. simpl. rewrite app_nil_r. by destruct s.
  - apply Forall_cons in Hall as [Hf Hall]. simpl. rewrite !IH by done.
    unfold open_errors. rewrite filter_cons. destruct (IsDir f) eqn:Hdir.
    + case_decide; [congruence|done].
    + case_decide; [|congruence]. destruct Hf as [?|Hopen]; [congruence|].
      rewrite Hopen. simpl. by rewrite <-app_assoc.
Qed.

(** X4: directories and files that cannot be opened are passed over: over a
    list of such entries [generateRows] returns nil and changes neither the
    record nor the writer nor the counter; it logs one line for each entry
    that is no directory, in the order of the listing. *)
Theorem X4_unreadable_entries_passed_over ro root files s :
  Forall passed_over files →
  ∃ s', generateRows ro root files s = Some (None, s')
        ∧ Rec s' = Rec s ∧ Writer s' = Writer s ∧ myInt s' = myInt s
        ∧ logged s' = logged s ++ open_errors root files.
Proof. intros Hall. eexists. by rewrite generateRows_passed_over. Qed.

Lemma X4_unreadable_entries_passed_over_witness :
  Forall passed_over [mkEntry "sub" true None; mkEntry "locked.xml" false None]
  ∧ ∃ s', generateRows range_sorted "2024_TEOS_XML_01A"
            [mkEntry "sub" true None; mkEntry "locked.xml" false None]
            (empty_state []) = Some (None, s')
          ∧ Rec s' = Rec (empty_state []) ∧ Writer s' = Writer (empty_state [])
          ∧ myInt s' = myInt (empty_state [])
          ∧ logged s' = logged (empty_state [])
                        ++ open_errors "2024_TEOS_XML_01A"
                             [mkEntry "sub" true None; mkEntry "locked.xml" false None].
Proof.
  assert (Forall passed_over [mkEntry "sub" true None; mkEntry "locked.xml" false None])
    as Hall.
  { apply Forall_cons. split; [by left|].
    apply Forall_cons. split; [by right|]. apply Forall_nil_2. }
  split; [done|].
  by apply (X4_unreadable_entries_passed_over range_sorted "2024_TEOS_XML_01A"
              [mkEntry "sub" true None; mkEntry "locked.xml" false None] (empty_state [])).
Defined.

(** ** The writer once it has failed *)









(** Such a log: a document read to its end, a directory, a file that
    cannot be opened and a document that is cut. *)
Example failure_log_of_a_listing :
  documents_nested
    [mkEntry "a.xml" false (Some doc_a); mkEntry "sub" true None;
     mkEntry "locked.xml" false None; mkEntry "cut.xml" false (Some doc_cut)]
  ∧ failure_log "2024_TEOS_XML_01A"
      [mkEntry "a.xml" false (Some doc_a); mkEntry "sub" true None;
       mkEntry "locked.xml" false None; mkEntry "cut.xml" false (Some doc_cut)]
    = [LogParseError "2024_TEOS_XML_01A" "a.xml" ErrWriteRow;
       LogOpenError "2024_TEOS_XML_01A" "locked.xml";
       LogParseError "2024_TEOS_XML_01A" "cut.xml" ErrXMLParsing].
Proof.
  split; [|reflexivity].
  apply Forall_cons. split; [intros d [= <-]; by eexists|].
  apply Forall_cons. split; [by intros d [=]|].
  apply Forall_cons. split; [by intros d [=]|].
  apply Forall_cons. split; [intros d [= <-]; by eexists|].
  apply Forall_nil_2.
Qed.

(** ** Strings *)

Lemma append_length (a b : string) :
  String.length (a +:+ b) = String.length a + String.length b.
Proof.
  induction a as [|c a IH]; [done|].
  change (S (String.length (a +:+ b)) = S (String.length a + String.length b)).
  by rewrite IH.
Qed.

(** ** A root without anything to read *)

Lemma logs_generateRows root files : ∀ record,
  Forall passed_over files →
  wp gh_logs (λ _ _, True) (generateRows_prog root files record) tt.
Proof.
  induction files as [|f files IH]; intros record Hall; simpl; [done|].
  apply Forall_cons in Hall as [Hf Hall].
  destruct (IsDir f) eqn:Hdir; [by apply IH|].
  destruct Hf as [?|Hopen]; [congruence|]. rewrite Hopen. simpl. split; [done|].
  by apply IH.
Qed.

Lemma logs_goroutine path files :
  Forall passed_over files → wp gh_logs (λ _ _, True) (goroutine path files) tt.
Proof.
  intros Hall. unfold goroutine. rewrite bind_eq. apply wp_bind.
  eapply wp_mono; [|by apply logs_generateRows].
  by intros [] [[[err|] r]|] _.
Qed.

Lemma nothing_done_main_step w n0 c : nothing_done w n0 c → nothing_done w n0 (main_step c).
Proof.
  unfold main_step. destruct (todo c) as [|zipper rest] eqn:Ht; [done|].
  unfold nothing_done. rewrite Ht. intros (Hw & Hn & Hrun & Hall).
  apply Forall_cons in Hall as [Hz Hall].
  destruct (re_Match (shard_name zipper)) eqn:Hre; [done|].
  destruct Hz as [?|[Hnone|(files & Hfiles & Hpassed)]]; [congruence|..].
  - by rewrite Hnone.
  - rewrite Hfiles. cbn [todo running shared]. repeat (split; [done|]).
    split; [|done]. apply Forall_app. split; [done|].
    by apply Forall_singleton, logs_goroutine.
Qed.

Lemma nothing_done_goroutine_step ro w n0 i c :
  nothing_done w n0 c → nothing_done w n0 (goroutine_step ro i c).
Proof.
  intros Hc.
  destruct (goroutine_step_cases ro i c) as [->|[(a & Hi & ->)|(p & Hi & ->)]]; [done|..];
    destruct Hc as (Hw & Hn & Hrun & Hall); unfold nothing_done;
    cbn [todo running shared].
  - repeat (split; [done|]). split; [by apply Forall_delete|done].
  - pose proof (Forall_lookup_1 _ _ _ _ Hrun Hi) as Hp.
    destruct p as [a|record k|k|k|e k]; simpl in Hp; try by destruct Hp.
    + simpl. by rewrite list_insert_id.
    + simpl. repeat (split; [done|]). split; [|done].
      apply Forall_insert; [done|apply Hp].
Qed.

(** X6: a root that holds nothing to read (no entry at all, or only
    archives, directories that cannot be listed and shards whose entries
    are directories or cannot be opened) gives the header row and nothing
    else: under every schedule [ParseXMLs] returns nil, the output is the
    header, and [myInt] holds what it held before the call. *)
Theorem X6_nothing_to_read_gives_the_header ro fs entries n0 pick :
  can_create fs = true → output_device fs = [] → root_entries fs = Some entries →
  Forall nothing_to_read entries →
  ∃ sh, ParseXMLs ro fs n0 pick = Some (None, Some sh)
        ∧ file (shWriter sh) = [header] ∧ buffered (shWriter sh) = []
        ∧ shInt sh = n0.
Proof.
  intros Hcreate Hdev Hroot Hall.
  rewrite (ParseXMLs_working _ _ _ _ _ Hdev Hcreate Hroot).
  destruct (run_threads_total ro pick (entries_steps entries) 0
              (mkConf entries [] (mkShared (mkWriter [header] [] false []) n0 [] 0))
              (entries_steps entries) (conf_steps_start _ _) (le_n _)) as [sh Hrun].
  rewrite Hrun.
  destruct (run_threads_inv ro pick (nothing_done (mkWriter [header] [] false []) n0))
    with (4:=Hrun) as (c' & (Hw & Hn & _) & _ & _ & <-).
  - apply nothing_done_main_step.
  - apply nothing_done_goroutine_step.
  - by repeat split.
  - rewrite Hw. eexists. split; [reflexivity|]. by repeat split.
Qed.

Lemma X6_nothing_to_read_gives_the_header_witness :
  ∃ sh, ParseXMLs range_sorted idle_root 7 (λ n, n) = Some (None, Some sh)
        ∧ file (shWriter sh) = [header] ∧ buffered (shWriter sh) = []
        ∧ shInt sh = 7%Z.
Proof.
  apply (X6_nothing_to_read_gives_the_header range_sorted idle_root
           (default [] (root_entries idle_root)) 7 (λ n, n)); [reflexivity..|].
  apply Forall_cons. split; [by left|].
  apply Forall_cons. split; [right; by left|].
  apply Forall_cons. split; [|apply Forall_nil_2].
  right; right. eexists. split; [reflexivity|].
  apply Forall_cons. split; [by left|].
  apply Forall_cons. split; [by right|apply Forall_nil_2].
Defined.

(** ** The rows of a complete document *)

(** X7: a document that the decoder reads to [io.EOF] with its tags properly
    nested, while the writer works, makes [flatten] return nil with the
    whole document read, and puts at least one row into the output, also
    when the document is empty; every row it puts there is an enumeration
    of the cells of the record as it is at the end of the document. *)
Theorem X7_complete_document_gets_a_row ro fuel decoder s :
  length (pending decoder) < fuel →
  ending decoder = AtEOF → is_Some (nested [] (pending decoder)) →
  working (Writer s) →
  ∃ d' s', flatten ro fuel "" decoder "" s = Some (None, d', s')
           ∧ pending d' = [] ∧ working (Writer s')
           ∧ ∃ row rows, accepted (Writer s') = accepted (Writer s) ++ row :: rows
                         ∧ Forall (λ r, r ≡ₚ cells (Rec s')) (row :: rows).
Proof.
  intros Hfuel Hend Hnest Hw.
  destruct (flatten_loop_total ro fuel "" "" decoder "" s Hfuel)
    as (err & d' & s' & Hfl & _).
  pose proof (flatten_loop_run _ _ _ _ _ _ _ _ Hfl) as Hrun.
  destruct (flatten_run_working _ _ _ _ _ _ _ Hrun Hend Hw [] Hnest)
    as (Hnone & Hw' & Hcase). simpl in *. subst err.
  exists d', s'. split; [done|].
  split; [by destruct (flatten_run_reads_all _ _ _ _ _ _ _ Hrun Hnest)|].
  split; [done|].
  destruct Hcase as [(row & rows & Hacc)|(_ & _ & ? & _ & _ & Hl)]; [|simpl in Hl; lia].
  exists row, rows. split; [done|].
  destruct (flatten_run_rows _ _ _ _ _ _ _ Hrun) as (new & Hacc' & Hnew). simpl in *.
  rewrite Hacc in Hacc'. by apply app_inv_head in Hacc' as <-.
Qed.

Lemma X7_complete_document_gets_a_row_witness :
  ∃ d' s', flatten range_sorted 11 "" worked_example "" (empty_state [])
           = Some (None, d', s')
           ∧ pending d' = [] ∧ working (Writer s')
           ∧ ∃ row rows, accepted (Writer s')
                         = accepted (Writer (empty_state [])) ++ row :: rows
                         ∧ Forall (λ r, r ≡ₚ cells (Rec s')) (row :: rows).
Proof.
  apply (X7_complete_document_gets_a_row range_sorted 11 worked_example (empty_state [])).
  - simpl. lia.
  - reflexivity.
  - vm_compute. by eexists.
  - split; reflexivity.
Defined.

(** ** The number of rows of a document *)

Lemma flatten_run_row_bound ro element lastTag d prefix s res :
  flatten_run ro element lastTag d prefix s res →
  ∃ rows, accepted (Writer res.2) = accepted (Writer s) ++ rows
          ∧ length rows + length (start_names (pending res.1.2))
            ≤ S (length (start_names (pending d))).
Proof.
  induction 1 as [????? Hp He| ????? Hp He
                  |?????????? Hp Hin IHin
                  |?????????? Hp Hin IHin Hrest IHrest
                  |???????? Hp Hrest IHrest
                  |?????? Hp
                  |???????? Hp Hne Hrest IHrest
                  |??????? Hp Hrest IHrest];
    simpl in *; rewrite ?Hp; simpl.
  - destruct (emit_row_accepted ro s) as (rows & Hacc & [->| ->] & _);
      eexists; (split; [exact Hacc|]); simpl; lia.
  - exists []. rewrite app_nil_r. split; [done|]. simpl. lia.
  - destruct IHin as (rows & Hacc & Hlen). exists rows. split; [done|]. lia.
  - destruct IHin as (rows1 & Hacc1 & Hlen1), IHrest as (rows2 & Hacc2 & Hlen2).
    exists (rows1 ++ rows2). split; [by rewrite Hacc2, Hacc1, app_assoc|].
    rewrite length_app. lia.
  - destruct IHrest as (rows & Hacc & Hlen). exists rows. split; [done|]. lia.
  - exists []. rewrite app_nil_r. split; [done|]. simpl. lia.
  - destruct IHrest as (rows & Hacc & Hlen). exists rows. split; [done|]. lia.
  - destruct IHrest as (rows & Hacc & Hlen). exists rows. split; [done|]. lia.
Qed.

(** X8: [flatten] never writes more rows for a document than it has start
    elements, and one: each call of [flatten] writes at most one row, when
    it meets the end of the input. A document without any element gets
    one row at most. *)
Theorem X8_rows_bounded_by_start_elements ro fuel decoder s :
  length (pending decoder) < fuel →
  ∃ err d' s' rows,
    flatten ro fuel "" decoder "" s = Some (err, d', s')
    ∧ accepted (Writer s') = accepted (Writer s) ++ rows
    ∧ length rows ≤ S (length (start_names (pending decoder))).
Proof.
  intros Hfuel.
  destruct (flatten_loop_total ro fuel "" "" decoder "" s Hfuel)
    as (err & d' & s' & Hfl & _).
  destruct (flatten_run_row_bound _ _ _ _ _ _ _ (flatten_loop_run _ _ _ _ _ _ _ _ Hfl))
    as (rows & Hacc & Hlen). simpl in *.
  exists err, d', s', rows. split; [done|]. split; [done|]. lia.
Qed.

Lemma X8_rows_bounded_by_start_elements_witness :
  ∃ err d' s' rows,
    flatten range_sorted 11 "" worked_example "" (empty_state []) = Some (err, d', s')
    ∧ accepted (Writer s') = accepted (Writer (empty_state [])) ++ rows
    ∧ length rows ≤ S (length (start_names (pending worked_example))).
Proof.
  apply (X8_rows_bounded_by_start_elements range_sorted 11 worked_example
           (empty_state [])).
  simpl. lia.
Defined.

(** ** The width of the rows of a shard *)

Lemma record_le_size r1 r2 : record_le r1 r2 → size r1 ≤ size r2.
Proof.
  intros Hle. rewrite <-!(size_dom (D:=gset string)). apply subseteq_size.
  intros k [vs Hk]%elem_of_dom. destruct (Hle _ _ Hk) as [more Hk'].
  apply elem_of_dom. by eexists.
Qed.

Lemma widths_grow_app n rows1 rows2 :
  widths_grow rows1 → widths_grow rows2 →
  Forall (λ r : Row, length r ≤ n) rows1 → Forall (λ r : Row, n ≤ length r) rows2 →
  widths_grow (rows1 ++ rows2).
Proof.
  intros H1 H2 Hle Hge i j r1 r2 Hij Hi Hj.
  apply lookup_app_Some in Hi as [Hi|[Hi1 Hi]], Hj as [Hj|[Hj1 Hj]].
  - by eapply H1.
  - rewrite Forall_lookup in Hle, Hge. specialize (Hle _ _ Hi).
    specialize (Hge _ _ Hj). simpl in *. lia.
  - apply lookup_lt_Some in Hj. lia.
  - eapply (H2 (i - length rows1) (j - length rows1)); [lia|done..].
Qed.

Lemma widths_grow_same n rows :
  Forall (λ r : Row, length r = n) rows → widths_grow rows.
Proof.
  intros Hall i j r1 r2 _ Hi Hj. rewrite Forall_lookup in Hall.
  by rewrite (Hall _ _ Hi), (Hall _ _ Hj).
Qed.

Lemma generateRows_widths ro root files : ∀ s res,
  generateRows ro root files s = Some res →
  ∃ rows, accepted (Writer res.2) = accepted (Writer s) ++ rows
          ∧ widths_grow rows
          ∧ Forall (λ r : Row, size (Rec s) ≤ length r ≤ size (Rec res.2)) rows.
Proof.
  induction files as [|f files IH]; intros s res; simpl.
  { intros [= <-]. exists []. rewrite app_nil_r. split; [done|].
    split; [by intros ???? _ ?|done]. }
  destruct (IsDir f); [by apply IH|].
  destruct (opened f) as [decoder|]; [|intros Hgen; exact (IH _ _ Hgen)].
  destruct (flatten ro _ "" decoder "" s) as [[[err d'] s']|] eqn:Hfl; [|done].
  apply flatten_loop_run in Hfl. intros Hgen.
  destruct (flatten_run_rows _ _ _ _ _ _ _ Hfl) as (rows1 & Hacc1 & Hrows1).
  pose proof (record_le_size _ _ (flatten_run_record_le _ _ _ _ _ _ _ Hfl)) as Hsz1.
  simpl in *.
  assert (∃ rows, accepted (Writer res.2) = accepted (Writer s') ++ rows
                  ∧ widths_grow rows
                  ∧ Forall (λ r : Row, size (Rec s') ≤ length r ≤ size (Rec res.2)) rows)
    as (rows2 & Hacc2 & Hgrow2 & Hrows2) by (destruct err; exact (IH _ _ Hgen)).
  assert (size (Rec s') ≤ size (Rec res.2)) as Hsz2.
  { apply record_le_size. destruct err; exact (generateRows_record_le _ _ _ _ _ Hgen). }
  assert (Forall (λ r : Row, length r = size (Rec s')) rows1) as Hlen1.
  { eapply Forall_impl; [exact Hrows1|]. intros r Hr. simpl in Hr.
    by rewrite Hr, cells_length. }
  exists (rows1 ++ rows2). split; [by rewrite Hacc2, Hacc1, app_assoc|]. split.
  - apply (widths_grow_app (size (Rec s'))).
    + by apply (widths_grow_same (size (Rec s'))).
    + done.
    + eapply Forall_impl; [exact Hlen1|]. intros r Hr. simpl in *. lia.
    + eapply Forall_impl; [exact Hrows2|]. intros r Hr. simpl in *. lia.
  - apply Forall_app. split.
    + eapply Forall_impl; [exact Hlen1|]. intros r Hr. simpl in *. lia.
    + eapply Forall_impl; [exact Hrows2|]. intros r Hr. simpl in *. lia.
Qed.

(** X9: within one shard the rows never get narrower: [generateRows] only
    appends rows to the output, none of them has fewer cells than the
    record had keys at the start, and none is wider than a row written
    after it. *)
Theorem X9_rows_of_a_shard_never_narrow ro root files s :
  ∃ s' rows, generateRows ro root files s = Some (None, s')
             ∧ accepted (Writer s') = accepted (Writer s) ++ rows
             ∧ Forall (λ r : Row, size (Rec s) ≤ length r) rows
             ∧ ∀ i j r1 r2, i ≤ j → rows !! i = Some r1 → rows !! j = Some r2 →
                            length r1 ≤ length r2.
Proof.
  destruct (generateRows_total ro root files s) as [s' Hgen].
  destruct (generateRows_widths _ _ _ _ _ Hgen) as (rows & Hacc & Hgrow & Hrows).
  exists s', rows. split; [done|]. split; [done|]. split; [|exact Hgrow].
  eapply Forall_impl; [exact Hrows|]. intros r Hr. simpl in *. lia.
Qed.

(** ** One shard: the run is that of [generateRows] *)

(** A goroutine that is the only one takes its steps one after the other. *)
Lemma run_threads_single ro pick fuel : ∀ n p sh sh',
  run_threads ro pick fuel n (mkConf [] [p] sh) = Some sh' →
  sh' = (run_alone ro p sh).2.
Proof.
  induction fuel as [|fuel IH]; intros n p sh sh'; [done|].
  cbn [run_threads todo running]. unfold step, main_enabled. cbn [todo running length].
  rewrite Nat.mod_1_r. unfold goroutine_step. cbn [running lookup list_lookup].
  destruct p as [a|record k|k|k|e k].
  - cbn [delete list_delete todo shared]. destruct fuel; simpl; by intros [= <-].
  - rewrite prog_step_DoRow. cbn [insert list_insert todo shared]. intros Hrun.
    apply IH in Hrun as ->. simpl. by destruct (locked_write ro record sh).
  - cbn [prog_step insert list_insert todo shared]. by intros ->%IH.
  - cbn [prog_step insert list_insert todo shared]. by intros ->%IH.
  - cbn [prog_step insert list_insert todo shared]. by intros ->%IH.
Qed.

Lemma run_alone_goroutine ro path files s s' :
  generateRows ro path files s = Some (None, s') → Rec s = ∅ →
  run_alone ro (goroutine path files) (shared_of s) = (tt, shared_of s').
Proof.
  intros Hgen Hrec. unfold goroutine. rewrite bind_eq, run_alone_bind, <-Hrec.
  by rewrite (run_alone_generateRows _ _ _ _ _ _ Hgen).
Qed.

(** X17: for a root with a single shard, every schedule gives the run of
    [generateRows]. Once the header is in the output, [ParseXMLs] returns
    what the final flush makes of the state in which [generateRows], called
    for the listing of the shard with an empty record, the writer after the
    header and [myInt] as it was, leaves the writer, the counter and the
    log. *)
Theorem X17_one_shard_runs_as_generateRows ro name files dev n0 pick w :
  re_Match name = false →
  Writer_Write header (mkWriter [] [] false dev) = (true, w) →
  Writer_Error (Writer_Flush w) = false →
  ∃ s', generateRows ro (GoFilepath.Join pathway name) files
          (mkState ∅ (Writer_Flush w) n0 [] 0) = Some (None, s')
        ∧ ParseXMLs ro (mkFS true dev (Some [mkShard name (Some files)])) n0 pick
          = Some (if Writer_Error (Writer_Flush (Writer s')) then Some ErrFinalFlush
                  else None,
                  Some (mkShared (Writer_Flush (Writer s')) (myInt s') (logged s')
                          (ranges s'))).
Proof.
  intros Hre Hwrite Hflush.
  destruct (generateRows_total ro (GoFilepath.Join pathway name) files
              (mkState ∅ (Writer_Flush w) n0 [] 0)) as [s' Hgen].
  exists s'. split; [done|].
  unfold ParseXMLs. cbn [can_create output_device root_entries negb shWriter].
  rewrite Hwrite. cbn [negb]. rewrite Hflush.
  cbn [entries_steps shard_files Nat.add run_threads todo running].
  unfold step, main_enabled, main_step.
  cbn [todo running shared shard_name shard_files length]. rewrite Hre.
  cbn [orb]. rewrite (bool_decide_true (0 < MAXPROCS)) by (unfold MAXPROCS; lia).
  rewrite orb_true_r, Nat.mod_1_r. cbn [app].
  set (sh0 := mkShared (Writer_Flush w) n0 [] 0).
  set (p := goroutine (GoFilepath.Join pathway name) files).
  destruct (run_threads_total ro pick (files_steps files + 2 + 0) 1 (mkConf [] [p] sh0)
              (files_steps files + 2)) as [sh Hrun]; [|lia|].
  { exists [files_steps files + 1]. split.
    - constructor; [apply steps_goroutine|constructor].
    - simpl. lia. }
  rewrite Hrun. apply run_threads_single in Hrun as ->.
  subst p. rewrite (run_alone_goroutine ro _ files (mkState ∅ (Writer_Flush w) n0 [] 0) s')
    by done.
  by destruct s'.
Qed.

Lemma X17_one_shard_runs_as_generateRows_witness :
  re_Match "2024_TEOS_XML_01A" = false
  ∧ Writer_Write header (mkWriter [] [] false [true; true; true; false])
    = (true, mkWriter [] [header] false [true; true; false])
  ∧ Writer_Error (Writer_Flush (mkWriter [] [header] false [true; true; false])) = false
  ∧ ∃ s', generateRows range_sorted (GoFilepath.Join pathway "2024_TEOS_XML_01A")
            [mkEntry "a.xml" false (Some doc_a); mkEntry "b.xml" false (Some doc_b)]
            (mkState ∅ (Writer_Flush (mkWriter [] [header] false [true; true; false]))
               5 [] 0) = Some (None, s')
          ∧ ParseXMLs range_sorted
              (mkFS true [true; true; true; false]
                 (Some [mkShard "2024_TEOS_XML_01A"
                          (Some [mkEntry "a.xml" false (Some doc_a);
                                 mkEntry "b.xml" false (Some doc_b)])]))
              5 second_first
            = Some (if Writer_Error (Writer_Flush (Writer s')) then Some ErrFinalFlush
                    else None,
                    Some (mkShared (Writer_Flush (Writer s')) (myInt s') (logged s')
                            (ranges s'))).
Proof.
  split; [reflexivity|]. split; [reflexivity|]. split; [reflexivity|].
  apply (X17_one_shard_runs_as_generateRows range_sorted "2024_TEOS_XML_01A"
           [mkEntry "a.xml" false (Some doc_a); mkEntry "b.xml" false (Some doc_b)]
           [true; true; true; false] 5 second_first
           (mkWriter [] [header] false [true; true; false])); reflexivity.
Defined.

(** * Properties of the unpacking *)

(** ** Strings *)

Lemma append_cons c (a b : string) : String c a +:+ b = String c (a +:+ b).
Proof. done. Qed.

Lemma append_nil_l (b : string) : "" +:+ b = b.
Proof. done. Qed.

Lemma append_inv_head (a b1 b2 : string) : a +:+ b1 = a +:+ b2 → b1 = b2.
Proof.
  induction a as [|c a IH]; [done|]. rewrite !append_cons. intros [= ?]. by apply IH.
Qed.

Lemma slice_to_app (a b : string) : GoStr.slice_to (String.length a) (a +:+ b) = a.
Proof. induction a as [|c a IH]; [by destruct b|]. rewrite append_cons. simpl. by rewrite IH. Qed.

Lemma slice_from_app (a b : string) : GoStr.slice_from (String.length a) (a +:+ b) = b.
Proof. induction a as [|c a IH]; [by destruct b|]. rewrite append_cons. simpl. by rewrite IH. Qed.

Lemma slice_to_from n (s : string) : GoStr.slice_to n s +:+ GoStr.slice_from n s = s.
Proof.
  revert s. induction n as [|n IH]; intros [|c s]; simpl; try done.
  by rewrite append_cons, IH.
Qed.

Lemma HasPrefix_spec (s p : string) :
  GoStr.HasPrefix s p = true ↔ ∃ rest, s = p +:+ rest.
Proof.
  unfold GoStr.HasPrefix. rewrite andb_true_iff, Nat.leb_le, String.eqb_eq. split.
  - intros [_ Heq]. exists (GoStr.slice_from (String.length p) s).
    rewrite <-(slice_to_from (String.length p) s) at 1. by rewrite Heq.
  - intros [rest ->]. rewrite append_length, slice_to_app. split; [lia|done].
Qed.

Lemma HasSuffix_spec (s suffix : string) :
  GoStr.HasSuffix s suffix = true ↔ ∃ pre, s = pre +:+ suffix.
Proof.
  unfold GoStr.HasSuffix. rewrite andb_true_iff, Nat.leb_le, String.eqb_eq. split.
  - intros [_ Heq]. exists (GoStr.slice_to (String.length s - String.length suffix) s).
    rewrite <-(slice_to_from (String.length s - String.length suffix) s) at 1.
    by rewrite Heq.
  - intros [pre ->]. rewrite append_length.
    replace (String.length pre + String.length suffix - String.length suffix)
      with (String.length pre) by lia.
    rewrite slice_from_app. split; [lia|done].
Qed.

Lemma TrimSuffix_app (pre suffix : string) : GoStr.TrimSuffix (pre +:+ suffix) suffix = pre.
Proof.
  unfold GoStr.TrimSuffix.
  assert (GoStr.HasSuffix (pre +:+ suffix) suffix = true) as ->
    by (apply HasSuffix_spec; by exists pre).
  rewrite append_length.
  replace (String.length pre + String.length suffix - String.length suffix)
    with (String.length pre) by lia.
  apply slice_to_app.
Qed.

(** ** Paths and their elements *)

Lemma is_separator_true c : GoFilepath.is_separator c = true ↔ c = "/"%char.
Proof. unfold GoFilepath.is_separator. apply Ascii.eqb_eq. Qed.

Lemma has_separator_app (a b : string) :
  GoFilepath.has_separator (a +:+ b)
  = GoFilepath.has_separator a || GoFilepath.has_separator b.
Proof.
  induction a as [|c a IH]; [done|]. rewrite append_cons. simpl.
  by rewrite IH, orb_assoc.
Qed.

Lemma split_cons path : ∃ elem elems, GoFilepath.split path = elem :: elems.
Proof.
  induction path as [|c path (elem & elems & IH)]; simpl; [by eexists _, _|].
  destruct (GoFilepath.is_separator c); [by eexists _, _|]. rewrite IH. by eexists _, _.
Qed.

Lemma split_no_separator path :
  GoFilepath.has_separator path = false → GoFilepath.split path = [path].
Proof.
  induction path as [|c path IH]; [done|]. simpl.
  intros [Hc Hp]%orb_false_iff. by rewrite Hc, IH.
Qed.

Lemma split_elems path :
  Forall (λ elem, GoFilepath.has_separator elem = false) (GoFilepath.split path).
Proof.
  induction path as [|c path IH]; simpl; [by repeat constructor|].
  destruct (GoFilepath.is_separator c) eqn:Hc; [by constructor|].
  destruct (split_cons path) as (elem & elems & Hs). rewrite Hs in *.
  apply Forall_cons in IH as [He Hes]. constructor; [|done]. simpl. by rewrite Hc.
Qed.

Lemma split_app (a b : string) :
  GoFilepath.split (a +:+ "/" +:+ b) = GoFilepath.split a ++ GoFilepath.split b.
Proof.
  induction a as [|c a IH]; [done|]. rewrite append_cons. simpl. rewrite IH.
  destruct (GoFilepath.is_separator c); [done|].
  by destruct (split_cons a) as (elem & elems & ->).
Qed.

Lemma join_cons elem elems :
  elems ≠ [] → GoFilepath.join (elem :: elems) = elem +:+ "/" +:+ GoFilepath.join elems.
Proof. by destruct elems. Qed.

Lemma join_app elems1 elems2 :
  elems1 ≠ [] → elems2 ≠ [] →
  GoFilepath.join (elems1 ++ elems2)
  = GoFilepath.join elems1 +:+ "/" +:+ GoFilepath.join elems2.
Proof.
  intros H1 H2. induction elems1 as [|elem [|elem' elems1] IH]; [done|..].
  - simpl (_ ++ _). by rewrite join_cons.
  - change ((elem :: elem' :: elems1) ++ elems2)
      with (elem :: ((elem' :: elems1) ++ elems2)).
    rewrite !join_cons by done. rewrite IH by done. by rewrite !append_assoc.
Qed.

Lemma join_split path : GoFilepath.join (GoFilepath.split path) = path.
Proof.
  induction path as [|c path IH]; [done|]. simpl.
  destruct (split_cons path) as (elem & elems & Hs). rewrite Hs in *.
  destruct (GoFilepath.is_separator c) eqn:Hc.
  - apply is_separator_true in Hc as ->. rewrite join_cons by done. by rewrite IH.
  - destruct elems as [|elem' elems]; simpl in *; [by rewrite IH|].
    rewrite <-IH. by rewrite append_cons.
Qed.

Lemma split_join elems :
  elems ≠ [] → Forall (λ elem, GoFilepath.has_separator elem = false) elems →
  GoFilepath.split (GoFilepath.join elems) = elems.
Proof.
  induction elems as [|elem [|elem' elems] IH]; [done|..]; intros _ Hall.
  - apply Forall_cons in Hall as [He _]. by apply split_no_separator.
  - apply Forall_cons in Hall as [He Hall]. rewrite join_cons by done.
    rewrite split_app, IH by done. by rewrite split_no_separator.
Qed.

(** ** [Clean] *)

Lemma name_elem_not_dotdot : ¬ name_elem "..".
Proof. by intros (_&_&?&_). Qed.

Lemma cleaned_elems is_rooted elems :
  cleaned is_rooted elems →
  Forall (λ elem, elem ≠ "" ∧ elem ≠ "." ∧ GoFilepath.has_separator elem = false) elems.
Proof.
  intros (k & names & -> & Hnames & _). apply Forall_app. split.
  - apply Forall_forall. by intros elem [-> _]%elem_of_replicate.
  - eapply Forall_impl; [exact Hnames|]. by intros elem (?&?&_&?).
Qed.

(** The elements written by [Clean], the last one first, stay those of a
    clean path. *)
Lemma clean_step_cleaned is_rooted out elem :
  GoFilepath.has_separator elem = false →
  cleaned is_rooted (reverse out) →
  cleaned is_rooted (reverse (GoFilepath.clean_step is_rooted out elem)).
Proof.
  intros Hsep (k & names & Hout & Hnames & Hk). unfold GoFilepath.clean_step.
  case_bool_decide as Hskip; [by exists k, names|].
  assert (out = reverse names ++ replicate k "..") as ->.
  { by rewrite <-(reverse_involutive out), Hout, reverse_app, reverse_replicate. }
  case_bool_decide as Hup.
  - destruct (reverse names) as [|top below] eqn:Hrev.
    + assert (names = []) as -> by by rewrite <-(reverse_involutive names), Hrev.
      destruct k as [|k]; simpl.
      * destruct is_rooted; [by exists 0, []|]. by exists 1, [].
      * exists (S (S k)), [].
        split; [|split; [done|intros Hr; by specialize (Hk Hr)]].
        rewrite app_nil_r. change (".." :: ".." :: replicate k "..")
          with (replicate (S (S k)) ".."). by rewrite reverse_replicate.
    + assert (names = reverse below ++ [top]) as Hn.
      { by rewrite <-(reverse_involutive names), Hrev, reverse_cons. }
      subst names. apply Forall_app in Hnames as [Hbelow Htop].
      rewrite Forall_singleton in Htop. simpl.
      rewrite bool_decide_false by (intros ->; by apply name_elem_not_dotdot).
      exists k, (reverse below). split; [|done].
      by rewrite reverse_app, reverse_replicate.
  - exists k, (names ++ [elem]). split; [|split; [|done]].
    + change (elem :: reverse names ++ replicate k "..")
        with ((elem :: reverse names) ++ replicate k "..").
      rewrite reverse_app, reverse_replicate, reverse_cons, reverse_involutive.
      done.
    + apply Forall_app. split; [done|]. apply Forall_singleton.
      split; [intros ->; apply Hskip; by left|].
      split; [intros ->; apply Hskip; by right|done].
Qed.

Lemma foldl_clean_step_cleaned is_rooted elems : ∀ out,
  Forall (λ elem, GoFilepath.has_separator elem = false) elems →
  cleaned is_rooted (reverse out) →
  cleaned is_rooted (reverse (foldl (GoFilepath.clean_step is_rooted) out elems)).
Proof.
  induction elems as [|elem elems IH]; intros out Hall Hout; [done|].
  apply Forall_cons in Hall as [He Hall]. simpl. apply IH; [done|].
  by apply clean_step_cleaned.
Qed.

Lemma clean_elems_cleaned is_rooted path :
  cleaned is_rooted (GoFilepath.clean_elems is_rooted (GoFilepath.split path)).
Proof.
  apply foldl_clean_step_cleaned; [apply split_elems|]. by exists 0, [].
Qed.

(** The elements of a clean path, split again. *)
Lemma split_render is_rooted elems :
  cleaned is_rooted elems →
  GoFilepath.split (GoFilepath.render is_rooted elems)
  = (if is_rooted then [""] else [])
    ++ match elems with
       | [] => if is_rooted then [""] else ["."]
       | _ => elems
       end.
Proof.
  intros Hc. pose proof (cleaned_elems _ _ Hc) as Hall.
  assert (Forall (λ elem, GoFilepath.has_separator elem = false) elems) as Hsep.
  { eapply Forall_impl; [exact Hall|]. by intros elem (_&_&?). }
  unfold GoFilepath.render. destruct is_rooted.
  - change ("/" +:+ GoFilepath.join elems) with ("" +:+ "/" +:+ GoFilepath.join elems).
    rewrite split_app. destruct elems as [|elem elems]; [done|].
    by rewrite split_join.
  - destruct elems as [|elem elems]; [done|]. by rewrite split_join.
Qed.

Lemma replicate_app_split {A} (x : A) k names : ∀ front back d,
  replicate k x ++ names = front ++ back → last front = Some d → d ≠ x →
  ∃ names1, names = names1 ++ back.
Proof.
  induction k as [|k IH]; intros front back d Heq Hlast Hd; [by exists front|].
  destruct front as [|d0 front]; [done|]. simpl in Heq. injection Heq as <- Heq.
  destruct front as [|d1 front]; [simpl in Hlast; congruence|].
  eapply (IH (d1 :: front)); [done| |done]. by rewrite last_cons_cons in Hlast.
Qed.

(** The zip-slip check: when the clean form of [dest] does not end in [..],
    a clean path that starts with it and a separator goes on with names
    only. *)
Lemma prefix_elems dest q :
  ¬ climbs dest →
  GoStr.HasPrefix (GoFilepath.Clean q) (GoFilepath.Clean dest +:+ "/") = true →
  ∃ is_rooted ds rel,
    cleaned is_rooted (ds ++ rel) ∧ ds ≠ [] ∧ rel ≠ [] ∧ Forall name_elem rel
    ∧ GoFilepath.Clean dest = GoFilepath.render is_rooted ds
    ∧ GoFilepath.Clean q = GoFilepath.render is_rooted (ds ++ rel).
Proof.
  unfold climbs. intros Hclimb [rest Hpre]%HasPrefix_spec.
  rewrite append_assoc in Hpre.
  destruct (split_cons rest) as (r0 & rel & Hrest).
  pose proof (f_equal GoFilepath.split Hpre) as Hs. rewrite split_app in Hs.
  clear Hpre. revert Hclimb Hs. unfold GoFilepath.Clean.
  pose proof (clean_elems_cleaned (GoFilepath.rooted dest) dest) as Hd.
  pose proof (clean_elems_cleaned (GoFilepath.rooted q) q) as Hq.
  revert Hd Hq.
  generalize (GoFilepath.clean_elems (GoFilepath.rooted dest) (GoFilepath.split dest)).
  generalize (GoFilepath.clean_elems (GoFilepath.rooted q) (GoFilepath.split q)).
  generalize (GoFilepath.rooted dest). generalize (GoFilepath.rooted q).
  intros rq rd cs ds Hd Hq. rewrite !split_render by done. rewrite Hrest.
  pose proof (cleaned_elems _ _ Hd) as Hde. pose proof (cleaned_elems _ _ Hq) as Hqe.
  intros Hclimb Hs.
  assert (ds ≠ [] ∧ cs = ds ++ r0 :: rel ∧ rq = rd) as (Hne & -> & ->).
  { destruct rd, rq, ds as [|d0 ds], cs as [|c0 cs]; simpl in Hs;
      try discriminate Hs; simplify_eq; try done.
    all: try (apply Forall_cons in Hqe as [(?&?&?) _]; done).
    all: try (apply Forall_cons in Hde as [(?&?&?) _]; done).
    all: by destruct ds. }
  exists rd, ds, (r0 :: rel). repeat (split; [done|]). split; [|done].
  destruct Hq as (k & names & Hcs & Hnames & _).
  destruct (last ds) as [d|] eqn:Hlast;
    [|by destruct ds using rev_ind; [|rewrite last_snoc in Hlast]].
  assert (d ≠ "..") as Hd'.
  { intros ->. apply Hclimb. destruct rd; simpl.
    - destruct ds; [done|]. by rewrite last_cons, Hlast.
    - by destruct ds. }
  symmetry in Hcs.
  destruct (replicate_app_split _ _ _ _ _ _ Hcs Hlast Hd') as [names1 ->].
  by apply Forall_app in Hnames as [_ ?].
Qed.

Lemma render_app is_rooted ds rel :
  ds ≠ [] → rel ≠ [] →
  GoFilepath.render is_rooted (ds ++ rel)
  = GoFilepath.render is_rooted ds +:+ "/" +:+ GoFilepath.join rel.
Proof.
  intros Hds Hrel. unfold GoFilepath.render. rewrite join_app by done.
  destruct is_rooted; [by rewrite !append_assoc|].
  destruct ds as [|d ds]; [done|]. by destruct (_ ++ _) eqn:?.
Qed.

Lemma prefix_inside dest q :
  ¬ climbs dest →
  GoStr.HasPrefix (GoFilepath.Clean q) (GoFilepath.Clean dest +:+ "/") = true →
  inside (GoFilepath.Clean dest) (GoFilepath.Clean q).
Proof.
  intros Hclimb Hpre.
  destruct (prefix_elems _ _ Hclimb Hpre) as (r & ds & rel & _ & ? & ? & ? & -> & ->).
  exists rel. by rewrite render_app.
Qed.

(** [Clean] leaves the elements of a clean path as they are. *)
Lemma foldl_clean_step_names is_rooted names : ∀ out,
  Forall name_elem names →
  foldl (GoFilepath.clean_step is_rooted) out names = reverse names ++ out.
Proof.
  induction names as [|name names IH]; intros out Hall; [done|].
  apply Forall_cons in Hall as [(?&?&?&?) Hall]. simpl. rewrite IH by done.
  unfold GoFilepath.clean_step. rewrite bool_decide_false by (by intros [?|?]).
  rewrite bool_decide_false by done. by rewrite reverse_cons, <-app_assoc.
Qed.

Lemma foldl_clean_step_dotdot k : ∀ j,
  foldl (GoFilepath.clean_step false) (replicate j "..") (replicate k "..")
  = replicate (j + k) "..".
Proof.
  induction k as [|k IH]; intros j; simpl; [by rewrite Nat.add_0_r|].
  replace (j + S k) with (S j + k) by lia. rewrite <-IH. f_equal.
  by destruct j.
Qed.

Lemma foldl_clean_step_cleaned_id is_rooted elems :
  cleaned is_rooted elems →
  foldl (GoFilepath.clean_step is_rooted) [] elems = reverse elems.
Proof.
  intros (k & names & -> & Hnames & Hk). rewrite foldl_app, reverse_app.
  rewrite reverse_replicate.
  assert (foldl (GoFilepath.clean_step is_rooted) [] (replicate k "..")
          = replicate k "..") as ->.
  { destruct is_rooted; [by rewrite Hk|]. apply (foldl_clean_step_dotdot k 0). }
  by apply foldl_clean_step_names.
Qed.

Lemma rooted_render is_rooted elems :
  cleaned is_rooted elems → ∀ rest,
  GoFilepath.rooted (GoFilepath.render is_rooted elems +:+ rest) = is_rooted.
Proof.
  intros Hc rest. destruct is_rooted; [done|]. unfold GoFilepath.render.
  destruct elems as [|elem elems]; [done|].
  apply cleaned_elems, Forall_cons in Hc as [(Hne & _ & Hsep) _].
  destruct elem as [|c elem]; [done|]. simpl in Hsep.
  apply orb_false_iff in Hsep as [Hc _].
  destruct elems; simpl; by rewrite ?append_cons.
Qed.

Lemma Clean_render_slash is_rooted elems :
  cleaned is_rooted elems → elems ≠ [] →
  GoFilepath.Clean (GoFilepath.render is_rooted elems +:+ "/")
  = GoFilepath.render is_rooted elems.
Proof.
  intros Hc Hne. unfold GoFilepath.Clean. rewrite rooted_render by done.
  f_equal. unfold GoFilepath.clean_elems.
  rewrite <-(append_empty_r (_ +:+ "/")), append_assoc, split_app, split_render by done.
  destruct elems as [|elem elems]; [done|].
  rewrite !foldl_app.
  assert (foldl (GoFilepath.clean_step is_rooted) [] (if is_rooted then [""] else [])
          = []) as -> by by destruct is_rooted.
  rewrite foldl_clean_step_cleaned_id by done. simpl.
  unfold GoFilepath.clean_step at 1. rewrite bool_decide_true by by left.
  apply reverse_involutive.
Qed.

Lemma cleaned_app_l is_rooted elems1 elems2 :
  cleaned is_rooted (elems1 ++ elems2) → cleaned is_rooted elems1.
Proof.
  intros (k & names & Heq & Hnames & Hk).
  exists (length elems1 `min` k), (take (length elems1 - k) names).
  split; [|split; [by apply Forall_take|intros Hr; rewrite Hk by done; lia]].
  apply (f_equal (take (length elems1))) in Heq.
  rewrite take_app_length in Heq. revert Heq. generalize (length elems1).
  intros n ->. by rewrite take_app, take_replicate, length_replicate.
Qed.

Lemma to_last_separator_none path :
  GoFilepath.has_separator path = false → GoFilepath.to_last_separator path = "".
Proof.
  induction path as [|c path IH]; [done|]. simpl.
  intros [-> ->]%orb_false_iff. done.
Qed.

Lemma to_last_separator_app (a b : string) :
  GoFilepath.to_last_separator (a +:+ "/" +:+ b)
  = a +:+ "/" +:+ GoFilepath.to_last_separator b.
Proof.
  induction a as [|c a IH].
  - rewrite !append_nil_l. change ("/" +:+ b) with (String "/" b). simpl.
    destruct (GoFilepath.has_separator b) eqn:Hb; [reflexivity|].
    by rewrite to_last_separator_none.
  - rewrite !(append_cons c a). cbn [GoFilepath.to_last_separator].
    rewrite IH, has_separator_app. change ("/" +:+ b) with (String "/" b).
    simpl. by rewrite orb_true_r.
Qed.

(** The directory of a path inside a clean [base] is [base] or inside it. *)
Lemma Dir_elems is_rooted ds rel :
  cleaned is_rooted (ds ++ rel) → ds ≠ [] → rel ≠ [] → Forall name_elem rel →
  GoFilepath.Dir (GoFilepath.render is_rooted (ds ++ rel)) = GoFilepath.render is_rooted ds
  ∨ inside (GoFilepath.render is_rooted ds)
      (GoFilepath.Dir (GoFilepath.render is_rooted (ds ++ rel))).
Proof.
  intros Hc Hds Hrel Hnames. destruct rel as [|x rel' _] using rev_ind; [done|].
  apply Forall_app in Hnames as [Hnames' [(_&_&_&Hx) _]%Forall_cons].
  rewrite app_assoc in Hc |- *. pose proof (cleaned_app_l _ _ _ Hc) as Hc'.
  assert (ds ++ rel' ≠ []) as Hne by by destruct ds.
  unfold GoFilepath.Dir. rewrite render_app by done. simpl GoFilepath.join.
  rewrite to_last_separator_app, to_last_separator_none, append_empty_r by done.
  rewrite Clean_render_slash by done.
  destruct rel' as [|y rel']; [left; by rewrite app_nil_r|].
  right. exists (y :: rel'). by rewrite render_app.
Qed.

(** ** Where [extractZipFile] writes *)

Lemma Join_checked_clean dest name base :
  GoStr.HasPrefix (GoFilepath.Join dest name) (base +:+ "/") = true →
  ∃ q, GoFilepath.Join dest name = GoFilepath.Clean q.
Proof.
  unfold GoFilepath.Join. repeat case_bool_decide; try by eexists.
  intros [rest Hrest]%HasPrefix_spec.
  apply (f_equal String.length) in Hrest. rewrite !append_length in Hrest.
  simpl in Hrest. lia.
Qed.

Lemma Join_checked dest name :
  ¬ climbs dest →
  GoStr.HasPrefix (GoFilepath.Join dest name) (GoFilepath.Clean dest +:+ "/") = true →
  inside (GoFilepath.Clean dest) (GoFilepath.Join dest name)
  ∧ (GoFilepath.Dir (GoFilepath.Join dest name) = GoFilepath.Clean dest
     ∨ inside (GoFilepath.Clean dest) (GoFilepath.Dir (GoFilepath.Join dest name))).
Proof.
  intros Hclimb Hpre.
  destruct (Join_checked_clean _ _ _ Hpre) as [q Hq]. rewrite Hq in *.
  destruct (prefix_elems _ _ Hclimb Hpre) as (r & ds & rel & ? & ? & ? & ? & -> & ->).
  split; [|by apply Dir_elems]. exists rel. by rewrite render_app.
Qed.

Ltac oracle_cases ok :=
  repeat match goal with
         | |- context [ok ?h ?c] => destruct (ok h c) eqn:?; simpl
         end.

Ltac new_calls :=
  eexists; split; [rewrite <-?app_assoc; reflexivity|];
  repeat (apply Forall_cons; split; [simpl; auto|]); try apply Forall_nil_2.

Lemma extractZipFile_inside ok f dest d :
  ¬ climbs dest →
  ∃ new, calls (extractZipFile ok f dest d).2 = calls d ++ new
         ∧ Forall (λ c, call_inside (GoFilepath.Clean dest) c.1) new.
Proof.
  intros Hclimb. unfold extractZipFile.
  destruct (zf_Open f) as [[data read_ok]|]; [|exists []; by rewrite app_nil_r].
  destruct (GoStr.HasPrefix _ _) eqn:Hcheck; simpl;
    unfold write_file, deferred_close, fs_call, unzip_log; simpl.
  - destruct (Join_checked _ _ Hclimb Hcheck) as [Hin Hdir].
    destruct (zf_IsDir f); simpl; oracle_cases ok; new_calls.
  - oracle_cases ok; new_calls.
Qed.

Lemma extract_all_inside ok src dest files : ∀ d,
  ¬ climbs dest →
  ∃ new, calls (extract_all ok src dest files d) = calls d ++ new
         ∧ Forall (λ c, call_inside (GoFilepath.Clean dest) c.1) new.
Proof.
  induction files as [|f files IH]; intros d Hclimb; simpl.
  { exists []. by rewrite app_nil_r. }
  destruct (extractZipFile_inside ok f dest d Hclimb) as (new1 & Hc1 & Hin1).
  destruct (extractZipFile ok f dest d) as [err d1]. simpl in Hc1.
  destruct (IH (match err with
                | Some e => unzip_log (LogExtractError (zf_Name f) src e) d1
                | None => d1
                end) Hclimb) as (new2 & Hc2 & Hin2).
  exists (new1 ++ new2). split; [|by apply Forall_app].
  rewrite Hc2, app_assoc, <-Hc1. by destruct err.
Qed.

Lemma unzipXMLs_inside ok src archive dest d :
  ¬ climbs dest →
  ∃ new, calls (unzipXMLs ok src archive dest d).2 = calls d ++ new
         ∧ Forall (λ c, c.1 = MkdirAll dest ∨ call_inside (GoFilepath.Clean dest) c.1) new.
Proof.
  intros Hclimb. unfold unzipXMLs.
  destruct archive as [files|]; [|exists []; by rewrite app_nil_r].
  unfold fs_call at 1. simpl. destruct (ok (calls d) (MkdirAll dest)) eqn:Hmade; simpl.
  - destruct (extract_all_inside ok src dest files
                (mkDisk (calls d ++ [(MkdirAll dest, true)]) (unzip_logged d)) Hclimb)
      as (new & Hc & Hin).
    unfold deferred_close, fs_call, unzip_log. simpl in *.
    exists ((MkdirAll dest, true) :: new ++ [(CloseZip src, ok (calls d ++ (MkdirAll dest, true) :: new) (CloseZip src))]).
    split.
    + rewrite Hc, <-!app_assoc. simpl. by destruct (ok _ (CloseZip src)).
    + apply Forall_cons. split; [by left|]. apply Forall_app. split.
      * eapply Forall_impl; [exact Hin|]. by right.
      * apply Forall_singleton. by right.
  - unfold deferred_close, fs_call, unzip_log. simpl.
    oracle_cases ok; new_calls.
Qed.

(** ** Where [UnzipXMLs] unpacks an archive to *)

Lemma Ext_stem path : ∃ front, path = front +:+ GoFilepath.Ext path.
Proof.
  induction path as [|c path [front IH]]; [by exists ""|]. simpl.
  destruct (GoFilepath.has_separator path).
  { exists (String c front). by rewrite append_cons, <-IH. }
  destruct (GoFilepath.Ext path) as [|e ext] eqn:Hext.
  - destruct (Ascii.eqb c "."); [by exists ""|].
    exists (String c path). by rewrite append_empty_r.
  - exists (String c front). by rewrite append_cons, <-IH.
Qed.

Lemma stem_Ext name : stem name +:+ GoFilepath.Ext name = name.
Proof.
  unfold stem. destruct (Ext_stem name) as [front Hfront].
  assert (GoStr.TrimSuffix name (GoFilepath.Ext name) = front) as ->; [|done].
  rewrite Hfront at 1. apply TrimSuffix_app.
Qed.

Lemma Ext_app dir name :
  GoFilepath.has_separator name = false →
  GoFilepath.Ext (dir +:+ "/" +:+ name) = GoFilepath.Ext name.
Proof.
  intros Hsep. induction dir as [|c dir IH].
  - rewrite append_nil_l. change ("/" +:+ name) with (String "/" name). simpl.
    rewrite Hsep. by destruct (GoFilepath.Ext name).
  - rewrite (append_cons c dir). simpl. rewrite has_separator_app.
    change ("/" +:+ name) with (String "/" name). simpl. by rewrite orb_true_r.
Qed.

Lemma Clean_below_pathway name :
  name_elem name →
  GoFilepath.Clean ("./data/990_zips/" +:+ "/" +:+ name) = "data/990_zips/" +:+ name
  ∧ GoFilepath.Clean ("data/990_zips/" +:+ name) = "data/990_zips/" +:+ name
  ∧ ¬ climbs ("data/990_zips/" +:+ name).
Proof.
  intros (Hne & Hdot & Hdotdot & Hsep).
  assert (∀ out, GoFilepath.clean_step false out name = name :: out) as Hstep.
  { intros out. unfold GoFilepath.clean_step.
    rewrite bool_decide_false by (by intros [?|?]). by rewrite bool_decide_false. }
  assert (GoFilepath.split ("data/990_zips/" +:+ name) = ["data"; "990_zips"; name])
    as Hsplit.
  { change ("data/990_zips/" +:+ name) with ("data/990_zips" +:+ "/" +:+ name).
    rewrite split_app, (split_no_separator name) by done. reflexivity. }
  assert (GoFilepath.Clean ("data/990_zips/" +:+ name) = "data/990_zips/" +:+ name) as Hc.
  { unfold GoFilepath.Clean. rewrite Hsplit.
    change (GoFilepath.rooted ("data/990_zips/" +:+ name)) with false.
    unfold GoFilepath.clean_elems. simpl. by rewrite Hstep. }
  split; [|split; [done|]].
  - unfold GoFilepath.Clean. rewrite split_app, (split_no_separator name) by done.
    change (GoFilepath.rooted ("./data/990_zips/" +:+ "/" +:+ name)) with false.
    unfold GoFilepath.clean_elems. rewrite foldl_app. simpl. by rewrite Hstep.
  - unfold climbs. rewrite Hc, Hsplit. simpl. congruence.
Qed.

Lemma Join_pathway name :
  name_elem name → GoFilepath.Join pathway name = "data/990_zips/" +:+ name.
Proof. intros Hname. by destruct (Clean_below_pathway name Hname) as [? _]. Qed.

Lemma destPath_stem name :
  name_elem name → destPath name = "data/990_zips/" +:+ stem name.
Proof.
  intros Hname. unfold destPath. rewrite Join_pathway by done.
  change ("data/990_zips/" +:+ name) with ("data/990_zips" +:+ "/" +:+ name) at 2.
  rewrite Ext_app by apply Hname.
  rewrite <-(stem_Ext name) at 1. rewrite <-append_assoc. apply TrimSuffix_app.
Qed.

Lemma unzip_each_inside unicode_lower ok reader : ∀ d,
  Forall (λ a, is_zip unicode_lower (archive_name a) = true →
               name_elem (archive_name a) ∧ name_elem (stem (archive_name a))) reader →
  ∃ new, calls (unzip_each unicode_lower ok reader d) = calls d ++ new
         ∧ Forall (λ c, ∃ a, a ∈ reader ∧ is_zip unicode_lower (archive_name a) = true
                             ∧ call_inside ("data/990_zips/" +:+ stem (archive_name a)) c.1)
             new.
Proof.
  induction reader as [|zipper reader IH]; intros d Hall; simpl.
  { exists []. by rewrite app_nil_r. }
  apply Forall_cons in Hall as [Hzip Hall].
  assert (∀ d1, ∃ new,
            calls (unzip_each unicode_lower ok reader d1) = calls d1 ++ new
            ∧ Forall (λ c, ∃ a, a ∈ zipper :: reader
                                ∧ is_zip unicode_lower (archive_name a) = true
                                ∧ call_inside ("data/990_zips/" +:+ stem (archive_name a)) c.1)
                new) as IH'.
  { intros d1. destruct (IH d1 Hall) as (new & Hc & Hin). exists new. split; [done|].
    eapply Forall_impl; [exact Hin|]. intros c (a & Ha & ?). exists a.
    split; [by right|done]. }
  destruct (is_zip unicode_lower (archive_name zipper)) eqn:Hsel; simpl; [|apply IH'].
  destruct (Hzip eq_refl) as [Hname Hstem].
  destruct (Clean_below_pathway _ Hstem) as (_ & Hclean & Hclimb).
  rewrite <-destPath_stem in Hclean, Hclimb by done.
  destruct (unzipXMLs_inside ok (GoFilepath.Join pathway (archive_name zipper))
              (archive_files zipper) (destPath (archive_name zipper)) d Hclimb)
    as (new1 & Hc1 & Hin1).
  destruct (unzipXMLs ok _ (archive_files zipper) _ d) as [err d1]. simpl in Hc1.
  destruct (IH' (match err with
                 | Some e => unzip_log
                               (LogUnzipError (GoFilepath.Join pathway (archive_name zipper)) e) d1
                 | None => d1
                 end)) as (new2 & Hc2 & Hin2).
  exists (new1 ++ new2). split.
  - rewrite Hc2, app_assoc, <-Hc1. by destruct err.
  - apply Forall_app. split; [|done].
    eapply Forall_impl; [exact Hin1|]. intros c Hc. exists zipper.
    split; [by left|]. split; [done|].
    rewrite Hclean, destPath_stem in Hc by done.
    destruct Hc as [->|Hc]; [by left|done].
Qed.

(** ** Errors do not stop the unpacking *)

Lemma extractZipFile_grows ok f dest d :
  ∃ new_calls new_log,
    calls (extractZipFile ok f dest d).2 = calls d ++ new_calls
    ∧ unzip_logged (extractZipFile ok f dest d).2 = unzip_logged d ++ new_log
    ∧ match zf_Open f with
      | None => (extractZipFile ok f dest d).1 = Some ErrOpenInZip
      | Some _ => ∃ r, (CloseEntry (zf_Name f), r) ∈ new_calls
      end.
Proof.
  unfold extractZipFile.
  destruct (zf_Open f) as [[data read_ok]|]; [|exists [], []; by rewrite !app_nil_r].
  destruct (GoStr.HasPrefix _ _); simpl; [destruct (zf_IsDir f); simpl|];
    unfold write_file, deferred_close, fs_call, unzip_log; simpl;
    oracle_cases ok; eexists _, _; rewrite <-?app_assoc;
    (split; [reflexivity|]); (split; [first [reflexivity|symmetry; apply app_nil_r]|]);
    eexists; simpl; rewrite ?elem_of_cons; eauto 10.
Qed.

Lemma extract_all_every_file ok src dest files : ∀ d,
  ∃ new_calls new_log,
    calls (extract_all ok src dest files d) = calls d ++ new_calls
    ∧ unzip_logged (extract_all ok src dest files d) = unzip_logged d ++ new_log
    ∧ ∀ f, f ∈ files →
           match zf_Open f with
           | None => LogExtractError (zf_Name f) src ErrOpenInZip ∈ new_log
           | Some _ => ∃ r, (CloseEntry (zf_Name f), r) ∈ new_calls
           end.
Proof.
  induction files as [|f files IH]; intros d; simpl.
  { exists [], []. rewrite !app_nil_r. split; [done|]. split; [done|].
    by intros f ?%elem_of_nil. }
  destruct (extractZipFile_grows ok f dest d) as (c1 & l1 & Hc1 & Hl1 & Hf).
  destruct (extractZipFile ok f dest d) as [err d1]. simpl in Hc1, Hl1, Hf.
  set (d2 := match err with
             | Some e => unzip_log (LogExtractError (zf_Name f) src e) d1
             | None => d1
             end).
  destruct (IH d2) as (c2 & l2 & Hc2 & Hl2 & Hfiles).
  assert (calls d2 = calls d1) as Hcd by (subst d2; by destruct err).
  exists (c1 ++ c2),
    (l1 ++ match err with
           | Some e => [LogExtractError (zf_Name f) src e]
           | None => []
           end ++ l2).
  split; [by rewrite Hc2, Hcd, Hc1, app_assoc|]. split.
  { rewrite Hl2. subst d2. destruct err; simpl; rewrite Hl1, <-?app_assoc; done. }
  intros f' [->|Hin]%elem_of_cons.
  - destruct (zf_Open f).
    + destruct Hf as [r Hr]. exists r. apply elem_of_app. by left.
    + rewrite Hf, !elem_of_app, list_elem_of_singleton. auto.
  - specialize (Hfiles f' Hin). destruct (zf_Open f').
    + destruct Hfiles as [r Hr]. exists r. apply elem_of_app. by right.
    + rewrite !elem_of_app. auto.
Qed.

Lemma unzipXMLs_grows ok src archive dest d :
  ∃ new_calls new_log,
    calls (unzipXMLs ok src archive dest d).2 = calls d ++ new_calls
    ∧ unzip_logged (unzipXMLs ok src archive dest d).2 = unzip_logged d ++ new_log
    ∧ match archive with
      | None => (unzipXMLs ok src archive dest d).1 = Some ErrOpenZip
      | Some _ => ∃ r, (MkdirAll dest, r) ∈ new_calls
      end.
Proof.
  unfold unzipXMLs. destruct archive as [files|]; [|exists [], []; by rewrite !app_nil_r].
  unfold fs_call at 1. simpl. destruct (ok (calls d) (MkdirAll dest)) eqn:Hmade; simpl.
  - destruct (extract_all_every_file ok src dest files
                (mkDisk (calls d ++ [(MkdirAll dest, true)]) (unzip_logged d)))
      as (c & l & Hc & Hl & _). simpl in Hc, Hl.
    unfold deferred_close, fs_call, unzip_log. simpl. rewrite Hc.
    destruct (ok _ (CloseZip src)); simpl; rewrite ?Hc, Hl, <-?app_assoc;
      eexists _, _; (split; [reflexivity|]); (split; [first [reflexivity|symmetry; apply app_nil_r]|]);
      exists true; apply elem_of_app; left; by apply list_elem_of_singleton.
  - unfold deferred_close, fs_call, unzip_log. simpl.
    destruct (ok _ (CloseZip src)); simpl; rewrite <-?app_assoc;
      eexists _, _; (split; [reflexivity|]); (split; [first [reflexivity|symmetry; apply app_nil_r]|]);
      exists false; apply elem_of_app; left; by apply list_elem_of_singleton.
Qed.

Lemma unzip_each_every_archive unicode_lower ok reader : ∀ d,
  ∃ new_calls new_log,
    calls (unzip_each unicode_lower ok reader d) = calls d ++ new_calls
    ∧ unzip_logged (unzip_each unicode_lower ok reader d) = unzip_logged d ++ new_log
    ∧ ∀ a, a ∈ reader → is_zip unicode_lower (archive_name a) = true →
           match archive_files a with
           | None => LogUnzipError (GoFilepath.Join pathway (archive_name a)) ErrOpenZip
                     ∈ new_log
           | Some _ => ∃ r, (MkdirAll (destPath (archive_name a)), r) ∈ new_calls
           end.
Proof.
  induction reader as [|zipper reader IH]; intros d; simpl.
  { exists [], []. rewrite !app_nil_r. split; [done|]. split; [done|].
    by intros a ?%elem_of_nil. }
  destruct (is_zip unicode_lower (archive_name zipper)) eqn:Hsel; simpl.
  2:{ destruct (IH d) as (c & l & Hc & Hl & Hall). exists c, l.
      split; [done|]. split; [done|].
      intros a [->|Hin]%elem_of_cons Ha; [congruence|by apply Hall]. }
  destruct (unzipXMLs_grows ok (GoFilepath.Join pathway (archive_name zipper))
              (archive_files zipper) (destPath (archive_name zipper)) d)
    as (c1 & l1 & Hc1 & Hl1 & Hz).
  destruct (unzipXMLs ok _ (archive_files zipper) _ d) as [err d1].
  simpl in Hc1, Hl1, Hz.
  set (d2 := match err with
             | Some e => unzip_log
                           (LogUnzipError (GoFilepath.Join pathway (archive_name zipper)) e) d1
             | None => d1
             end).
  destruct (IH d2) as (c2 & l2 & Hc2 & Hl2 & Hall).
  assert (calls d2 = calls d1) as Hcd by (subst d2; by destruct err).
  exists (c1 ++ c2),
    (l1 ++ match err with
           | Some e => [LogUnzipError (GoFilepath.Join pathway (archive_name zipper)) e]
           | None => []
           end ++ l2).
  split; [by rewrite Hc2, Hcd, Hc1, app_assoc|]. split.
  { rewrite Hl2. subst d2. destruct err; simpl; rewrite Hl1, <-?app_assoc; done. }
  intros a [->|Hin]%elem_of_cons Ha.
  - destruct (archive_files zipper).
    + destruct Hz as [r Hr]. exists r. apply elem_of_app. by left.
    + rewrite Hz, !elem_of_app, list_elem_of_singleton. auto.
  - specialize (Hall a Hin Ha). destruct (archive_files a).
    + destruct Hall as [r Hr]. exists r. apply elem_of_app. by right.
    + rewrite !elem_of_app. auto.
Qed.

(** ** The names that [UnzipXMLs] takes for archives *)

Lemma lower_bytes_app (a b : string) :
  GoStr.lower_bytes (a +:+ b) = GoStr.lower_bytes a +:+ GoStr.lower_bytes b.
Proof.
  induction a as [|c a IH]; [done|]. rewrite append_cons. simpl.
  by rewrite IH, append_cons.
Qed.

Lemma lower_bytes_split (a b : string) : ∀ name,
  GoStr.lower_bytes name = a +:+ b →
  ∃ front back, name = front +:+ back ∧ GoStr.lower_bytes front = a
                ∧ GoStr.lower_bytes back = b.
Proof.
  induction a as [|c a IH]; intros name Hname; [by exists "", name|].
  destruct name as [|n name]; [done|]. rewrite append_cons in Hname.
  simpl in Hname. injection Hname as Hc Hname.
  destruct (IH _ Hname) as (front & back & -> & Hfront & Hback).
  exists (String n front), back. rewrite append_cons. simpl. by rewrite Hc, Hfront.
Qed.

Lemma isASCII_app (a b : string) :
  GoStr.isASCII (a +:+ b) = GoStr.isASCII a && GoStr.isASCII b.
Proof.
  induction a as [|c a IH]; [done|]. rewrite append_cons. simpl.
  by rewrite IH, andb_assoc.
Qed.

Lemma Ext_dot_zip (s : string) : GoFilepath.Ext (s +:+ ".zip") = ".zip".
Proof.
  induction s as [|c s IH]; [done|]. rewrite append_cons. simpl. rewrite IH.
  by destruct (GoFilepath.has_separator _).
Qed.

(** ** Unpacking to the current directory or to the root *)

Lemma check_refuses_dot_and_root dest name :
  GoFilepath.Clean dest = "." ∨ GoFilepath.Clean dest = "/" →
  GoStr.HasPrefix (GoFilepath.Join dest name) (GoFilepath.Clean dest +:+ "/") = false.
Proof.
  intros Hdest. apply not_true_is_false. intros Hpre.
  assert (¬ climbs dest) as Hclimb.
  { unfold climbs. by destruct Hdest as [-> | ->]. }
  destruct (Join_checked_clean _ _ _ Hpre) as [q Hq]. rewrite Hq in Hpre.
  destruct (prefix_elems _ _ Hclimb Hpre) as (r & ds & rel & Hc & Hds & _ & _ & Hd & _).
  apply cleaned_app_l in Hc. pose proof (split_render _ _ Hc) as Hs.
  pose proof (cleaned_elems _ _ Hc) as He. rewrite <-Hd in Hs.
  destruct ds as [|d0 ds]; [done|]. apply Forall_cons in He as [(Hne & Hdot & _) _].
  destruct Hdest as [Heq|Heq]; rewrite Heq in Hs; destruct r; simpl in Hs; congruence.
Qed.

(** ** What the unpacking writes, and where *)

(** X10: the zip-slip check of [extractZipFile] does its work whenever the
    clean form of [dest] does not end in [..]: every directory that
    [unzipXMLs] makes is [dest] itself, its clean form or a path below
    that, and every file it opens or writes is below it, by names that
    are neither [.] nor [..]. *)
Theorem X10_unzipXMLs_writes_below_dest ok src archive dest d :
  ¬ climbs dest →
  ∃ new, calls (unzipXMLs ok src archive dest d).2 = calls d ++ new
         ∧ Forall (λ c, c.1 = MkdirAll dest ∨ call_inside (GoFilepath.Clean dest) c.1) new.
Proof. apply unzipXMLs_inside. Qed.

Lemma X10_unzipXMLs_writes_below_dest_witness :
  ¬ climbs "out"
  ∧ ∃ new, calls (unzipXMLs all_ok "s.zip" (Some sample_files) "out" no_calls).2
           = calls no_calls ++ new
           ∧ Forall (λ c, c.1 = MkdirAll "out" ∨ call_inside (GoFilepath.Clean "out") c.1) new.
Proof.
  assert (¬ climbs "out") as Hclimb.
  { unfold climbs. vm_compute. discriminate. }
  split; [exact Hclimb|].
  exact (X10_unzipXMLs_writes_below_dest all_ok "s.zip" (Some sample_files) "out"
           no_calls Hclimb).
Defined.

(** Without that condition the check lets a file out: unpacked to [..],
    the file [../x] is written to [../../x]. *)
Example zip_slip_when_dest_climbs :
  climbs ".."
  ∧ calls (extractZipFile all_ok (mkZipFile "../x" false 420 (Some ("", true))) ".."
             no_calls).2
    = [(MkdirAll "../..", true); (OpenFile "../../x" 420, true);
       (Copy "../../x" "", true); (CloseFile "../../x", true);
       (CloseEntry "../x", true)].
Proof. split; reflexivity. Qed.

(** X11: unpacking to the current directory or to the root never works:
    when the clean form of [dest] is [.] or [/], the check refuses every
    file of the archive, and [extractZipFile] returns its zip-slip error
    after closing the file, without making a directory or opening a file. *)
Theorem X11_nothing_unpacked_to_dot_or_root ok f dest d data read_ok :
  GoFilepath.Clean dest = "." ∨ GoFilepath.Clean dest = "/" →
  zf_Open f = Some (data, read_ok) →
  ∃ closed,
    (extractZipFile ok f dest d).1 = Some (ErrZipSlip (GoFilepath.Join dest (zf_Name f)))
    ∧ calls (extractZipFile ok f dest d).2 = calls d ++ [(CloseEntry (zf_Name f), closed)].
Proof.
  intros Hdest Hopen. unfold extractZipFile.
  rewrite Hopen, check_refuses_dot_and_root by done. simpl.
  unfold deferred_close, fs_call, unzip_log. simpl.
  exists (ok (calls d) (CloseEntry (zf_Name f))). by destruct (ok _ _).
Qed.

Lemma X11_nothing_unpacked_to_dot_or_root_witness :
  ∃ closed,
    (extractZipFile all_ok (mkZipFile "a.xml" false 420 (Some ("<a/>", true))) "."
       no_calls).1
    = Some (ErrZipSlip (GoFilepath.Join "." "a.xml"))
    ∧ calls (extractZipFile all_ok (mkZipFile "a.xml" false 420 (Some ("<a/>", true)))
               "." no_calls).2
      = calls no_calls ++ [(CloseEntry "a.xml", closed)].
Proof.
  apply (X11_nothing_unpacked_to_dot_or_root all_ok
           (mkZipFile "a.xml" false 420 (Some ("<a/>", true))) "." no_calls "<a/>" true).
  - left. reflexivity.
  - reflexivity.
Defined.

(** X12: when the names of the archives and the names left of their
    extensions are names of files (not empty, not [.] or [..], without
    separator), [UnzipXMLs] returns nil and every call it makes to the file
    system is for an entry it takes for an archive, at or below the
    directory [data/990_zips/] followed by the name of that entry without
    its extension. *)
Theorem X12_UnzipXMLs_writes_below_archive_dirs unicode_lower ok reader d :
  Forall (λ a, is_zip unicode_lower (archive_name a) = true →
               name_elem (archive_name a) ∧ name_elem (stem (archive_name a))) reader →
  ∃ d' new,
    UnzipXMLs unicode_lower ok (Some reader) d = (None, d')
    ∧ calls d' = calls d ++ new
    ∧ Forall (λ c, ∃ a, a ∈ reader ∧ is_zip unicode_lower (archive_name a) = true
                        ∧ call_inside ("data/990_zips/" +:+ stem (archive_name a)) c.1)
        new.
Proof.
  intros Hall. destruct (unzip_each_inside unicode_lower ok reader d Hall) as (new & ? & ?).
  by exists (unzip_each unicode_lower ok reader d), new.
Qed.

Lemma X12_UnzipXMLs_writes_below_archive_dirs_witness :
  Forall (λ a, is_zip id (archive_name a) = true →
               name_elem (archive_name a) ∧ name_elem (stem (archive_name a)))
    sample_reader
  ∧ ∃ d' new,
      UnzipXMLs id all_ok (Some sample_reader) no_calls = (None, d')
      ∧ calls d' = calls no_calls ++ new
      ∧ Forall (λ c, ∃ a, a ∈ sample_reader ∧ is_zip id (archive_name a) = true
                          ∧ call_inside ("data/990_zips/" +:+ stem (archive_name a)) c.1)
          new.
Proof.
  assert (Forall (λ a, is_zip id (archive_name a) = true →
                       name_elem (archive_name a) ∧ name_elem (stem (archive_name a)))
            sample_reader) as Hall.
  { apply Forall_cons. split.
    - intros _. split; vm_compute; repeat split; discriminate.
    - apply Forall_cons. split; [|apply Forall_nil_2]. vm_compute. discriminate. }
  split; [exact Hall|].
  exact (X12_UnzipXMLs_writes_below_archive_dirs id all_ok sample_reader no_calls Hall).
Defined.

(** An archive named [...zip] is unpacked to [data/990_zips/..], that is,
    into [data]. *)
Example archive_of_three_dots :
  is_zip id "...zip" = true ∧ destPath "...zip" = "data/990_zips/.."
  ∧ calls (UnzipXMLs id all_ok
             (Some [mkArchive "...zip" (Some [mkZipFile "x" false 420 (Some ("", true))])])
             no_calls).2
    = [(MkdirAll "data/990_zips/..", true); (MkdirAll "data", true);
       (OpenFile "data/x" 420, true); (Copy "data/x" "", true);
       (CloseFile "data/x", true); (CloseEntry "x", true);
       (CloseZip "data/990_zips/...zip", true)].
Proof. repeat split; reflexivity. Qed.

(** X13: once the archive is open and [dest] is made, [unzipXMLs] returns
    nil and has tried every file of the archive, whatever went wrong with
    the files before it: a file that cannot be opened is logged, every
    other file was opened and is closed again. *)
Theorem X13_every_file_of_an_archive_is_tried ok src files dest d :
  ok (calls d) (MkdirAll dest) = true →
  ∃ d', unzipXMLs ok src (Some files) dest d = (None, d')
        ∧ ∀ f, f ∈ files →
               match zf_Open f with
               | None => LogExtractError (zf_Name f) src ErrOpenInZip ∈ unzip_logged d'
               | Some _ => ∃ r, (CloseEntry (zf_Name f), r) ∈ calls d'
               end.
Proof.
  intros Hmade. unfold unzipXMLs. unfold fs_call at 1. simpl. rewrite Hmade. simpl.
  destruct (extract_all_every_file ok src dest files
              (mkDisk (calls d ++ [(MkdirAll dest, true)]) (unzip_logged d)))
    as (c & l & Hc & Hl & Hfiles). simpl in Hc, Hl.
  eexists. split; [reflexivity|]. intros f Hf. specialize (Hfiles f Hf).
  unfold deferred_close, fs_call, unzip_log. simpl.
  destruct (zf_Open f).
  - destruct Hfiles as [r Hr]. exists r.
    destruct (ok _ (CloseZip src)); simpl; rewrite Hc, !elem_of_app; auto.
  - destruct (ok _ (CloseZip src)); simpl; rewrite Hl, ?elem_of_app; auto.
Qed.

Lemma X13_every_file_of_an_archive_is_tried_witness :
  ∃ d', unzipXMLs all_ok "s.zip" (Some sample_files) "out" no_calls = (None, d')
        ∧ ∀ f, f ∈ sample_files →
               match zf_Open f with
               | None => LogExtractError (zf_Name f) "s.zip" ErrOpenInZip ∈ unzip_logged d'
               | Some _ => ∃ r, (CloseEntry (zf_Name f), r) ∈ calls d'
               end.
Proof.
  apply (X13_every_file_of_an_archive_is_tried all_ok "s.zip" sample_files "out" no_calls).
  reflexivity.
Defined.

(** X14: [UnzipXMLs] returns nil whenever the directory can be read, and
    has tried every entry it takes for an archive, whatever went wrong with
    the entries before it: an archive that cannot be opened is logged, for
    every other one the directory to unpack it to was asked for. *)
Theorem X14_every_archive_is_tried unicode_lower ok reader d :
  ∃ d', UnzipXMLs unicode_lower ok (Some reader) d = (None, d')
        ∧ ∀ a, a ∈ reader → is_zip unicode_lower (archive_name a) = true →
               match archive_files a with
               | None => LogUnzipError (GoFilepath.Join pathway (archive_name a)) ErrOpenZip
                         ∈ unzip_logged d'
               | Some _ => ∃ r, (MkdirAll (destPath (archive_name a)), r) ∈ calls d'
               end.
Proof.
  destruct (unzip_each_every_archive unicode_lower ok reader d)
    as (c & l & Hc & Hl & Hall).
  eexists. split; [reflexivity|]. intros a Ha Hsel. specialize (Hall a Ha Hsel).
  destruct (archive_files a).
  - destruct Hall as [r Hr]. exists r. rewrite Hc, elem_of_app. auto.
  - rewrite Hl, elem_of_app. auto.
Qed.

Lemma is_zip_ascii unicode_lower name :
  GoStr.isASCII name = true →
  is_zip unicode_lower name = true
  ↔ ∃ front ext, name = front +:+ ext ∧ GoStr.lower_bytes ext = ".zip".
Proof.
  intros Hascii. unfold is_zip, GoStr.ToLower. rewrite Hascii, HasSuffix_spec. split.
  - intros [pre Hpre]. destruct (lower_bytes_split _ _ _ Hpre) as (front & ext & ? & _ & ?).
    by exists front, ext.
  - intros (front & ext & -> & Hext). exists (GoStr.lower_bytes front).
    by rewrite lower_bytes_app, Hext.
Qed.

(** X15: for a name of ASCII bytes, [UnzipXMLs] takes the entry for an
    archive exactly when the name ends in [.zip], in capitals or not. *)
Theorem X15_archives_by_extension unicode_lower name :
  GoStr.isASCII name = true →
  is_zip unicode_lower name = true
  ↔ ∃ front ext, name = front +:+ ext ∧ GoStr.lower_bytes ext = ".zip".
Proof. apply is_zip_ascii. Qed.

Lemma X15_archives_by_extension_witness :
  GoStr.isASCII "2024_TEOS_XML_01A.ZIP" = true
  ∧ (is_zip id "2024_TEOS_XML_01A.ZIP" = true
     ↔ ∃ front ext, "2024_TEOS_XML_01A.ZIP" = front +:+ ext
                    ∧ GoStr.lower_bytes ext = ".zip").
Proof.
  split; [reflexivity|].
  apply (X15_archives_by_extension id "2024_TEOS_XML_01A.ZIP"). reflexivity.
Defined.

(** X16: an archive [s.zip], with [s] of ASCII bytes and without separator:
    [UnzipXMLs] takes it for an archive and unpacks it to
    [data/990_zips/s]; [ParseXMLs] passes over it. *)
Theorem X16_archive_unpacked_and_passed_over unicode_lower s :
  GoFilepath.has_separator s = false → GoStr.isASCII s = true →
  is_zip unicode_lower (s +:+ ".zip") = true
  ∧ destPath (s +:+ ".zip") = "data/990_zips/" +:+ s
  ∧ re_Match (s +:+ ".zip") = true.
Proof.
  intros Hsep Hascii. split; [|split].
  - apply is_zip_ascii; [by rewrite isASCII_app, Hascii|].
    by exists s, ".zip".
  - assert (name_elem (s +:+ ".zip")) as Hname.
    { assert (4 ≤ String.length (s +:+ ".zip")) by (rewrite append_length; simpl; lia).
      repeat split; try (intros Heq; rewrite Heq in *; simpl in *; lia).
      by rewrite has_separator_app, Hsep. }
    rewrite destPath_stem by done. f_equal. unfold stem.
    rewrite Ext_dot_zip. apply TrimSuffix_app.
  - apply re_Match_iff. by exists s, "."%char, "".
Qed.

Lemma X16_archive_unpacked_and_passed_over_witness :
  is_zip id ("2024_TEOS_XML_01A" +:+ ".zip") = true
  ∧ destPath ("2024_TEOS_XML_01A" +:+ ".zip") = "data/990_zips/" +:+ "2024_TEOS_XML_01A"
  ∧ re_Match ("2024_TEOS_XML_01A" +:+ ".zip") = true.
Proof.
  apply (X16_archive_unpacked_and_passed_over id "2024_TEOS_XML_01A"); reflexivity.
Defined.

(** An archive whose extension is in capitals is unpacked by [UnzipXMLs] and
    taken for a directory by [ParseXMLs]. *)
Example archive_in_capitals :
  is_zip id "2024_TEOS_XML_01A.ZIP" = true ∧ re_Match "2024_TEOS_XML_01A.ZIP" = false.
Proof. split; reflexivity. Qed.

